(** * The nonlinear-expression compiler of the MATLAB-SCIP interface

    A shallow embedding of [addNonlinearCon] (Source/scip/scipnlmex.cpp, the
    variant for SCIP >= 8, lines 64-877) and of the check its caller makes
    on the returned value (Source/scip/scipmex.cpp, lines 1322-1397): the
    two pre-scan loops over the instruction array, the short-circuits for
    two-token streams, the state machine that builds the expression array
    [exp], the evaluation of the root at the validation point and the
    creation of the constraint. Around it: the nonlinear section of the
    caller with the checks of [checkInputs] on the NL structure
    (scipmex.cpp, lines 251-282 and 1268-1397), the table of the debug trace
    (scipnlmex.cpp, lines 38-56), and the loops of the variant for older
    versions of SCIP that collect the distinct variables of an expression
    (scipnlmex.cpp, lines 976-1019 and 1662-1688).

    Conventions of the embedding.
    - A C [double] is a primitive binary64 [float]; comparisons of a token
      with an enumerator ([instr[i] == VAR]) convert the enumerator with
      [double_of_int], as the C promotion does.
    - A C [int] or [size_t] counter is a [Z]; every counter is bounded by the
      length of the stream, so no wrap-around is reachable.
    - A C array is a [list] read with [arr_get] and written with [arr_set];
      an access outside the array, the read of a slot that was never written
      and an out-of-range cast have no defined behaviour in C and stop the
      run with one of the [UB_] results.
    - [mexErrMsgTxt] does not return: each message is a constructor of
      [mex_error], and the run stops with [Fail].
    - The calls into SCIP that create expressions ([SCIPcreateExprSum],
      [SCIPcreateExprPow], ...) are taken to return [SCIP_OKAY]; the
      expression they create is a constructor of [expr]. The evaluation of
      an expression by SCIP is modelled from the specification.
    - The instruction array is read in pairs: an opcode at an even position
      and one slot after it, for NUM and VAR and for the operators alike. *)

From Stdlib Require Import ZArith List Bool Lia String Floats.
From stdpp Require Import base list.
Import ListNotations.

Local Open Scope Z_scope.

(** ** Errors *)

(** One constructor for each message given to [mexErrMsgTxt] by
    [addNonlinearCon], and one for each way the C code leaves defined
    behaviour. *)
Inductive mex_error : Type :=
  | ErrDepthExpList        (* l.246, 288, 690 *)
  | ErrDepthVarList        (* l.261, 301, 708 *)
  | ErrOrder               (* l.274, 317 *)
  | ErrNoWaitingVar        (* l.338 *)
  | ErrWaitingVarEmpty     (* l.343 *)
  | ErrNoWaitingExp        (* l.355 *)
  | ErrUnknownProcess      (* l.362 *)
  | ErrTwoOperands         (* l.367 *)
  | ErrPowerVariable       (* l.396, 471, 585 *)
  | ErrOpNotImplemented    (* l.399, 434, 474, 527, 588: the default labels *)
  | ErrDivisionByConstZero (* l.424, 516 *)
  | ErrWaitingExpEmpty     (* l.602 *)
  | ErrUnexpectedOperator  (* l.651 *)
  | ErrGrouping            (* l.658 *)
  | ErrNoOperand           (* l.683 *)
  | ErrNegativeVarIndex    (* l.724 *)
  | ErrFcnVarNotImplemented (* l.753 *)
  | ErrFcnExpNotImplemented (* l.788 *)
  | ErrUnknownArgument     (* l.794 *)
  | ErrMinMax              (* l.807 *)
  | ErrTan                 (* l.810 *)
  | ErrSign                (* l.813 *)
  | ErrUnknownInstruction  (* l.820 *)
  | ErrAssertVarIndex      (* l.191: the assert on varind[i] *)
  | ErrEvalDivisionByZero  (* raised by the tree validator only *)
  | UB_OutOfBounds         (* array access outside the array *)
  | UB_Uninitialised       (* read of a slot of exp that was never written *)
  | UB_FloatToInt.         (* (int)x for x not finite or outside int *)

(** The text passed to [mexErrMsgTxt]. *)
Definition message (e : mex_error) : string :=
  match e with
  | ErrDepthExpList => "Maximum function depth exceeded [expression list]."
  | ErrDepthVarList => "Maximum function depth exceeded [variable list]."
  | ErrOrder => "Error in order of instructions."
  | ErrNoWaitingVar => "Error reading variable to process - Process List indicates variable to process, but not present in variable list."
  | ErrWaitingVarEmpty => "Error processing waiting variable, found empty or negative index."
  | ErrNoWaitingExp => "Error reading expression to process - Process List indicates expression to process, but not present in expression list."
  | ErrUnknownProcess => "Unknown entry in process list."
  | ErrTwoOperands => "Error attempting to create nonlinear expression, operator doesn't have two operands."
  | ErrPowerVariable => "You cannot use POWER with the exponent as a variable. For x^y use exp(y*log(x))."
  | ErrOpNotImplemented => "Operator not implemented yet"
  | ErrDivisionByConstZero => "Division by constant 0."
  | ErrWaitingExpEmpty => "Error processing waiting expression, found empty index."
  | ErrUnexpectedOperator => "Unexpected operator for combining expressions, currently only +, -, * and / supported"
  | ErrGrouping => "Grouping of arguments not implemented yet."
  | ErrNoOperand => "Error attempting to create nonlinear expression, function doesn't have an operand."
  | ErrNegativeVarIndex => "Variable index is negative when creating fcn(var)."
  | ErrFcnVarNotImplemented => "Operator not implemented yet for FCN ( VAR )!"
  | ErrFcnExpNotImplemented => "Operator not implemented yet for FCN ( EXP )!"
  | ErrUnknownArgument => "Unknown argument to operate function on, only options are VAR (variable) or EXP (expression)."
  | ErrMinMax => "Max and Min not currently implemented (in this interface and SCIP)."
  | ErrTan => "Tangent function not currently implemented (in SCIP)."
  | ErrSign => "Sign not currently implemented (in SCIP)."
  | ErrUnknownInstruction => "Unknown (or out of order) instruction."
  | _ => ""
  end.

(** The error kinds of the specification (section 7). *)
Inductive error_kind : Type :=
  | MalformedStream | MalformedExpression | UnsupportedOperator
  | DepthExceeded | DivisionByZero | InvalidPower | Undefined.

(** The kind under which the specification files each message. *)
Definition kind_of (e : mex_error) : error_kind :=
  match e with
  | ErrDepthExpList | ErrDepthVarList => DepthExceeded
  | ErrPowerVariable => InvalidPower
  | ErrDivisionByConstZero | ErrEvalDivisionByZero => DivisionByZero
  | ErrMinMax | ErrTan | ErrSign => UnsupportedOperator
  | ErrOrder | ErrUnknownInstruction => MalformedStream
  | ErrNoWaitingVar | ErrWaitingVarEmpty | ErrNoWaitingExp | ErrUnknownProcess
  | ErrTwoOperands | ErrOpNotImplemented | ErrWaitingExpEmpty
  | ErrUnexpectedOperator | ErrGrouping | ErrNoOperand | ErrNegativeVarIndex
  | ErrFcnVarNotImplemented | ErrFcnExpNotImplemented | ErrUnknownArgument =>
      MalformedExpression
  | ErrAssertVarIndex
  | UB_OutOfBounds | UB_Uninitialised | UB_FloatToInt => Undefined
  end.

(** A run either returns or stops with an error. *)
Inductive result (A : Type) : Type :=
  | Ok (a : A)
  | Fail (e : mex_error).
Arguments Ok {A} a.
Arguments Fail {A} e.

Definition bind {A B : Type} (c : result A) (k : A -> result B) : result B :=
  match c with
  | Ok a => k a
  | Fail e => Fail e
  end.

Notation "x <- c ;; k" := (bind c (fun x => k))
  (at level 100, c at next level, right associativity).
Notation "c ;;; k" := (bind c (fun _ => k))
  (at level 100, right associativity).

(** [if ( cond ) mexErrMsgTxt(...)]. *)
Definition fail_if (cond : bool) (e : mex_error) : result unit :=
  if cond then Fail e else Ok tt.

Definition is_ok {A : Type} (c : result A) : bool :=
  match c with Ok _ => true | Fail _ => false end.

(** ** Arrays *)

Definition arr_get {A : Type} (a : list A) (i : Z) : result A :=
  if i <? 0 then Fail UB_OutOfBounds
  else match a !! Z.to_nat i with
       | Some x => Ok x
       | None => Fail UB_OutOfBounds
       end.

Definition arr_set {A : Type} (a : list A) (i : Z) (x : A) : result (list A) :=
  if (0 <=? i) && (i <? Z.of_nat (length a))
  then Ok (<[Z.to_nat i := x]> a)
  else Fail UB_OutOfBounds.

(** ** Doubles and ints *)

Definition INT_MIN : Z := - 2147483648.
Definition INT_MAX : Z := 2147483647.

(** The promotion of an [int] to [double] (exact for the enumerators). *)
Definition double_of_int (z : Z) : float :=
  if z <? 0 then PrimFloat.opp (PrimFloat.of_uint63 (Uint63.of_Z (- z)))
  else PrimFloat.of_uint63 (Uint63.of_Z z).

(** The cast [(int)x]: truncation towards zero, undefined when the
    truncated value is not an [int] (and for infinities and NaN). *)
Definition double_to_int (x : float) : option Z :=
  match Prim2SF x with
  | S754_zero _ => Some 0
  | S754_finite s m e =>
      let mag := if 0 <=? e then Z.pos m * 2 ^ e else Z.pos m / 2 ^ (- e) in
      let v := if s then - mag else mag in
      if (INT_MIN <=? v) && (v <=? INT_MAX) then Some v else None
  | _ => None
  end.

Definition cast_int (x : float) : result Z :=
  match double_to_int x with
  | Some z => Ok z
  | None => Fail UB_FloatToInt
  end.

(** [x == k] and [x > k] for a double [x] and an int [k]. *)
Definition deq (x : float) (k : Z) : bool := PrimFloat.eqb x (double_of_int k).
Definition dgt (x : float) (k : Z) : bool := PrimFloat.ltb (double_of_int k) x.

(** The locals [one], [mone], [zero] of the source. *)
Definition one : float := 1%float.
Definition mone : float := (-1)%float.
Definition zero : float := 0%float.

(** ** Enumerations (l.60-61) *)

Definition EMPTY : Z := -2.
Definition READ : Z := -1.
Definition NUM : Z := 0.
Definition VAR : Z := 1.
Definition EXP : Z := 2.
Definition MUL : Z := 3.
Definition DIV : Z := 4.
Definition ADD : Z := 5.
Definition SUB : Z := 6.
Definition SQUARE : Z := 7.
Definition SQRT : Z := 8.
Definition POW : Z := 9.
Definition EXPNT : Z := 10.
Definition LOG : Z := 11.
Definition SIN : Z := 12.
Definition COS : Z := 13.
Definition TAN : Z := 14.
Definition MIN : Z := 15.
Definition MAX : Z := 16.
Definition ABS : Z := 17.
Definition SIGN : Z := 18.
Definition OTHER : Z := 98.
Definition EXIT : Z := 99.

(** Function buffer size (l.26). *)
Definition MAX_DEPTH : Z := 512.

(** ** Expressions *)

(** The expressions SCIP is asked to create. A variable is named by its
    position in the array [vars] of the caller. *)
#[warnings="-register-all"]
Inductive expr : Type :=
  | EVar (v : Z)                                      (* SCIPcreateExprVar *)
  | EValue (c : float)                                (* SCIPcreateExprValue *)
  | ESum (terms : list (float * expr)) (constant : float) (* SCIPcreateExprSum *)
  | EProduct (factors : list expr) (coef : float)     (* SCIPcreateExprProduct *)
  | EPow (base : expr) (exponent : float)             (* SCIPcreateExprPow *)
  | EExp (e : expr)                                   (* SCIPcreateExprExp *)
  | ELog (e : expr)                                   (* SCIPcreateExprLog *)
  | EAbs (e : expr)                                   (* SCIPcreateExprAbs *)
  | ESin (e : expr)                                   (* SCIPcreateExprSin *)
  | ECos (e : expr).                                  (* SCIPcreateExprCos *)

(** ** The state of the main loop *)

(** The locals of [addNonlinearCon] that the main loop reads and writes.
    [instr] is among them: the loop writes the flip mark into the caller's
    array (l.349). [exp] holds [None] in a slot that was never written. *)
Record machine : Type := Machine {
  state : Z;
  args0 : Z;
  args1 : Z;
  instr : list float;
  varcnt : Z;
  expno : Z;
  vari : Z;
  savexp : Z;
  savexplst : list Z;
  psavexplst : Z;
  savvarlst : list Z;
  psavvarlst : Z;
  savprolst : list Z;
  psavprolst : Z;
  num : float;
  exp : list (option expr)
}.

Definition set_state (s : Z) (m : machine) : machine :=
  let 'Machine _ a0 a1 ins vc en vi se el pel vl pvl pl ppl n ex := m in
  Machine s a0 a1 ins vc en vi se el pel vl pvl pl ppl n ex.
Definition set_args (a0 a1 : Z) (m : machine) : machine :=
  let 'Machine s _ _ ins vc en vi se el pel vl pvl pl ppl n ex := m in
  Machine s a0 a1 ins vc en vi se el pel vl pvl pl ppl n ex.
Definition set_instr (ins : list float) (m : machine) : machine :=
  let 'Machine s a0 a1 _ vc en vi se el pel vl pvl pl ppl n ex := m in
  Machine s a0 a1 ins vc en vi se el pel vl pvl pl ppl n ex.
Definition set_varcnt (vc : Z) (m : machine) : machine :=
  let 'Machine s a0 a1 ins _ en vi se el pel vl pvl pl ppl n ex := m in
  Machine s a0 a1 ins vc en vi se el pel vl pvl pl ppl n ex.
Definition set_expno (en : Z) (m : machine) : machine :=
  let 'Machine s a0 a1 ins vc _ vi se el pel vl pvl pl ppl n ex := m in
  Machine s a0 a1 ins vc en vi se el pel vl pvl pl ppl n ex.
Definition set_vari (vi : Z) (m : machine) : machine :=
  let 'Machine s a0 a1 ins vc en _ se el pel vl pvl pl ppl n ex := m in
  Machine s a0 a1 ins vc en vi se el pel vl pvl pl ppl n ex.
Definition set_savexp (se : Z) (m : machine) : machine :=
  let 'Machine s a0 a1 ins vc en vi _ el pel vl pvl pl ppl n ex := m in
  Machine s a0 a1 ins vc en vi se el pel vl pvl pl ppl n ex.
Definition set_savexplst (el : list Z) (pel : Z) (m : machine) : machine :=
  let 'Machine s a0 a1 ins vc en vi se _ _ vl pvl pl ppl n ex := m in
  Machine s a0 a1 ins vc en vi se el pel vl pvl pl ppl n ex.
Definition set_savvarlst (vl : list Z) (pvl : Z) (m : machine) : machine :=
  let 'Machine s a0 a1 ins vc en vi se el pel _ _ pl ppl n ex := m in
  Machine s a0 a1 ins vc en vi se el pel vl pvl pl ppl n ex.
Definition set_savprolst (pl : list Z) (ppl : Z) (m : machine) : machine :=
  let 'Machine s a0 a1 ins vc en vi se el pel vl pvl _ _ n ex := m in
  Machine s a0 a1 ins vc en vi se el pel vl pvl pl ppl n ex.
Definition set_num (n : float) (m : machine) : machine :=
  let 'Machine s a0 a1 ins vc en vi se el pel vl pvl pl ppl _ ex := m in
  Machine s a0 a1 ins vc en vi se el pel vl pvl pl ppl n ex.
Definition set_exp (ex : list (option expr)) (m : machine) : machine :=
  let 'Machine s a0 a1 ins vc en vi se el pel vl pvl pl ppl n _ := m in
  Machine s a0 a1 ins vc en vi se el pel vl pvl pl ppl n ex.

(** ** The pre-scan (l.123-170) *)

(** First loop (l.125-142): the switch alternates between READ and OTHER
    and counts, at the READ positions, the variables and the operators.
    The accumulator is (state, no_var, no_ops). *)
Definition count_step (acc : Z * Z * Z) (x : float) : Z * Z * Z :=
  let '(st, no_var, no_ops) := acc in
  if st =? READ then
    (OTHER,
     if deq x VAR then no_var + 1 else no_var,
     if dgt x EXP then no_ops + 1 else no_ops)
  else (READ, no_var, no_ops).

Definition count_instr (ins : list float) : Z * Z * Z :=
  fold_left count_step ins (READ, 0, 0).

(** Second loop (l.148-170): the slot after each VAR is cast to [int] and
    stored in [varind]. The accumulator is (state, j, varind). *)
Definition index_step (acc : result (Z * Z * list Z)) (x : float)
  : result (Z * Z * list Z) :=
  a <- acc ;;
  let '(st, j, varind) := a in
  if st =? READ then Ok (if deq x VAR then VAR else OTHER, j, varind)
  else if st =? VAR then
    k <- cast_int x ;;
    varind' <- arr_set varind j k ;;
    Ok (READ, j + 1, varind')
  else Ok (READ, j, varind).

(** [varind] comes from [mxCalloc]: [no_var] zeros. *)
Definition index_instr (ins : list float) (no_var : Z) : result (Z * Z * list Z) :=
  fold_left index_step ins (Ok (READ, 0, replicate (Z.to_nat no_var) 0)).

(** Both loops: the counts and the index vector. *)
Definition prescan (ins : list float) : result (Z * Z * list Z) :=
  let '(_, no_var, no_ops) := count_instr ins in
  a <- index_instr ins no_var ;;
  let '(_, _, varind) := a in
  Ok (no_var, no_ops, varind).

(** The variable expressions (l.189-193), with the assert on each index. *)
Fixpoint create_expvars (nvars : Z) (varind : list Z) : result (list expr) :=
  match varind with
  | [] => Ok []
  | k :: rest =>
      fail_if (negb ((0 <=? k) && (k <? nvars))) ErrAssertVarIndex ;;;
      es <- create_expvars nvars rest ;;
      Ok (EVar k :: es)
  end.

(** ** The main loop (l.222-822) *)

Section Builder.

(** Fixed while the loop runs: the variable expressions and the bound of
    the loop. *)
Variable expvars : list expr.
Variable no_instr : Z.

Definition expvar (k : Z) : result expr := arr_get expvars k.

Definition expression (m : machine) (k : Z) : result expr :=
  o <- arr_get (exp m) k ;;
  match o with
  | Some e => Ok e
  | None => Fail UB_Uninitialised
  end.

(** [instr[i] == 1]: the flip mark. *)
Definition flipped (i : Z) (m : machine) : result bool :=
  x <- arr_get (instr m) i ;;
  Ok (deq x 1).

(** Save the last expression for later (l.245-252, 287-294, 689-696). *)
Definition save_expression (m : machine) : result machine :=
  fail_if (psavexplst m >=? MAX_DEPTH) ErrDepthExpList ;;;
  let p := psavexplst m + 1 in
  el <- arr_set (savexplst m) p (expno m - 1) ;;
  let q := psavprolst m + 1 in
  pl <- arr_set (savprolst m) q EXP ;;
  Ok (set_savprolst pl q (set_savexplst el p m)).

(** Save a variable for later (l.260-267, 300-310, 707-714); the number
    to save is computed after the depth check. *)
Definition save_variable (v : result Z) (m : machine) : result machine :=
  fail_if (psavvarlst m >=? MAX_DEPTH) ErrDepthVarList ;;;
  x <- v ;;
  let p := psavvarlst m + 1 in
  vl <- arr_set (savvarlst m) p x ;;
  let q := psavprolst m + 1 in
  pl <- arr_set (savprolst m) q VAR ;;
  Ok (set_savprolst pl q (set_savvarlst vl p m)).

(** case NUM (l.236-275). *)
Definition step_NUM (i : Z) (m : machine) : result machine :=
  x <- arr_get (instr m) i ;;
  let m := set_state READ (set_num x m) in
  if args0 m =? EMPTY then Ok (set_args NUM (args1 m) m)
  else if args1 m =? EMPTY then Ok (set_args (args0 m) NUM m)
  else if args0 m =? EXP then
    m <- save_expression m ;;
    Ok (set_args (args1 m) NUM m)
  else if args0 m =? VAR then
    m <- save_variable (Ok (varcnt m - 1)) m ;;
    Ok (set_args (args1 m) NUM m)
  else Fail ErrOrder.

(** [instr[i-3] == VAR && instr[i-5] == VAR] (l.304). *)
Definition last_two_are_vars (i : Z) (m : machine) : result bool :=
  a <- arr_get (instr m) (i - 3) ;;
  if deq a VAR then
    b <- arr_get (instr m) (i - 5) ;;
    Ok (deq b VAR)
  else Ok false.

(** case VAR (l.277-318). *)
Definition step_VAR (i : Z) (m : machine) : result machine :=
  let m := set_state READ (set_varcnt (varcnt m + 1) m) in
  if args0 m =? EMPTY then Ok (set_args VAR (args1 m) m)
  else if args1 m =? EMPTY then Ok (set_args (args0 m) VAR m)
  else if args0 m =? EXP then
    m <- save_expression m ;;
    Ok (set_args (args1 m) VAR m)
  else if args0 m =? VAR then
    m <- save_variable
           (both <- last_two_are_vars i m ;;
            Ok (if both : bool then varcnt m - 2 else varcnt m - 1)) m ;;
    Ok (set_args (args1 m) VAR m)
  else Fail ErrOrder.

Definition is_binary (s : Z) : bool :=
  (s =? MUL) || (s =? DIV) || (s =? ADD) || (s =? SUB) || (s =? POW).

Definition is_unary (s : Z) : bool :=
  (s =? SQUARE) || (s =? SQRT) || (s =? EXPNT) || (s =? LOG) || (s =? ABS)
  || (s =? SIN) || (s =? COS).

(** A waiting variable or expression becomes the second argument
    (l.331-363). *)
Definition take_waiting (i : Z) (m : machine) : result machine :=
  if (args1 m =? EMPTY) && (psavprolst m >=? 0) then
    toProcess <- arr_get (savprolst m) (psavprolst m) ;;
    let m := set_savprolst (savprolst m) (psavprolst m - 1) m in
    if toProcess =? VAR then
      fail_if (psavvarlst m <? 0) ErrNoWaitingVar ;;;
      v <- arr_get (savvarlst m) (psavvarlst m) ;;
      let m := set_vari v m in
      fail_if ((v =? EMPTY) || (v <? 0)) ErrWaitingVarEmpty ;;;
      ins <- arr_set (instr m) i (double_of_int 1) ;;
      Ok (set_savvarlst (savvarlst m) (psavvarlst m - 1)
            (set_instr ins (set_args (args0 m) VAR m)))
    else if toProcess =? EXP then
      fail_if (psavexplst m <? 0) ErrNoWaitingExp ;;;
      Ok (set_args (args0 m) EXP m)
    else Fail ErrUnknownProcess
  else Ok m.

(** NUM (op) VAR (l.370-400). *)
Definition node_NUM_VAR (m : machine) : result expr :=
  let s := state m in
  if s =? ADD then v <- expvar (vari m) ;; Ok (ESum [(one, v)] (num m))
  else if s =? SUB then v <- expvar (vari m) ;; Ok (ESum [(mone, v)] (num m))
  else if s =? MUL then v <- expvar (vari m) ;; Ok (ESum [(num m, v)] 0%float)
  else if s =? DIV then
    v <- expvar (vari m) ;;
    Ok (ESum [(num m, EPow v (-1)%float)] 0%float)
  else if s =? POW then Fail ErrPowerVariable
  else Fail ErrOpNotImplemented.

(** VAR (op) NUM (l.405-435). *)
Definition node_VAR_NUM (m : machine) : result expr :=
  let s := state m in
  if s =? ADD then v <- expvar (vari m) ;; Ok (ESum [(one, v)] (num m))
  else if s =? SUB then
    v <- expvar (vari m) ;; Ok (ESum [(one, v)] (- num m)%float)
  else if s =? MUL then v <- expvar (vari m) ;; Ok (ESum [(num m, v)] 0%float)
  else if s =? DIV then
    fail_if (PrimFloat.eqb (num m) 0%float) ErrDivisionByConstZero ;;;
    v <- expvar (vari m) ;;
    Ok (ESum [((1 / num m)%float, v)] 0%float)
  else if s =? POW then v <- expvar (vari m) ;; Ok (EPow v (num m))
  else Fail ErrOpNotImplemented.

(** VAR (op) VAR (l.440-475): the two children are [expvars[vari-1]] and
    [expvars[vari]]. *)
Definition node_VAR_VAR (m : machine) : result expr :=
  let s := state m in
  if s =? ADD then
    u <- expvar (vari m - 1) ;; v <- expvar (vari m) ;;
    Ok (ESum [(1%float, u); (1%float, v)] 0%float)
  else if s =? SUB then
    u <- expvar (vari m - 1) ;; v <- expvar (vari m) ;;
    Ok (ESum [(1%float, u); ((-1)%float, v)] 0%float)
  else if s =? MUL then
    u <- expvar (vari m - 1) ;; v <- expvar (vari m) ;;
    Ok (EProduct [u; v] 1%float)
  else if s =? DIV then
    u <- expvar (vari m - 1) ;; v <- expvar (vari m) ;;
    Ok (EProduct [u; EPow v (-1)%float] 1%float)
  else if s =? POW then Fail ErrPowerVariable
  else Fail ErrOpNotImplemented.

(** EXP (op) NUM (l.480-528). *)
Definition node_EXP_NUM (i : Z) (m : machine) : result expr :=
  let s := state m in
  if s =? ADD then
    e <- expression m (expno m - 1) ;; Ok (ESum [(one, e)] (num m))
  else if s =? SUB then
    f <- flipped i m ;;
    e <- expression m (expno m - 1) ;;
    if f : bool then Ok (ESum [(mone, e)] (num m))
    else Ok (ESum [(one, e)] (- num m)%float)
  else if s =? MUL then
    e <- expression m (expno m - 1) ;; Ok (ESum [(num m, e)] 0%float)
  else if s =? DIV then
    f <- flipped i m ;;
    if f : bool then
      e <- expression m (expno m - 1) ;;
      Ok (ESum [(num m, EPow e (-1)%float)] 0%float)
    else
      fail_if (PrimFloat.eqb (num m) 0%float) ErrDivisionByConstZero ;;;
      e <- expression m (expno m - 1) ;;
      Ok (ESum [((1 / num m)%float, e)] 0%float)
  else if s =? POW then
    e <- expression m (expno m - 1) ;; Ok (EPow e (num m))
  else Fail ErrOpNotImplemented.

(** EXP (op) VAR (l.533-589): both terms are read before the switch. *)
Definition node_EXP_VAR (i : Z) (m : machine) : result expr :=
  let s := state m in
  e <- expression m (expno m - 1) ;;
  v <- expvar (vari m) ;;
  if s =? ADD then Ok (ESum [(1%float, e); (1%float, v)] 0%float)
  else if s =? SUB then
    f <- flipped i m ;;
    if f : bool then Ok (ESum [((-1)%float, e); (1%float, v)] 0%float)
    else Ok (ESum [(1%float, e); ((-1)%float, v)] 0%float)
  else if s =? MUL then Ok (EProduct [e; v] 1%float)
  else if s =? DIV then
    f <- flipped i m ;;
    if f : bool then Ok (EProduct [EPow e (-1)%float; v] 1%float)
    else Ok (EProduct [EPow v (-1)%float; e] 1%float)
  else if s =? POW then Fail ErrPowerVariable
  else Fail ErrOpNotImplemented.

(** EXP (op) EXP (l.594-652), after [savexp] was fetched. *)
Definition node_EXP_EXP (i : Z) (m : machine) : result expr :=
  let s := state m in
  t0 <- expression m (savexp m) ;;
  t1 <- expression m (expno m - 1) ;;
  if s =? ADD then Ok (ESum [(1%float, t0); (1%float, t1)] 0%float)
  else if s =? SUB then
    f <- flipped i m ;;
    if f : bool then Ok (ESum [((-1)%float, t0); (1%float, t1)] 0%float)
    else Ok (ESum [(1%float, t0); ((-1)%float, t1)] 0%float)
  else if s =? MUL then Ok (EProduct [t0; t1] 1%float)
  else if s =? DIV then
    f <- flipped i m ;;
    if f : bool then Ok (EProduct [EPow t0 (-1)%float; t1] 1%float)
    else Ok (EProduct [EPow t1 (-1)%float; t0] 1%float)
  else Fail ErrUnexpectedOperator.

(** [exp[expno] = node; args[0] = EXP; args[1] = EMPTY]. *)
Definition store_node (node : expr) (m : machine) : result machine :=
  ex <- arr_set (exp m) (expno m) (Some node) ;;
  Ok (set_args EXP EMPTY (set_exp ex m)).

(** The dispatch on the kinds of the two arguments (l.369-658). *)
Definition dispatch_binary (i : Z) (m : machine) : result machine :=
  let a0 := args0 m in
  let a1 := args1 m in
  if (a0 =? NUM) && (a1 =? VAR) then
    node <- node_NUM_VAR m ;; store_node node m
  else if (a0 =? VAR) && (a1 =? NUM) then
    node <- node_VAR_NUM m ;; store_node node m
  else if (a0 =? VAR) && (a1 =? VAR) then
    node <- node_VAR_VAR m ;; store_node node m
  else if (a0 =? EXP) && (a1 =? NUM) then
    node <- node_EXP_NUM i m ;; store_node node m
  else if (a0 =? EXP) && (a1 =? VAR) then
    node <- node_EXP_VAR i m ;; store_node node m
  else if (a0 =? EXP) && (a1 =? EXP) then
    sv <- arr_get (savexplst m) (psavexplst m) ;;
    let m := set_savexp sv m in
    fail_if ((sv =? EMPTY) || (sv <? 0)) ErrWaitingExpEmpty ;;;
    node <- node_EXP_EXP i m ;;
    m <- store_node node m ;;
    Ok (set_savexplst (savexplst m) (psavexplst m - 1) m)
  else Fail ErrGrouping.

(** The end of an operator case (l.660-666, 796-802). *)
Definition next_operator (i : Z) (m : machine) : machine :=
  if i =? no_instr - 1 then set_state EXIT m
  else set_expno (expno m + 1) (set_state READ m).

(** case MUL, DIV, ADD, SUB, POW (l.321-667). *)
Definition step_binary (i : Z) (m : machine) : result machine :=
  let m := set_vari (varcnt m) m in
  m <- take_waiting i m ;;
  fail_if ((args0 m =? EMPTY) || (args1 m =? EMPTY)) ErrTwoOperands ;;;
  m <- dispatch_binary i m ;;
  Ok (next_operator i m).

(** FCN ( VAR ) (l.726-754) and FCN ( EXP ) (l.761-789): SQUARE has no
    label in either switch. *)
Definition node_unary (dflt : mex_error) (s : Z) (c : result expr) : result expr :=
  if s =? SQRT then e <- c ;; Ok (EPow e 0.5%float)
  else if s =? EXPNT then e <- c ;; Ok (EExp e)
  else if s =? LOG then e <- c ;; Ok (ELog e)
  else if s =? ABS then e <- c ;; Ok (EAbs e)
  else if s =? SIN then e <- c ;; Ok (ESin e)
  else if s =? COS then e <- c ;; Ok (ECos e)
  else Fail dflt.

(** case SQUARE, SQRT, EXPNT, LOG, ABS, SIN, COS (l.670-803). *)
Definition step_unary (i : Z) (m : machine) : result machine :=
  let m := set_vari (varcnt m) m in
  fail_if (args0 m =? EMPTY) ErrNoOperand ;;;
  m <- (if (args0 m =? EXP) && (args1 m =? VAR) then
          m <- save_expression m ;; Ok (set_args VAR EMPTY m)
        else Ok m) ;;
  m <- (if (args0 m =? VAR) && (args1 m =? VAR) then
          save_variable (Ok (varcnt m - 1)) m
        else Ok m) ;;
  m <- (if args0 m =? VAR then
          fail_if (vari m <? 0) ErrNegativeVarIndex ;;;
          node <- node_unary ErrFcnVarNotImplemented (state m) (expvar (vari m)) ;;
          store_node node m
        else if args0 m =? EXP then
          node <- node_unary ErrFcnExpNotImplemented (state m)
                    (expression m (expno m - 1)) ;;
          store_node node m
        else Fail ErrUnknownArgument) ;;
  Ok (next_operator i m).

(** One iteration of the loop: the switch on [state] (l.230-821). *)
Definition step (i : Z) (m : machine) : result machine :=
  let s := state m in
  if s =? READ then
    x <- arr_get (instr m) i ;;
    k <- cast_int x ;;
    Ok (set_state k m)
  else if s =? NUM then step_NUM i m
  else if s =? VAR then step_VAR i m
  else if is_binary s then step_binary i m
  else if is_unary s then step_unary i m
  else if (s =? MIN) || (s =? MAX) then Fail ErrMinMax
  else if s =? TAN then Fail ErrTan
  else if s =? SIGN then Fail ErrSign
  else if s =? EXIT then Ok m
  else Fail ErrUnknownInstruction.

(** [for (i = i0; i < i0 + n; i++)]. *)
Fixpoint run (n : nat) (i : Z) (m : machine) : result machine :=
  match n with
  | O => Ok m
  | S n' => m' <- step i m ;; run n' (i + 1) m'
  end.

End Builder.

(** The locals at their initial values (l.84-121), with the caller's
    instructions and the freshly allocated [exp]. *)
Definition initial (ins : list float) (ex : list (option expr)) : machine :=
  {| state := READ; args0 := EMPTY; args1 := EMPTY; instr := ins;
     varcnt := -1; expno := 0; vari := -1; savexp := 0;
     savexplst := replicate (Z.to_nat MAX_DEPTH) EMPTY; psavexplst := -1;
     savvarlst := replicate (Z.to_nat MAX_DEPTH) EMPTY; psavvarlst := -1;
     savprolst := replicate (Z.to_nat (2 * MAX_DEPTH)) EMPTY; psavprolst := -1;
     num := 0%float; exp := ex |}.

(** The constant short-circuit (l.203-210): returns [exp] and [no_instr]. *)
Definition constant_shortcut (ins : list float) (ex : list (option expr))
    (no_instr : Z) : result (list (option expr) * Z) :=
  if no_instr =? 2 then
    a <- arr_get ins 0 ;;
    if deq a NUM then
      c <- arr_get ins 1 ;;
      ex' <- arr_set ex 0 (Some (EValue c)) ;;
      Ok (ex', 0)
    else Ok (ex, no_instr)
  else Ok (ex, no_instr).

(** The single-variable short-circuit (l.213-220). *)
Definition variable_shortcut (expvars : list expr) (ins : list float)
    (ex : list (option expr)) (no_instr : Z) : result (list (option expr) * Z) :=
  if no_instr =? 2 then
    a <- arr_get ins 0 ;;
    if deq a VAR then
      v <- arr_get expvars 0 ;;
      ex' <- arr_set ex 0 (Some (ESum [(one, v)] 0%float)) ;;
      Ok (ex', 0)
    else Ok (ex, no_instr)
  else Ok (ex, no_instr).

(** The build phase of [addNonlinearCon] (l.111-822) for a problem with
    [nvars] variables: the machine when the main loop has ended. *)
Definition build (nvars : Z) (ins : list float) : result machine :=
  a <- prescan ins ;;
  let '(no_var, no_ops, varind) := a in
  expvars <- create_expvars nvars varind ;;
  let ex := replicate (Z.to_nat (Z.max no_ops 1)) None in
  b <- constant_shortcut ins ex (Z.of_nat (length ins)) ;;
  c <- variable_shortcut expvars ins (fst b) (snd b) ;;
  run expvars (snd c) (Z.to_nat (snd c)) 0 (initial ins (fst c)).

(** The root handed to the validator and to the constraint: [exp[expno]]
    (l.837, 848). *)
Definition compile (nvars : Z) (ins : list float) : result expr :=
  m <- build nvars ins ;;
  expression m (expno m).

(** ** The tree validator (l.830-840) *)

(** The functions of the C mathematics library behind the operators, which
    have no primitive counterpart on [float]. *)
Record libm : Type := Libm {
  pow_fn : float -> float -> float;
  exp_fn : float -> float;
  log_fn : float -> float;
  sin_fn : float -> float;
  cos_fn : float -> float
}.

Section Validator.

Variable L : libm.

(** The validation point [xval]: one value for each variable of the
    problem, in the order of [vars]. *)
Variable point : list float.

(** Modelled from the spec: the evaluation of the built tree is
    [SCIPevalExpr], a function of SCIP with no source under src/. The walk
    follows section 4.3 of the specification: a constant evaluates to its
    value, a variable to [point[index]], an operator to its numeric
    function applied to the values of its children; a sum is
    [constant + sum of coef * child], a product [coef * product of the
    children]; a division is a power with a negative exponent, and
    raising exactly zero to it is the evaluation-time [DivisionByZero]. *)
Fixpoint eval (e : expr) : result float :=
  match e with
  | EVar k => arr_get point k
  | EValue c => Ok c
  | ESum terms constant =>
      (fix sum (ts : list (float * expr)) (acc : float) : result float :=
         match ts with
         | [] => Ok acc
         | (a, t) :: rest => v <- eval t ;; sum rest (acc + a * v)%float
         end) terms constant
  | EProduct factors coef =>
      (fix prod (fs : list expr) (acc : float) : result float :=
         match fs with
         | [] => Ok acc
         | f :: rest => v <- eval f ;; prod rest (acc * v)%float
         end) factors coef
  | EPow base exponent =>
      v <- eval base ;;
      fail_if (PrimFloat.ltb exponent 0%float && PrimFloat.eqb v 0%float)
        ErrEvalDivisionByZero ;;;
      Ok (pow_fn L v exponent)
  | EExp a => v <- eval a ;; Ok (exp_fn L v)
  | ELog a => v <- eval a ;; Ok (log_fn L v)
  | EAbs a => v <- eval a ;; Ok (PrimFloat.abs v)
  | ESin a => v <- eval a ;; Ok (sin_fn L v)
  | ECos a => v <- eval a ;; Ok (cos_fn L v)
  end.

End Validator.

(** [fval] (l.103, 831-840): the value of the root at [xval] when a point
    is given, and 0 otherwise. *)
Definition validate (L : libm) (xval : option (list float)) (root : expr)
  : result float :=
  match xval with
  | Some point => eval L point root
  | None => Ok 0%float
  end.

(** ** The constraint (l.195-200, 842-859) *)

(** A nonlinear constraint [lhs <= root + coef * var <= rhs] as handed to
    [SCIPcreateConsBasicNonlinear] and [SCIPaddLinearVarNonlinear]; its name
    is "NonlinearObj" or "NonlinearExp" followed by [nlno]. *)
Record nonlinear_cons : Type := NonlinearCons {
  cons_isobj : bool;
  cons_nlno : Z;
  cons_root : expr;
  cons_lhs : float;
  cons_rhs : float;
  cons_linear : option (Z * float)
}.

(** What [addNonlinearCon] reads and changes of the SCIP problem: the
    number of variables and the nonlinear constraints added so far. *)
Record problem : Type := Problem {
  prob_nvars : Z;
  prob_conss : list nonlinear_cons
}.

(** The constraint is created from the root, and added (l.842-859). For
    an objective, the free variable [nlobj], added to the problem with
    objective coefficient 1 (l.196-200), enters the constraint with
    coefficient -1. *)
Definition emit (isObj : bool) (nlno : Z) (lhs rhs : float) (root : expr)
    (p : problem) : problem :=
  if isObj then
    {| prob_nvars := prob_nvars p + 1;
       prob_conss := prob_conss p
                     ++ [NonlinearCons true nlno root lhs rhs
                           (Some (prob_nvars p, (-1)%float))] |}
  else
    {| prob_nvars := prob_nvars p;
       prob_conss := prob_conss p ++ [NonlinearCons false nlno root lhs rhs None] |}.

(** [addNonlinearCon] (l.67-877): the problem with the new constraint, and
    the returned value [fval]. The root is evaluated before the constraint
    is created; every error is fatal and leaves no result. *)
Definition addNonlinearCon (L : libm) (p : problem) (ins : list float)
    (lhs rhs : float) (xval : option (list float)) (nlno : Z) (isObj : bool)
  : result (problem * float) :=
  root <- compile (prob_nvars p) ins ;;
  fval <- validate L xval root ;;
  Ok (emit isObj nlno lhs rhs root p, fval).

(** ** The caller (scipmex.cpp l.1322-1397) *)

(** What the caller keeps besides the problem: the test status [ts] and
    the warnings given to [mexWarnMsgTxt]. *)
Record session : Type := Session {
  sess_problem : problem;
  sess_ts : Z;
  sess_warnings : list (bool * Z * float)
}.

Section Caller.

Variable L : libm.

(** [SCIPisFeasPositive]: whether a value exceeds the feasibility tolerance
    of the SCIP instance. *)
Variable isFeasPositive : float -> bool.

(** One call of [addNonlinearCon] and the check of its value against the
    expected value [conval] (l.1330-1345, 1356-1371, 1384-1395): a
    difference above the tolerance gives a warning, with the index of the
    constraint and the difference, and sets [ts] to 0. *)
Definition add_and_check (s : session) (ins : list float) (lhs rhs : float)
    (xval : option (list float)) (conval : float) (nlno : Z) (isObj : bool)
  : result session :=
  r <- addNonlinearCon L (sess_problem s) ins lhs rhs xval nlno isObj ;;
  let '(p', cval) := r in
  match xval with
  | Some _ =>
      let err := PrimFloat.abs (cval - conval)%float in
      if isFeasPositive err then
        Ok {| sess_problem := p'; sess_ts := 0;
              sess_warnings := sess_warnings s ++ [(isObj, nlno, err)] |}
      else
        Ok {| sess_problem := p'; sess_ts := sess_ts s;
              sess_warnings := sess_warnings s |}
  | None =>
      Ok {| sess_problem := p'; sess_ts := sess_ts s;
            sess_warnings := sess_warnings s |}
  end.

End Caller.

(** A stream written with the enumerators. *)
Definition op (code : Z) : float := double_of_int code.


(** ** Streams of pairs, kinds of arguments and depth

    The notions in which the properties below are stated. *)

(** The main loop and both loops of the pre-scan read the stream two
    elements at a time: an opcode at the even positions and its slot at the
    odd ones, for operators as well. *)
Fixpoint flatten (ps : list (float * float)) : list float :=
  match ps with
  | [] => []
  | (o, a) :: rest => o :: a :: flatten rest
  end.

Fixpoint pairs (s : list float) : list (float * float) :=
  match s with
  | o :: a :: rest => (o, a) :: pairs rest
  | _ => []
  end.

Fixpoint count_vars (ps : list (float * float)) : nat :=
  match ps with
  | [] => O
  | (o, _) :: rest => if deq o VAR then S (count_vars rest) else count_vars rest
  end.

Fixpoint count_ops (ps : list (float * float)) : nat :=
  match ps with
  | [] => O
  | (o, _) :: rest => if dgt o EXP then S (count_ops rest) else count_ops rest
  end.

(** The casts of the slots that follow a VAR. *)
Fixpoint var_indices (ps : list (float * float)) : result (list Z) :=
  match ps with
  | [] => Ok []
  | (o, a) :: rest =>
      if deq o VAR then
        k <- cast_int a ;; ks <- var_indices rest ;; Ok (k :: ks)
      else var_indices rest
  end.



(** [n] times the instructions of [x * 2]: after the first product, every
    further block finds an expression and a variable in the registers when
    its NUM arrives, and saves the expression (l.243-257). *)
Definition deep_stream (n : nat) : list float :=
  concat (replicate n [op VAR; 0%float; op NUM; 2%float; op MUL; 0%float]).

(** The two lists stay inside their arrays. *)
Definition within_depth (m : machine) : Prop :=
  psavexplst m < MAX_DEPTH /\ Z.of_nat (length (savexplst m)) = MAX_DEPTH
  /\ psavvarlst m < MAX_DEPTH /\ Z.of_nat (length (savvarlst m)) = MAX_DEPTH.

Definition depth_error (e : mex_error) : bool :=
  match e with
  | ErrDepthExpList | ErrDepthVarList => true
  | _ => false
  end.

(** A result that is not one of the two depth messages, and that
    satisfies [P] when the run goes on. *)
Definition quiet {A : Type} (P : A -> Prop) (r : result A) : Prop :=
  match r with
  | Ok a => P a
  | Fail e => depth_error e = false
  end.

Definition harmless {A : Type} (r : result A) : Prop := quiet (fun _ => True) r.

(** A result that is not a message of [mexErrMsgTxt]: if the run stops, it
    stops on a cast or an array access without defined behaviour. *)
Definition undefined_only {A : Type} (r : result A) : Prop :=
  match r with
  | Ok _ => True
  | Fail e => e = UB_FloatToInt \/ e = UB_OutOfBounds
  end.

(** The machine after the first [n] iterations of the main loop, for the
    closed examples (the initial machine if an iteration fails). *)
Definition machine_after (expvars : list expr) (ins : list float)
    (ex : list (option expr)) (n : nat) : machine :=
  match run expvars (Z.of_nat (length ins)) n 0 (initial ins ex) with
  | Ok m => m
  | Fail _ => initial ins ex
  end.

(** [n] times the instructions of [x * x]: after the first product, the
    second VAR of every further block finds an expression and a variable in
    the registers, and saves the expression (l.284-297). *)
Definition deep_products (n : nat) : list float :=
  concat (replicate n [op VAR; 0%float; op VAR; 0%float; op MUL; 0%float]).

(** [n] variables in a row: from the third on, each one finds two
    variables in the registers and saves a variable (l.298-315). *)
Definition deep_variables (n : nat) : list float :=
  concat (replicate n [op VAR; 0%float]).

(** A C library for the closed examples: none of them reaches a call. *)
Definition libm_unused : libm :=
  Libm (fun a _ => a) (fun a => a) (fun a => a) (fun a => a) (fun a => a).

(** ** The process list and the two lists of saved operands

    The notions in which the agreement of the three lists is stated. *)

(** The entries of the process list in use: the positions 0 to
    [psavprolst]. *)
Definition pending (m : machine) : list Z :=
  take (Z.to_nat (psavprolst m + 1)) (savprolst m).

(** The entries of the list of saved expressions in use. *)
Definition saved_expressions (m : machine) : list Z :=
  take (Z.to_nat (psavexplst m + 1)) (savexplst m).

Definition occurrences (k : Z) (l : list Z) : Z :=
  Z.of_nat (count_occ Z.eq_dec l k).

(** Every entry in use is VAR or EXP, and the process list holds as many
    of each as the list of saved variables and the list of saved
    expressions have entries in use. *)
Definition lists_agree (m : machine) : Prop :=
  -1 <= psavprolst m < Z.of_nat (length (savprolst m))
  /\ Forall (fun k => k = VAR \/ k = EXP) (pending m)
  /\ occurrences VAR (pending m) = psavvarlst m + 1
  /\ occurrences EXP (pending m) = psavexplst m + 1.

(** The counters and the saved expressions: a variable in a register or
    in the list of saved variables has been counted, and every saved
    expression is a slot of [exp]. *)
Definition registers_agree (m : machine) : Prop :=
  -1 <= varcnt m
  /\ (args0 m = VAR \/ args1 m = VAR \/ 0 <= psavvarlst m -> 0 <= varcnt m)
  /\ 0 <= expno m
  /\ Forall (fun k => 0 <= k) (saved_expressions m).

(** What holds between two iterations of the main loop: the second
    register never holds EXP, and an expression in the first register has
    a slot below [expno]. *)
Definition consistent (m : machine) : Prop :=
  lists_agree m /\ args1 m <> EXP /\ registers_agree m
  /\ (state m <> EXIT -> args0 m = EXP -> 1 <= expno m).

(** What holds when an operator case has stored its node, before [expno]
    moves on. *)
Definition stored (m : machine) : Prop :=
  lists_agree m /\ args1 m <> EXP /\ registers_agree m.

(** Six messages of the main loop: the three that guard the process list
    (l.338, 355, 362), the empty saved expression (l.602), the negative
    variable index of a function (l.724) and the default labels of the
    switches on a binary operator (l.399, 434, 474, 527, 588). *)
Definition dead_message (e : mex_error) : bool :=
  match e with
  | ErrNoWaitingVar | ErrNoWaitingExp | ErrUnknownProcess
  | ErrWaitingExpEmpty | ErrNegativeVarIndex | ErrOpNotImplemented => true
  | _ => false
  end.

(** A result that is none of the errors [bad], and that satisfies [P] when
    the run goes on. *)
Definition avoids {A : Type} (bad : mex_error -> bool) (P : A -> Prop)
    (r : result A) : Prop :=
  match r with
  | Ok a => P a
  | Fail e => bad e = false
  end.

(** ** The slots of [exp] and the operators

    The notions in which the properties of the root are stated. *)

(** No slot of [exp] from the current one on has been written. *)
Definition unwritten_from (m : machine) : Prop :=
  forall (k : Z) (e : expr), expno m <= k -> arr_get (exp m) k <> Ok (Some e).

(** The opcodes whose case of the switch can end without a message: NUM,
    VAR, the five binary operators and the unary functions with a label in
    the inner switches (l.726-754, 761-789). *)
Definition opcode_ok (k : Z) : bool :=
  (k =? NUM) || (k =? VAR) || is_binary k || (is_unary k && negb (k =? SQUARE)).

Definition is_operator (k : Z) : bool := is_binary k || is_unary k.

(** A stream written as a list of (opcode, slot) pairs, the opcodes given
    by their enumerators. *)
Definition encode (cs : list (Z * float)) : list float :=
  flatten (map (fun c => (op (fst c), snd c)) cs).

(** The opcode of the last pair. *)
Definition last_code (cs : list (Z * float)) : Z := fst (List.last cs (EXIT, 0%float)).

(** ** The variant for SCIP before version 8: the variables of the tree
    (scipnlmex.cpp l.976-1019, 1047, 1662-1688)

    The older variant of [addNonlinearCon] has the same two pre-scan loops.
    It then collects the distinct indices of [varind] in [unqind], gives
    every occurrence of a variable its position in [unqind] (the index of
    its expression, [expind]), hands the variables [vars[unqind[j]]] to the
    tree, and evaluates the tree at the local point
    [lxval[j] = xval[unqind[j]]]. *)

(** The inner loops (l.990-997, 1010-1017): the first [j] below [no_unq],
    from [j] on, with [unqind[j] == varind[i]]. *)
Fixpoint find_unique (unqind varind : list Z) (i : Z) (n : nat) (j : Z)
  : result (option Z) :=
  match n with
  | O => Ok None
  | S n' =>
      u <- arr_get unqind j ;;
      v <- arr_get varind i ;;
      if u =? v then Ok (Some j) else find_unique unqind varind i n' (j + 1)
  end.

(** One iteration of the loop that fills [unqind] (l.980-1002), on
    [unqind] and [no_unq]. *)
Definition unique_step (varind : list Z) (i : Z) (s : list Z * Z)
  : result (list Z * Z) :=
  let '(unqind, no_unq) := s in
  if no_unq =? 0 then
    v <- arr_get varind i ;;
    unqind' <- arr_set unqind i v ;;
    Ok (unqind', no_unq + 1)
  else
    r <- find_unique unqind varind i (Z.to_nat no_unq) 0 ;;
    match r with
    | Some _ => Ok (unqind, no_unq)
    | None =>
        v <- arr_get varind i ;;
        unqind' <- arr_set unqind no_unq v ;;
        Ok (unqind', no_unq + 1)
    end.

Fixpoint unique_loop (varind : list Z) (n : nat) (i : Z) (s : list Z * Z)
  : result (list Z * Z) :=
  match n with
  | O => Ok s
  | S n' => s' <- unique_step varind i s ;; unique_loop varind n' (i + 1) s'
  end.

(** One iteration of the loop that fills [expind] (l.1008-1018). *)
Definition expind_step (varind unqind : list Z) (no_unq : Z) (i : Z)
    (expind : list Z) : result (list Z) :=
  r <- find_unique unqind varind i (Z.to_nat no_unq) 0 ;;
  match r with
  | Some j => arr_set expind i j
  | None => Ok expind
  end.

Fixpoint expind_loop (varind unqind : list Z) (no_unq : Z) (n : nat) (i : Z)
    (expind : list Z) : result (list Z) :=
  match n with
  | O => Ok expind
  | S n' =>
      expind' <- expind_step varind unqind no_unq i expind ;;
      expind_loop varind unqind no_unq n' (i + 1) expind'
  end.

(** [unqind], [no_unq] and [expind] for the [no_var] entries of [varind];
    both arrays come from [mxCalloc] with [no_var] entries. *)
Definition unique_variables (no_var : Z) (varind : list Z)
  : result (list Z * Z * list Z) :=
  s <- unique_loop varind (Z.to_nat no_var) 0 (replicate (Z.to_nat no_var) 0, 0) ;;
  let '(unqind, no_unq) := s in
  expind <- expind_loop varind unqind no_unq (Z.to_nat no_var) 0
              (replicate (Z.to_nat no_var) 0) ;;
  Ok (unqind, no_unq, expind).

(** The local point (l.1676-1684): [lxval[i] = xval[unqind[i]]] for the
    [no_unq] first entries of an array of [no_var] zeros. *)
Fixpoint local_point_loop (xval : list float) (unqind : list Z) (n : nat) (i : Z)
    (lxval : list float) : result (list float) :=
  match n with
  | O => Ok lxval
  | S n' =>
      k <- arr_get unqind i ;;
      x <- arr_get xval k ;;
      lxval' <- arr_set lxval i x ;;
      local_point_loop xval unqind n' (i + 1) lxval'
  end.

Definition local_point (xval : list float) (unqind : list Z) (no_unq no_var : Z)
  : result (list float) :=
  local_point_loop xval unqind (Z.to_nat no_unq) 0
    (replicate (Z.to_nat no_var) 0%float).

(** What the loop that fills [unqind] keeps after [i] iterations: [unqind] has its [no_unq] first
    entries distinct, and they are the values met so far. *)
Definition unique_upto (varind : list Z) (i : nat) (s : list Z * Z) : Prop :=
  let '(unqind, no_unq) := s in
  length unqind = length varind
  /\ 0 <= no_unq <= Z.of_nat i
  /\ (no_unq = 0 -> i = 0%nat)
  /\ NoDup (take (Z.to_nat no_unq) unqind)
  /\ forall v, (exists j, (j < Z.to_nat no_unq)%nat /\ unqind !! j = Some v)
               <-> (exists k, (k < i)%nat /\ varind !! k = Some v).

(** What the loop that fills [expind] keeps after [i] iterations: every
    occurrence met so far has the position of its value in [unqind]. *)
Definition expind_upto (varind unqind : list Z) (no_unq : Z) (i : nat)
    (expind : list Z) : Prop :=
  length expind = length varind
  /\ forall i' v, (i' < i)%nat -> varind !! i' = Some v ->
       exists k, expind !! i' = Some (Z.of_nat k)
                 /\ (k < Z.to_nat no_unq)%nat /\ unqind !! k = Some v.

(** ** The nonlinear section of the caller (scipmex.cpp l.251-282,
    1268-1397)

    The NL argument is a MATLAB structure. A field is [None] when
    [mxGetField] returns NULL for it; a structure that comes from MATLAB
    holds a value for every field it has, so [mxGetFieldNumber] is negative
    for the same fields. Each cell of [instr] has an array of its own. *)

(** The field [instr]: one array of instructions, or a cell array of
    them (l.1319, 1349). *)
Inductive nl_instructions : Type :=
  | OneConstraint (ins : list float)
  | CellOfConstraints (cells : list (list float)).

Record nl_struct : Type := NLStruct {
  nl_instr : option nl_instructions;
  nl_cl : option (list float);
  nl_cu : option (list float);
  nl_obj_instr : option (list float);
  nl_nlcon_val : option (list float);
  nl_obj_val : option (list float);
  nl_xval : option (list float)
}.

(** The checks of [checkInputs] on a structure that is not empty
    (l.256-281): the message given to [mexErrMsgTxt], if any. *)
Definition check_nl (nl : nl_struct) : option string :=
  match nl_instr nl with
  | None =>
      match nl_obj_instr nl with
      | None => Some "The NL structure should contain the field 'instr' or 'obj_instr'."%string
      | Some _ => None
      end
  | Some f =>
      match nl_cl nl, nl_cu nl with
      | None, _ =>
          Some "The NL structure should contain the field 'cl' when specifying nonlinear constraints."%string
      | Some _, None =>
          Some "The NL structure should contain the field 'cu' when specifying nonlinear constraints."%string
      | Some cl, Some cu =>
          if negb (length cl =? length cu)%nat then
            Some "The number of elements in cl and cu is not the same."%string
          else
            match f with
            | CellOfConstraints cells =>
                if negb (length cells =? length cl)%nat then
                  Some "The number of constraints specified by cell array nl.instr does not match the length of vectors cl & cu."%string
                else None
            | OneConstraint _ =>
                if negb (length cl =? 1)%nat then
                  Some "When nl.instr is not a cell (single constraint), cl and cu are expected to be scalars."%string
                else None
            end
      end
  end.

(** [conval[i]] and [*objval] (l.1335, 1361, 1389): the pointer is set only
    when the field exists (l.1281-1283, 1291-1293), and is not initialised
    otherwise. *)
Definition read_expected (vals : option (list float)) (i : Z) : result float :=
  match vals with
  | Some v => arr_get v i
  | None => Fail UB_Uninitialised
  end.

(** The streams of the constraints, in the order of their calls. *)
Definition constraint_streams (nl : nl_struct) : list (list float) :=
  match nl_instr nl with
  | None => []
  | Some (OneConstraint ins) => [ins]
  | Some (CellOfConstraints cells) => cells
  end.

(** [xval] (l.1277, 1286-1287, 1296-1297): the field [xval], if there are
    expected values for the constraints or for the objective. *)
Definition validation_point (nl : nl_struct) : option (list float) :=
  match nl_nlcon_val nl, nl_obj_val nl with
  | None, None => None
  | _, _ => nl_xval nl
  end.

Section NonlinearSection.

Variable L : libm.
Variable isFeasPositive : float -> bool.

(** [SCIPinfinity(scip)]. *)
Variable scip_infinity : float.

(** The copies of the bounds are made finite (l.1310-1316); [mxIsInf] holds
    for both infinities. *)
Fixpoint clamp_bounds (n : nat) (i : Z) (b : list float * list float)
  : result (list float * list float) :=
  match n with
  | O => Ok b
  | S n' =>
      let '(cl, cu) := b in
      lo <- arr_get cl i ;;
      cl' <- (if PrimFloat.is_infinity lo then arr_set cl i (- scip_infinity)%float
              else Ok cl) ;;
      hi <- arr_get cu i ;;
      cu' <- (if PrimFloat.is_infinity hi then arr_set cu i scip_infinity
              else Ok cu) ;;
      clamp_bounds n' (i + 1) (cl', cu')
  end.

(** One call of [addNonlinearCon] and the check of its value (l.1330-1345,
    1356-1371, 1384-1395); the expected value is read after the call, and
    only if there is a validation point. *)
Definition call_and_check (s : session) (ins : list float) (lhs rhs : float)
    (xval : option (list float)) (expected : result float) (nlno : Z)
    (isObj : bool) : result session :=
  r <- addNonlinearCon L (sess_problem s) ins lhs rhs xval nlno isObj ;;
  let '(p', cval) := r in
  match xval with
  | Some _ =>
      conval <- expected ;;
      let err := PrimFloat.abs (cval - conval)%float in
      if isFeasPositive err then
        Ok {| sess_problem := p'; sess_ts := 0;
              sess_warnings := sess_warnings s ++ [(isObj, nlno, err)] |}
      else
        Ok {| sess_problem := p'; sess_ts := sess_ts s;
              sess_warnings := sess_warnings s |}
  | None =>
      Ok {| sess_problem := p'; sess_ts := sess_ts s;
            sess_warnings := sess_warnings s |}
  end.

(** The loop over the cells (l.1322-1346). *)
Fixpoint add_cells (cells : list (list float)) (i : Z) (cl cu : list float)
    (xval conval : option (list float)) (s : session) : result session :=
  match cells with
  | [] => Ok s
  | ins :: rest =>
      lo <- arr_get cl i ;;
      hi <- arr_get cu i ;;
      s' <- call_and_check s ins lo hi xval (read_expected conval i) i false ;;
      add_cells rest (i + 1) cl cu xval conval s'
  end.

(** The constraints (l.1300-1375), for a structure that passed
    [checkInputs]: without [cl] or [cu] the copy of the bounds has no
    defined result. *)
Definition add_constraints (s : session) (nl : nl_struct) : result session :=
  match nl_instr nl with
  | None => Ok s
  | Some f =>
      match nl_cl nl, nl_cu nl with
      | Some cl0, Some cu0 =>
          b <- clamp_bounds (length cl0) 0 (cl0, cu0) ;;
          let '(cl, cu) := b in
          match f with
          | CellOfConstraints cells =>
              add_cells cells 0 cl cu (validation_point nl) (nl_nlcon_val nl) s
          | OneConstraint ins =>
              lo <- arr_get cl 0 ;;
              hi <- arr_get cu 0 ;;
              call_and_check s ins lo hi (validation_point nl)
                (read_expected (nl_nlcon_val nl) 0) 0 false
          end
      | _, _ => Fail UB_Uninitialised
      end
  end.

(** The objective (l.1378-1396): the constraint [obj(x) - nlobj = 0]. *)
Definition add_objective (s : session) (nl : nl_struct) : result session :=
  match nl_obj_instr nl with
  | None => Ok s
  | Some ins =>
      call_and_check s ins 0%float 0%float (validation_point nl)
        (read_expected (nl_obj_val nl) 0) 0 true
  end.

(** The section (l.1268-1397). *)
Definition nonlinear_section (s : session) (nl : nl_struct) : result session :=
  s1 <- add_constraints s nl ;;
  add_objective s1 nl.

End NonlinearSection.

(** ** The debug trace (scipnlmex.cpp l.38-56, 226-228, 823-825)

    In a build with DEBUG, the main loop prints its state before every
    iteration and once after the last one. *)

(** The table of names (l.49). *)
Definition strs : list string :=
  ["EXIT"%string; "EMPTY"%string; "READ"%string; "NUM"%string; "VAR"%string;
   "EXPRSN"%string; "MUL"%string; "DIV"%string; "ADD"%string; "SUB"%string;
   "SQUARE"%string; "SQRT"%string; "POWER"%string; "EXPNT"%string; "LOG"%string;
   "SIN"%string; "COS"%string; "TAN"%string].

(** [debugPrintState] (l.38-56): the names printed for the state and for
    the two registers. *)
Definition debugPrintState (state a0 a1 : Z) : result (string * string * string) :=
  let state := if state =? 99 then -3 else state in
  s <- arr_get strs (state + 3) ;;
  x <- arr_get strs (a0 + 3) ;;
  y <- arr_get strs (a1 + 3) ;;
  Ok (s, x, y).

(** ** The array of instructions after the build phase

    The notions in which the second build of an array is stated. *)

(** A result with the array of instructions replaced. *)
Definition with_instr (F : list float) (r : result machine) : result machine :=
  match r with
  | Ok m => Ok (set_instr F m)
  | Fail e => Fail e
  end.

(** * Properties *)

(** ** Results of the build phase *)

Lemma bind_inv {A B : Type} (c : result A) (k : A -> result B) (b : B) :
  bind c k = Ok b -> exists a, c = Ok a /\ k a = Ok b.
Proof. destruct c as [a | e]; cbn; [eauto | discriminate]. Qed.

Lemma cast_int_some (x : float) (z : Z) :
  double_to_int x = Some z -> cast_int x = Ok z.
Proof. unfold cast_int. intros ->. reflexivity. Qed.

(** A failed compilation stops [addNonlinearCon] before the validator
    and before the constraint is created. *)
Lemma addNonlinearCon_compile_fail (L : libm) (p : problem) (ins : list float)
    (lhs rhs : float) (xval : option (list float)) (nlno : Z) (isObj : bool)
    (e : mex_error) :
  compile (prob_nvars p) ins = Fail e ->
  addNonlinearCon L p ins lhs rhs xval nlno isObj = Fail e.
Proof. unfold addNonlinearCon. intros ->. reflexivity. Qed.

Lemma build_fail_addNonlinearCon (L : libm) (p : problem) (ins : list float)
    (lhs rhs : float) (xval : option (list float)) (nlno : Z) (isObj : bool)
    (e : mex_error) :
  build (prob_nvars p) ins = Fail e ->
  addNonlinearCon L p ins lhs rhs xval nlno isObj = Fail e.
Proof.
  intros H. apply addNonlinearCon_compile_fail. unfold compile. rewrite H. reflexivity.
Qed.

(** ** Two expressions of the test list

    [x0 + 3] at [x0 = 2] and [x0 * x1] at [(3, 4)], in the layout the loop
    reads. *)

Example x0_plus_3 (L : libm) (lhs rhs : float) :
  addNonlinearCon L (Problem 1 [])
    [op VAR; 0%float; op NUM; 3%float; op ADD; 0%float] lhs rhs (Some [2%float]) 0 false
  = Ok (Problem 1 [NonlinearCons false 0 (ESum [(one, EVar 0)] 3%float) lhs rhs None],
        5%float).
Proof. reflexivity. Qed.

Example x0_times_x1 (L : libm) (lhs rhs : float) :
  addNonlinearCon L (Problem 2 [])
    [op VAR; 0%float; op VAR; 1%float; op MUL; 0%float] lhs rhs
    (Some [3%float; 4%float]) 0 false
  = Ok (Problem 2 [NonlinearCons false 0 (EProduct [EVar 0; EVar 1] 1%float) lhs rhs None],
        12%float).
Proof. reflexivity. Qed.

(** An expression that waits: [x0 * x1 - x2 * x1]. *)
Example waiting_expression :
  compile 3 [op VAR; 0%float; op VAR; 1%float; op MUL; 0%float;
             op VAR; 2%float; op VAR; 1%float; op MUL; 0%float; op SUB; 0%float]
  = Ok (ESum [(1%float, EProduct [EVar 0; EVar 1] 1%float);
              ((-1)%float, EProduct [EVar 2; EVar 1] 1%float)] 0%float).
Proof. reflexivity. Qed.

(** A variable divisor is accepted by the build phase; the validator
    stops at a point where it is zero. *)
Example one_over_x0_at_zero (L : libm) (lhs rhs : float) :
  compile 1 [op NUM; 1%float; op VAR; 0%float; op DIV; 0%float]
    = Ok (ESum [(1%float, EPow (EVar 0) (-1)%float)] 0%float)
  /\ addNonlinearCon L (Problem 1 [])
       [op NUM; 1%float; op VAR; 0%float; op DIV; 0%float] lhs rhs
       (Some [0%float]) 0 false
     = Fail ErrEvalDivisionByZero.
Proof. split; reflexivity. Qed.

(** ** Binary64 facts used by the validator *)

Lemma shr_shift52 (m : positive) :
  SpecFloat.iter_pos shr_1 52
    (shr_record_of_loc (Z.pos (4503599627370496 * m)) loc_Exact)
  = {| shr_m := Z.pos m; shr_r := false; shr_s := false |}.
Proof. reflexivity. Qed.

Lemma digits2_shift52 (m : positive) :
  Z.pos (digits2_pos (4503599627370496 * m)) = Z.pos (digits2_pos m) + 52.
Proof. cbv [Pos.mul]. cbn [digits2_pos]. lia. Qed.

(** Rounding the exact product of 1 = 2^52 * 2^-52 and a representable
    number gives the number back. *)
Lemma round_times_one (s : bool) (m : positive) (e : Z) :
  bounded prec emax m e = true ->
  binary_round_aux prec emax s (Z.pos (4503599627370496 * m)) (-52 + e) loc_Exact
  = S754_finite s m e.
Proof.
  unfold bounded, canonical_mantissa. intros Hb.
  apply andb_true_iff in Hb as [Hc He].
  apply Z.eqb_eq in Hc.
  assert (Hsh : fexp prec emax
                  (Zdigits2 (Z.pos (4503599627370496 * m)) + (-52 + e))
                - (-52 + e) = 52).
  { unfold Zdigits2. rewrite digits2_shift52.
    replace (Z.pos (digits2_pos m) + 52 + (-52 + e))
      with (Z.pos (digits2_pos m) + e) by lia.
    rewrite Hc. lia. }
  unfold binary_round_aux, shr_fexp. rewrite Hsh.
  cbv [shr]. rewrite shr_shift52.
  cbn [shr_m loc_of_shr_record round_nearest_even shr_r shr_s].
  replace (-52 + e + 52) with e by lia.
  cbn [Zdigits2]. rewrite Hc, Z.sub_diag. cbn [shr_m shr_record_of_loc].
  rewrite He. reflexivity.
Qed.

Lemma SF64mul_one_l (y : spec_float) :
  valid_binary y = true -> SF64mul (Prim2SF 1) y = y.
Proof.
  intros Hv. change (Prim2SF 1) with (S754_finite false 4503599627370496 (-52)).
  destruct y as [s | s | | s m e]; try reflexivity.
  unfold SF64mul, SFmul. cbn [xorb].
  apply round_times_one, Hv.
Qed.

(** The value of a sum with bias 0 and one term of coefficient 1: the
    value of the term, except that the sum of +0 and -0 is +0. *)
Lemma sum_of_one_term (x : float) :
  (0 + 1 * x = x)%float \/ (x = (-0)%float /\ (0 + 1 * x = 0)%float).
Proof.
  pose proof (Prim2SF_valid x) as Hv.
  assert (Hm : Prim2SF (1 * x) = Prim2SF x).
  { rewrite mul_spec. apply SF64mul_one_l, Hv. }
  assert (Ha : Prim2SF (0 + 1 * x) = SF64add (S754_zero false) (Prim2SF x)).
  { rewrite add_spec, Hm. reflexivity. }
  destruct (Prim2SF x) as [[|] | s | | s m e] eqn:Hx.
  - right. split.
    + rewrite <- (SF2Prim_Prim2SF x), Hx. reflexivity.
    + rewrite <- (SF2Prim_Prim2SF (0 + 1 * x)), Ha. reflexivity.
  - left. apply Prim2SF_inj. rewrite Ha, Hx. reflexivity.
  - left. apply Prim2SF_inj. rewrite Ha, Hx. reflexivity.
  - left. apply Prim2SF_inj. rewrite Ha, Hx. reflexivity.
  - left. apply Prim2SF_inj. rewrite Ha, Hx. reflexivity.
Qed.

(** In the comparison [==] of C the two agree whenever [x] is a number. *)
Lemma sum_of_one_term_eqb (x : float) :
  PrimFloat.is_nan x = false -> PrimFloat.eqb (0 + 1 * x) x = true.
Proof.
  intros Hn. destruct (sum_of_one_term x) as [-> | [-> ->]].
  - unfold is_nan in Hn. apply negb_false_iff in Hn. exact Hn.
  - reflexivity.
Qed.

(** ** The two-token streams *)

(** C5: for every constant [c] the stream [NUM, c] takes the constant
    short-circuit: the main loop does not run (the machine is still the
    initial one), the root is the single node [EValue c], the validator
    gives exactly [c] at every point, and the constraint is made of that
    node. *)
Theorem C5_constant_stream
    (L : libm) (p : problem) (c : float) (point : list float)
    (lhs rhs : float) (nlno : Z) (isObj : bool) :
  build (prob_nvars p) [op NUM; c] = Ok (initial [op NUM; c] [Some (EValue c)])
  /\ compile (prob_nvars p) [op NUM; c] = Ok (EValue c)
  /\ eval L point (EValue c) = Ok c
  /\ addNonlinearCon L p [op NUM; c] lhs rhs (Some point) nlno isObj
     = Ok (emit isObj nlno lhs rhs (EValue c) p, c).
Proof. repeat split; reflexivity. Qed.

Lemma index_VAR_slot (t : float) (i : Z) (j : Z) (varind varind' : list Z) :
  double_to_int t = Some i ->
  arr_set varind j i = Ok varind' ->
  index_step (Ok (VAR, j, varind)) t = Ok (READ, j + 1, varind').
Proof.
  intros Ht Hs. unfold index_step. cbn [bind].
  change (VAR =? READ) with false. change (VAR =? VAR) with true. cbn iota.
  rewrite (cast_int_some _ _ Ht). cbn [bind]. rewrite Hs. reflexivity.
Qed.

Lemma create_expvars_one (nvars i : Z) :
  0 <= i < nvars -> create_expvars nvars [i] = Ok [EVar i].
Proof.
  intros Hi. cbn [create_expvars].
  replace ((0 <=? i) && (i <? nvars)) with true; [reflexivity |].
  symmetry. apply andb_true_iff. split; [apply Z.leb_le | apply Z.ltb_lt]; lia.
Qed.

Lemma build_variable_stream (nvars : Z) (t : float) (i : Z) :
  double_to_int t = Some i -> 0 <= i < nvars ->
  build nvars [op VAR; t]
  = Ok (initial [op VAR; t] [Some (ESum [(one, EVar i)] 0%float)]).
Proof.
  intros Ht Hi. unfold build, prescan.
  change (count_instr [op VAR; t]) with (READ, 1, 0).
  unfold index_instr. cbn [fold_left].
  change (index_step (Ok (READ, 0, replicate (Z.to_nat 1) 0)) (op VAR))
    with (Ok (VAR, 0, [0]) : result (Z * Z * list Z)).
  rewrite (index_VAR_slot t i 0 [0] [i] Ht eq_refl).
  cbn [bind]. rewrite (create_expvars_one nvars i Hi).
  reflexivity.
Qed.

(** C6: for every token [t] that denotes a valid variable index [i] (the
    cast [(int)t] is [i], with [0 <= i < nvars]) and every point, the stream
    [VAR, t] takes the single-variable short-circuit: the main loop does not
    run, the root is a sum of one term with coefficient 1 and bias 0 over
    the variable of external index [i], and its value [0 + 1 * point[i]]
    is [point[i]]: identical to it, except that for [point[i] = -0] the sum
    is [+0]; in both cases the two are equal numbers. *)
Theorem C6_variable_stream
    (L : libm) (p : problem) (t : float) (i : Z) (point : list float) (x : float)
    (lhs rhs : float) (nlno : Z) (isObj : bool) :
  double_to_int t = Some i ->
  0 <= i < prob_nvars p ->
  arr_get point i = Ok x ->
  build (prob_nvars p) [op VAR; t]
    = Ok (initial [op VAR; t] [Some (ESum [(one, EVar i)] 0%float)])
  /\ compile (prob_nvars p) [op VAR; t] = Ok (ESum [(one, EVar i)] 0%float)
  /\ exists r : float,
       addNonlinearCon L p [op VAR; t] lhs rhs (Some point) nlno isObj
         = Ok (emit isObj nlno lhs rhs (ESum [(one, EVar i)] 0%float) p, r)
       /\ (r = x \/ (x = (-0)%float /\ r = 0%float))
       /\ (PrimFloat.is_nan x = false -> PrimFloat.eqb r x = true).
Proof.
  intros Ht Hi Hx.
  pose proof (build_variable_stream (prob_nvars p) t i Ht Hi) as Hb.
  assert (Hc : compile (prob_nvars p) [op VAR; t] = Ok (ESum [(one, EVar i)] 0%float)).
  { unfold compile. rewrite Hb. reflexivity. }
  split; [exact Hb |]. split; [exact Hc |].
  exists (0 + 1 * x)%float. split; [| split].
  - unfold addNonlinearCon. rewrite Hc. cbn [bind validate eval]. rewrite Hx. reflexivity.
  - apply sum_of_one_term.
  - apply sum_of_one_term_eqb.
Qed.

Lemma C6_variable_stream_witness :
  let p := Problem 3 [] in
  let point := [2%float; 7%float; 9%float] in
  (double_to_int 1%float = Some 1 /\ 0 <= 1 < prob_nvars p
   /\ arr_get point 1 = Ok 7%float)
  /\ compile (prob_nvars p) [op VAR; 1%float] = Ok (ESum [(one, EVar 1)] 0%float)
  /\ exists r : float,
       addNonlinearCon libm_unused p [op VAR; 1%float] 0%float 1%float (Some point) 0 false
         = Ok (emit false 0 0%float 1%float (ESum [(one, EVar 1)] 0%float) p, r)
       /\ (r = 7%float \/ (7%float = (-0)%float /\ r = 0%float))
       /\ (PrimFloat.is_nan 7%float = false -> PrimFloat.eqb r 7%float = true).
Proof.
  intros p point.
  assert (Ht : double_to_int 1%float = Some 1) by reflexivity.
  assert (Hi : 0 <= 1 < prob_nvars p) by (cbn; lia).
  assert (Hx : arr_get point 1 = Ok 7%float) by reflexivity.
  destruct (C6_variable_stream libm_unused p 1%float 1 point 7%float 0%float 1%float
              0 false Ht Hi Hx) as (_ & Hc & Hr).
  split; [split; [exact Ht | split; [exact Hi | exact Hx]] |].
  split; [exact Hc | exact Hr].
Defined.

(** ** The pre-scan on streams of (opcode, slot) pairs *)

Lemma flatten_pairs (s : list float) :
  Nat.even (length s) = true -> flatten (pairs s) = s.
Proof.
  revert s. fix IH 1. intros [| o [| a rest]] H.
  - reflexivity.
  - discriminate H.
  - cbn [pairs flatten]. f_equal. f_equal. apply IH. exact H.
Qed.

Lemma count_step_READ (nv no : Z) (x : float) :
  count_step (READ, nv, no) x
  = (OTHER, if deq x VAR then nv + 1 else nv, if dgt x EXP then no + 1 else no).
Proof. reflexivity. Qed.

Lemma count_step_OTHER (nv no : Z) (x : float) :
  count_step (OTHER, nv, no) x = (READ, nv, no).
Proof. reflexivity. Qed.

Lemma index_step_READ (j : Z) (varind : list Z) (x : float) :
  index_step (Ok (READ, j, varind)) x
  = Ok (if deq x VAR then VAR else OTHER, j, varind).
Proof. reflexivity. Qed.

Lemma index_step_VAR (j : Z) (varind : list Z) (x : float) :
  index_step (Ok (VAR, j, varind)) x
  = (k <- cast_int x ;; varind' <- arr_set varind j k ;; Ok (READ, j + 1, varind')).
Proof. reflexivity. Qed.

Lemma index_step_OTHER (j : Z) (varind : list Z) (x : float) :
  index_step (Ok (OTHER, j, varind)) x = Ok (READ, j, varind).
Proof. reflexivity. Qed.

Lemma count_step_pairs (ps : list (float * float)) (nv no : Z) :
  fold_left count_step (flatten ps) (READ, nv, no)
  = (READ, nv + Z.of_nat (count_vars ps), no + Z.of_nat (count_ops ps)).
Proof.
  revert nv no. induction ps as [| [o a] rest IH]; intros nv no.
  - cbn. rewrite !Z.add_0_r. reflexivity.
  - cbn [flatten fold_left count_vars count_ops].
    rewrite count_step_READ, count_step_OTHER, IH.
    destruct (deq o VAR), (dgt o EXP);
      repeat match goal with |- (_, _) = (_, _) => f_equal end; lia.
Qed.

Lemma index_step_fail (s : list float) (e : mex_error) :
  fold_left index_step s (Fail e) = Fail e.
Proof. induction s as [| x s IH]; [reflexivity | exact IH]. Qed.

Lemma arr_set_middle {A : Type} (pre post : list A) (old x : A) :
  arr_set (pre ++ old :: post) (Z.of_nat (length pre)) x = Ok (pre ++ x :: post).
Proof.
  unfold arr_set. rewrite length_app. cbn [length].
  replace ((0 <=? Z.of_nat (length pre))
           && (Z.of_nat (length pre) <? Z.of_nat (length pre + S (length post))))
    with true.
  - rewrite Nat2Z.id. f_equal.
    rewrite insert_app_r_alt by lia. rewrite Nat.sub_diag. reflexivity.
  - symmetry. apply andb_true_iff. split; [apply Z.leb_le | apply Z.ltb_lt]; lia.
Qed.

(** The second loop fills the first free entries of [varind] with the
    casts, in order, and leaves the rest of the array as it was. *)
Lemma index_step_pairs (ps : list (float * float)) (pre post : list Z) :
  fold_left index_step (flatten ps)
    (Ok (READ, Z.of_nat (length pre), pre ++ replicate (count_vars ps) 0 ++ post))
  = (ks <- var_indices ps ;;
     Ok (READ, Z.of_nat (length pre) + Z.of_nat (length ks), pre ++ ks ++ post)).
Proof.
  revert pre. induction ps as [| [o a] rest IH]; intros pre.
  - cbn. rewrite Z.add_0_r. reflexivity.
  - cbn [flatten fold_left count_vars var_indices].
    rewrite index_step_READ.
    destruct (deq o VAR).
    + rewrite index_step_VAR.
      destruct (cast_int a) as [k | e]; cbn [bind].
      * cbn [replicate app]. rewrite arr_set_middle. cbn [bind].
        replace (pre ++ k :: replicate (count_vars rest) 0 ++ post)
          with ((pre ++ [k]) ++ replicate (count_vars rest) 0 ++ post)
          by (rewrite <- app_assoc; reflexivity).
        replace (Z.of_nat (length pre) + 1) with (Z.of_nat (length (pre ++ [k])))
          by (rewrite length_app; cbn [length]; lia).
        rewrite IH. destruct (var_indices rest) as [ks | e]; cbn [bind]; [| reflexivity].
        rewrite <- app_assoc. cbn [app length]. rewrite length_app. cbn [length].
        do 2 f_equal. f_equal. lia.
      * apply index_step_fail.
    + rewrite index_step_OTHER. apply IH.
Qed.

(** The pre-scan of a stream of complete pairs. *)
Lemma prescan_pairs (ps : list (float * float)) :
  prescan (flatten ps)
  = (ks <- var_indices ps ;;
     Ok (Z.of_nat (count_vars ps), Z.of_nat (count_ops ps), ks)).
Proof.
  unfold prescan, count_instr, index_instr. rewrite count_step_pairs.
  rewrite !Z.add_0_l, Nat2Z.id.
  pose proof (index_step_pairs ps [] []) as H.
  change (Z.of_nat (length (@nil Z))) with 0 in H. cbn [app] in H.
  rewrite app_nil_r in H. rewrite H.
  destruct (var_indices ps) as [ks | e]; cbn [bind]; [| reflexivity].
  rewrite app_nil_r. reflexivity.
Qed.

(** The pre-scan of complete pairs followed by one more opcode. *)
Lemma prescan_dangling (ps : list (float * float)) (o : float) (ks : list Z) :
  var_indices ps = Ok ks ->
  prescan (flatten ps ++ [o])
  = Ok (if deq o VAR then Z.of_nat (count_vars ps) + 1 else Z.of_nat (count_vars ps),
        if dgt o EXP then Z.of_nat (count_ops ps) + 1 else Z.of_nat (count_ops ps),
        if deq o VAR then ks ++ [0] else ks).
Proof.
  intros Hks. unfold prescan, count_instr, index_instr.
  rewrite !fold_left_app. cbn [fold_left].
  rewrite count_step_pairs, !Z.add_0_l, count_step_READ.
  destruct (deq o VAR) eqn:Ho.
  - replace (Z.to_nat (Z.of_nat (count_vars ps) + 1)) with (count_vars ps + 1)%nat by lia.
    rewrite replicate_add.
    pose proof (index_step_pairs ps [] (replicate 1 0)) as H.
    change (Z.of_nat (length (@nil Z))) with 0 in H. cbn [app] in H.
    rewrite fold_left_app, H, Hks. cbn [bind fold_left].
    rewrite index_step_READ, Ho. reflexivity.
  - rewrite Nat2Z.id.
    pose proof (index_step_pairs ps [] []) as H.
    change (Z.of_nat (length (@nil Z))) with 0 in H. cbn [app] in H.
    rewrite app_nil_r in H. rewrite fold_left_app, H, Hks. cbn [bind fold_left].
    rewrite index_step_READ, app_nil_r, Ho. reflexivity.
Qed.

Lemma undefined_index_step (acc : result (Z * Z * list Z)) (x : float) :
  undefined_only acc -> undefined_only (index_step acc x).
Proof.
  destruct acc as [[[st j] varind] | e]; [intros _ | exact id].
  unfold index_step. cbn [bind].
  destruct (st =? READ); [exact I |].
  destruct (st =? VAR); [| exact I].
  unfold cast_int. destruct (double_to_int x) as [k |]; cbn [bind]; [| left; reflexivity].
  unfold arr_set. destruct ((0 <=? j) && (j <? Z.of_nat (length varind)));
    cbn [bind]; [exact I | right; reflexivity].
Qed.

(** The pre-scan raises no message at all. *)
Lemma undefined_prescan (s : list float) : undefined_only (prescan s).
Proof.
  unfold prescan. destruct (count_instr s) as [[st no_var] no_ops].
  assert (H : forall acc, undefined_only acc ->
                undefined_only (fold_left index_step s acc)).
  { induction s as [| x s IH]; intros acc Ha; [exact Ha |].
    cbn [fold_left]. apply IH, undefined_index_step, Ha. }
  specialize (H (Ok (READ, 0, replicate (Z.to_nat no_var) 0)) I).
  unfold index_instr. destruct (fold_left index_step s _) as [[[st' j] varind] | e];
    [exact I | exact H].
Qed.

(** C3 (as the code has it): the pre-scan has no error for a truncated
    stream. For every stream [s] of complete pairs that the pre-scan
    accepts, the stream cut after one more NUM or VAR opcode is accepted as
    well: a dangling NUM changes nothing, a dangling VAR is counted as one
    more variable, whose entry of [varind] keeps the zero of [mxCalloc].
    On no stream at all does the pre-scan stop with a message of the kind
    [MalformedStream]. *)
Theorem C3_prescan_truncated
    (s : list float) (no_var no_ops : Z) (varind : list Z) :
  Nat.even (length s) = true ->
  prescan s = Ok (no_var, no_ops, varind) ->
  prescan (s ++ [op NUM]) = Ok (no_var, no_ops, varind)
  /\ prescan (s ++ [op VAR]) = Ok (no_var + 1, no_ops, varind ++ [0])
  /\ (forall (s' : list float) (e : mex_error),
        prescan s' = Fail e -> kind_of e <> MalformedStream).
Proof.
  intros Hev Hs. split; [| split].
  - rewrite <- (flatten_pairs s Hev) in *. rewrite prescan_pairs in Hs.
    destruct (var_indices (pairs s)) as [ks | e] eqn:Hks; cbn [bind] in Hs;
      [| discriminate].
    injection Hs as <- <- <-. rewrite (prescan_dangling _ _ ks Hks). reflexivity.
  - rewrite <- (flatten_pairs s Hev) in *. rewrite prescan_pairs in Hs.
    destruct (var_indices (pairs s)) as [ks | e] eqn:Hks; cbn [bind] in Hs;
      [| discriminate].
    injection Hs as <- <- <-. rewrite (prescan_dangling _ _ ks Hks). reflexivity.
  - intros s' e He. pose proof (undefined_prescan s') as H. rewrite He in H.
    destruct H as [-> | ->]; discriminate.
Qed.

Lemma C3_prescan_truncated_witness :
  let s := [op VAR; 2%float; op NUM; 3%float] in
  (Nat.even (length s) = true /\ prescan s = Ok (1, 0, [2]))
  /\ prescan (s ++ [op NUM]) = Ok (1, 0, [2])
  /\ prescan (s ++ [op VAR]) = Ok (1 + 1, 0, [2] ++ [0]).
Proof.
  intros s.
  assert (Hev : Nat.even (length s) = true) by reflexivity.
  assert (Hs : prescan s = Ok (1, 0, [2])) by reflexivity.
  destruct (C3_prescan_truncated s 1 0 [2] Hev Hs) as (A & B & _).
  split; [split; assumption |]. split; assumption.
Defined.

(** C3, counterexample: on the streams [NUM] and [VAR, 0, NUM], cut after
    an opcode that expects a slot, the pre-scan returns its counts, and the
    whole build phase ends without any error. *)
Lemma C3_counterexample :
  prescan [op NUM] = Ok (0, 0, [])
  /\ prescan [op VAR; 0%float; op NUM] = Ok (1, 0, [0])
  /\ is_ok (build 1 [op VAR; 0%float; op NUM]) = true.
Proof. repeat split; reflexivity. Qed.

(** ** Division by the constant zero *)

Lemma build_VAR_NUM_DIV_zero (nvars : Z) (t : float) (i : Z) (z pad : float) :
  double_to_int t = Some i -> 0 <= i < nvars ->
  PrimFloat.eqb z 0%float = true ->
  build nvars [op VAR; t; op NUM; z; op DIV; pad] = Fail ErrDivisionByConstZero.
Proof.
  intros Ht Hi Hz. unfold build.
  change [op VAR; t; op NUM; z; op DIV; pad]
    with (flatten [(op VAR, t); (op NUM, z); (op DIV, pad)]) at 1.
  rewrite prescan_pairs.
  assert (Hv : var_indices [(op VAR, t); (op NUM, z); (op DIV, pad)] = Ok [i]).
  { cbn [var_indices]. change (deq (op VAR) VAR) with true.
    change (deq (op NUM) VAR) with false. change (deq (op DIV) VAR) with false.
    cbn iota. rewrite (cast_int_some _ _ Ht). reflexivity. }
  rewrite Hv. cbn [bind]. rewrite (create_expvars_one nvars i Hi). cbn [bind].
  vm_compute. rewrite Hz. reflexivity.
Qed.

(** The DIV case of VAR (op) NUM (l.421-428). *)
Lemma dispatch_DIV_VAR_NUM_zero (expvars : list expr) (k : Z) (m : machine) :
  state m = DIV -> args0 m = VAR -> args1 m = NUM ->
  PrimFloat.eqb (num m) 0%float = true ->
  dispatch_binary expvars k m = Fail ErrDivisionByConstZero.
Proof.
  intros Hs H0 H1 Hz. unfold dispatch_binary, node_VAR_NUM.
  rewrite Hs, H0, H1, Hz. reflexivity.
Qed.

(** The DIV case of EXP (op) NUM when the flip mark is not set
    (l.513-519). *)
Lemma dispatch_DIV_EXP_NUM_zero (expvars : list expr) (k : Z) (m : machine) :
  state m = DIV -> args0 m = EXP -> args1 m = NUM ->
  flipped k m = Ok false ->
  PrimFloat.eqb (num m) 0%float = true ->
  dispatch_binary expvars k m = Fail ErrDivisionByConstZero.
Proof.
  intros Hs H0 H1 Hf Hz. unfold dispatch_binary, node_EXP_NUM.
  rewrite Hs, H0, H1, Hf, Hz. reflexivity.
Qed.

(** C1 (as the code has it): a division by the constant zero is refused
    while the tree is built. For every stream [VAR, t, NUM, z, DIV, pad] in
    the layout the loops read (one slot after every opcode), with [t] a
    valid variable index and [z == 0.0], the build phase stops with
    "Division by constant 0." and [addNonlinearCon] stops with it whether or
    not a validation point is given: the validator is not reached. The same
    holds for every DIV step on the arguments VAR, NUM and on the arguments
    EXP, NUM without flip mark, when the constant is zero. *)
Theorem C1_division_by_constant_zero
    (L : libm) (p : problem) (t : float) (i : Z) (z pad : float)
    (lhs rhs : float) (xval : option (list float)) (nlno : Z) (isObj : bool) :
  double_to_int t = Some i ->
  0 <= i < prob_nvars p ->
  PrimFloat.eqb z 0%float = true ->
  build (prob_nvars p) [op VAR; t; op NUM; z; op DIV; pad]
    = Fail ErrDivisionByConstZero
  /\ addNonlinearCon L p [op VAR; t; op NUM; z; op DIV; pad] lhs rhs xval nlno isObj
     = Fail ErrDivisionByConstZero
  /\ (forall expvars k m,
        state m = DIV -> args0 m = VAR -> args1 m = NUM ->
        PrimFloat.eqb (num m) 0%float = true ->
        dispatch_binary expvars k m = Fail ErrDivisionByConstZero)
  /\ (forall expvars k m,
        state m = DIV -> args0 m = EXP -> args1 m = NUM ->
        flipped k m = Ok false ->
        PrimFloat.eqb (num m) 0%float = true ->
        dispatch_binary expvars k m = Fail ErrDivisionByConstZero).
Proof.
  intros Ht Hi Hz.
  pose proof (build_VAR_NUM_DIV_zero (prob_nvars p) t i z pad Ht Hi Hz) as Hb.
  split; [exact Hb |]. split.
  - apply build_fail_addNonlinearCon, Hb.
  - split; [apply dispatch_DIV_VAR_NUM_zero | apply dispatch_DIV_EXP_NUM_zero].
Qed.

Lemma C1_division_by_constant_zero_witness :
  build 1 [op VAR; 0%float; op NUM; 0%float; op DIV; 0%float]
    = Fail ErrDivisionByConstZero
  /\ addNonlinearCon libm_unused (Problem 1 [])
       [op VAR; 0%float; op NUM; 0%float; op DIV; 0%float] 0%float 1%float
       (Some [1%float]) 0 false
     = Fail ErrDivisionByConstZero
  /\ (forall expvars k m,
        state m = DIV -> args0 m = VAR -> args1 m = NUM ->
        PrimFloat.eqb (num m) 0%float = true ->
        dispatch_binary expvars k m = Fail ErrDivisionByConstZero)
  /\ (forall expvars k m,
        state m = DIV -> args0 m = EXP -> args1 m = NUM ->
        flipped k m = Ok false ->
        PrimFloat.eqb (num m) 0%float = true ->
        dispatch_binary expvars k m = Fail ErrDivisionByConstZero).
Proof.
  apply (C1_division_by_constant_zero libm_unused (Problem 1 []) 0%float 0 0%float
           0%float 0%float 1%float (Some [1%float]) 0 false).
  - reflexivity.
  - cbn. lia.
  - reflexivity.
Defined.

(** C1, counterexample: for the variable 0 the compilation does not
    succeed. On the five tokens [VAR, 0, NUM, 0.0, DIV] the loop ends right
    after reading DIV, no node is ever stored and the root [exp[0]] is an
    unwritten slot; with the slot that the loop expects after DIV, the
    division is refused during the build phase with the message of kind
    [DivisionByZero]. *)
Lemma C1_counterexample :
  (exists m : machine,
     build 1 [op VAR; 0%float; op NUM; 0%float; op DIV] = Ok m
     /\ state m = DIV /\ exp m = [None])
  /\ ~ (exists root : expr,
         compile 1 [op VAR; 0%float; op NUM; 0%float; op DIV] = Ok root)
  /\ build 1 [op VAR; 0%float; op NUM; 0%float; op DIV; 0%float]
     = Fail ErrDivisionByConstZero
  /\ kind_of ErrDivisionByConstZero = DivisionByZero.
Proof.
  split; [| split; [| split; reflexivity]].
  - eexists. split; [vm_compute; reflexivity |]. split; reflexivity.
  - intros [root H]. vm_compute in H. discriminate H.
Qed.

(** ** POWER with a variable as second argument *)

Lemma create_expvars_valid (nvars : Z) (ks : list Z) :
  Forall (fun k => 0 <= k < nvars) ks ->
  create_expvars nvars ks = Ok (map EVar ks).
Proof.
  induction 1 as [| k ks Hk _ IH]; [reflexivity |].
  cbn [create_expvars map].
  replace ((0 <=? k) && (k <? nvars)) with true.
  - cbn [negb fail_if bind]. rewrite IH. reflexivity.
  - symmetry. apply andb_true_iff. split; [apply Z.leb_le | apply Z.ltb_lt]; lia.
Qed.

(** The POW labels of NUM (op) VAR, VAR (op) VAR and EXP (op) VAR
    (l.395-396, 470-471, 584-585). For EXP (op) VAR the two terms are read
    before the switch, so the reads must be defined. *)
Lemma dispatch_POW_variable (expvars : list expr) (k : Z) (m : machine) :
  state m = POW -> args1 m = VAR ->
  args0 m = NUM \/ args0 m = VAR
  \/ (args0 m = EXP
      /\ is_ok (expression m (expno m - 1)) = true
      /\ is_ok (expvar expvars (vari m)) = true) ->
  dispatch_binary expvars k m = Fail ErrPowerVariable.
Proof.
  intros Hs H1 [H0 | [H0 | (H0 & He & Hv)]];
    unfold dispatch_binary, node_NUM_VAR, node_VAR_VAR, node_EXP_VAR;
    rewrite Hs, H0, H1; try reflexivity.
  destruct (expression m (expno m - 1)); [| discriminate He].
  destruct (expvar expvars (vari m)); [| discriminate Hv].
  reflexivity.
Qed.

Lemma build_VAR_VAR_POW (nvars : Z) (t1 t2 : float) (i1 i2 : Z) (pad : float) :
  double_to_int t1 = Some i1 -> 0 <= i1 < nvars ->
  double_to_int t2 = Some i2 -> 0 <= i2 < nvars ->
  build nvars [op VAR; t1; op VAR; t2; op POW; pad] = Fail ErrPowerVariable.
Proof.
  intros Ht1 Hi1 Ht2 Hi2. unfold build.
  change [op VAR; t1; op VAR; t2; op POW; pad]
    with (flatten [(op VAR, t1); (op VAR, t2); (op POW, pad)]) at 1.
  rewrite prescan_pairs.
  assert (Hv : var_indices [(op VAR, t1); (op VAR, t2); (op POW, pad)] = Ok [i1; i2]).
  { cbn [var_indices]. change (deq (op VAR) VAR) with true.
    change (deq (op POW) VAR) with false. cbn iota.
    rewrite (cast_int_some _ _ Ht1), (cast_int_some _ _ Ht2). reflexivity. }
  rewrite Hv. cbn [bind].
  rewrite (create_expvars_valid nvars [i1; i2]) by (repeat constructor; lia).
  reflexivity.
Qed.

Lemma build_NUM_VAR_POW (nvars : Z) (c t : float) (i : Z) (pad : float) :
  double_to_int t = Some i -> 0 <= i < nvars ->
  build nvars [op NUM; c; op VAR; t; op POW; pad] = Fail ErrPowerVariable.
Proof.
  intros Ht Hi. unfold build.
  change [op NUM; c; op VAR; t; op POW; pad]
    with (flatten [(op NUM, c); (op VAR, t); (op POW, pad)]) at 1.
  rewrite prescan_pairs.
  assert (Hv : var_indices [(op NUM, c); (op VAR, t); (op POW, pad)] = Ok [i]).
  { cbn [var_indices]. change (deq (op VAR) VAR) with true.
    change (deq (op NUM) VAR) with false.
    change (deq (op POW) VAR) with false. cbn iota.
    rewrite (cast_int_some _ _ Ht). reflexivity. }
  rewrite Hv. cbn [bind].
  rewrite (create_expvars_valid nvars [i]) by (repeat constructor; lia).
  reflexivity.
Qed.

Lemma build_EXP_VAR_POW (nvars : Z) (t1 c pad1 t2 : float) (i1 i2 : Z) (pad2 : float) :
  double_to_int t1 = Some i1 -> 0 <= i1 < nvars ->
  double_to_int t2 = Some i2 -> 0 <= i2 < nvars ->
  build nvars [op VAR; t1; op NUM; c; op ADD; pad1; op VAR; t2; op POW; pad2]
  = Fail ErrPowerVariable.
Proof.
  intros Ht1 Hi1 Ht2 Hi2. unfold build.
  change [op VAR; t1; op NUM; c; op ADD; pad1; op VAR; t2; op POW; pad2]
    with (flatten [(op VAR, t1); (op NUM, c); (op ADD, pad1); (op VAR, t2);
                   (op POW, pad2)]) at 1.
  rewrite prescan_pairs.
  assert (Hv : var_indices [(op VAR, t1); (op NUM, c); (op ADD, pad1); (op VAR, t2);
                            (op POW, pad2)] = Ok [i1; i2]).
  { cbn [var_indices]. change (deq (op VAR) VAR) with true.
    change (deq (op NUM) VAR) with false. change (deq (op ADD) VAR) with false.
    change (deq (op POW) VAR) with false. cbn iota.
    rewrite (cast_int_some _ _ Ht1), (cast_int_some _ _ Ht2). reflexivity. }
  rewrite Hv. cbn [bind].
  rewrite (create_expvars_valid nvars [i1; i2]) by (repeat constructor; lia).
  reflexivity.
Qed.

(** C4 (as the code has it): POWER with a variable as second argument is
    refused while the tree is built, with the message that names the
    exp(y*log(x)) workaround. This holds for every POW step whose second
    argument is VAR (first argument NUM, VAR, or EXP with its two terms
    readable), and so for the streams [VAR, t1, VAR, t2, POW, pad],
    [NUM, c, VAR, t1, POW, pad] and
    [VAR, t1, NUM, c, ADD, pad, VAR, t2, POW, pad'] in the layout the loop
    reads, where an operator has a slot after it like every other opcode;
    [addNonlinearCon] stops with the same message, with or without a
    validation point. *)
Theorem C4_power_with_variable_exponent
    (L : libm) (p : problem) (t1 t2 : float) (i1 i2 : Z) (c pad pad' : float)
    (lhs rhs : float) (xval : option (list float)) (nlno : Z) (isObj : bool) :
  double_to_int t1 = Some i1 -> 0 <= i1 < prob_nvars p ->
  double_to_int t2 = Some i2 -> 0 <= i2 < prob_nvars p ->
  (forall expvars k m,
     state m = POW -> args1 m = VAR ->
     args0 m = NUM \/ args0 m = VAR
     \/ (args0 m = EXP
         /\ is_ok (expression m (expno m - 1)) = true
         /\ is_ok (expvar expvars (vari m)) = true) ->
     dispatch_binary expvars k m = Fail ErrPowerVariable)
  /\ addNonlinearCon L p [op VAR; t1; op VAR; t2; op POW; pad]
       lhs rhs xval nlno isObj = Fail ErrPowerVariable
  /\ addNonlinearCon L p [op NUM; c; op VAR; t1; op POW; pad]
       lhs rhs xval nlno isObj = Fail ErrPowerVariable
  /\ addNonlinearCon L p
       [op VAR; t1; op NUM; c; op ADD; pad; op VAR; t2; op POW; pad']
       lhs rhs xval nlno isObj = Fail ErrPowerVariable
  /\ kind_of ErrPowerVariable = InvalidPower
  /\ message ErrPowerVariable
     = "You cannot use POWER with the exponent as a variable. For x^y use exp(y*log(x))."%string.
Proof.
  intros Ht1 Hi1 Ht2 Hi2.
  split; [apply dispatch_POW_variable |].
  split; [apply build_fail_addNonlinearCon,
            (build_VAR_VAR_POW (prob_nvars p) t1 t2 i1 i2); assumption |].
  split; [apply build_fail_addNonlinearCon,
            (build_NUM_VAR_POW (prob_nvars p) c t1 i1); assumption |].
  split; [apply build_fail_addNonlinearCon,
            (build_EXP_VAR_POW (prob_nvars p) t1 c pad t2 i1 i2); assumption |].
  split; reflexivity.
Qed.

Lemma C4_power_with_variable_exponent_witness :
  let p := Problem 2 [] in
  let ins1 := [op VAR; 0%float; op VAR; 1%float; op POW; 0%float] in
  let ins2 := [op NUM; 2%float; op VAR; 0%float; op POW; 0%float] in
  let ins3 := [op VAR; 0%float; op NUM; 2%float; op ADD; 0%float;
               op VAR; 1%float; op POW; 0%float] in
  let xval := Some [3%float; 4%float] in
  (double_to_int 0%float = Some 0 /\ 0 <= 0 < 2)
  /\ (double_to_int 1%float = Some 1 /\ 0 <= 1 < 2)
  /\ addNonlinearCon libm_unused p ins1 0%float 1%float xval 0 false
     = Fail ErrPowerVariable
  /\ addNonlinearCon libm_unused p ins2 0%float 1%float xval 0 false
     = Fail ErrPowerVariable
  /\ addNonlinearCon libm_unused p ins3 0%float 1%float xval 0 false
     = Fail ErrPowerVariable.
Proof.
  intros p ins1 ins2 ins3 xval.
  assert (H0 : double_to_int 0%float = Some 0) by reflexivity.
  assert (H1 : double_to_int 1%float = Some 1) by reflexivity.
  assert (R0 : 0 <= 0 < 2) by lia.
  assert (R1 : 0 <= 1 < 2) by lia.
  destruct (C4_power_with_variable_exponent libm_unused p 0%float 1%float 0 1
              2%float 0%float 0%float 0%float 1%float xval 0 false H0 R0 H1 R1)
    as (_ & A1 & A2 & A3 & _).
  repeat split; try assumption; lia.
Defined.

(** C4, counterexample: on the five tokens [VAR, 0, VAR, 1, POW] the build
    phase ends without error. The last iteration only reads the opcode POW
    into [state]; the case POW is never entered, no node is stored, and the
    message about POWER is not raised. *)
Lemma C4_counterexample :
  (exists m : machine,
     build 2 [op VAR; 0%float; op VAR; 1%float; op POW] = Ok m
     /\ state m = POW /\ args0 m = VAR /\ args1 m = VAR /\ exp m = [None])
  /\ compile 2 [op VAR; 0%float; op VAR; 1%float; op POW] <> Fail ErrPowerVariable.
Proof.
  split.
  - eexists. split; [vm_compute; reflexivity |]. repeat split; reflexivity.
  - vm_compute. discriminate.
Qed.

(** ** The dispatch on the kinds of the two arguments *)









(** ** The depth of the lists of saved expressions and variables *)

Lemma quiet_bind {A B : Type} (P : A -> Prop) (Q : B -> Prop)
    (c : result A) (k : A -> result B) :
  quiet P c -> (forall a, P a -> quiet Q (k a)) -> quiet Q (bind c k).
Proof. destruct c as [a | e]; cbn; auto. Qed.

Lemma harmless_bind {A B : Type} (Q : B -> Prop) (c : result A) (k : A -> result B) :
  harmless c -> (forall a, quiet Q (k a)) -> quiet Q (bind c k).
Proof. intros Hc Hk. apply (quiet_bind (fun _ => True)); auto. Qed.

Lemma harmless_arr_get {A : Type} (a : list A) (i : Z) : harmless (arr_get a i).
Proof.
  unfold arr_get. destruct (i <? 0); [reflexivity |].
  destruct (a !! Z.to_nat i); [exact I | reflexivity].
Qed.

Lemma harmless_arr_set {A : Type} (a : list A) (i : Z) (x : A) :
  harmless (arr_set a i x).
Proof.
  unfold arr_set. destruct ((0 <=? i) && (i <? Z.of_nat (length a)));
    [exact I | reflexivity].
Qed.

Lemma harmless_cast_int (x : float) : harmless (cast_int x).
Proof. unfold cast_int. destruct (double_to_int x); [exact I | reflexivity]. Qed.

Lemma harmless_fail_if (c : bool) (e : mex_error) :
  depth_error e = false -> harmless (fail_if c e).
Proof. intros He. destruct c; [exact He | exact I]. Qed.

Lemma arr_set_ok {A : Type} (a a' : list A) (i : Z) (x : A) :
  arr_set a i x = Ok a' ->
  0 <= i < Z.of_nat (length a) /\ length a' = length a.
Proof.
  unfold arr_set.
  destruct ((0 <=? i) && (i <? Z.of_nat (length a))) eqn:Hr; [| discriminate].
  intros [= <-]. apply andb_true_iff in Hr as [H0 H1].
  apply Z.leb_le in H0. apply Z.ltb_lt in H1.
  split; [lia | apply length_insert].
Qed.

(** One step of reasoning on a result built with [bind]. *)
Ltac quiet_step :=
  match goal with
  | |- quiet _ (bind (arr_get _ _) _) =>
      apply harmless_bind; [apply harmless_arr_get | intros ?]
  | |- quiet _ (bind (arr_set _ _ _) _) =>
      apply harmless_bind; [apply harmless_arr_set | intros ?]
  | |- quiet _ (bind (cast_int _) _) =>
      apply harmless_bind; [apply harmless_cast_int | intros ?]
  | |- quiet _ (bind (fail_if _ _) _) =>
      apply harmless_bind; [apply harmless_fail_if; reflexivity | intros _]
  | |- quiet _ (bind (Ok _) _) => cbn [bind]
  | |- quiet _ (if ?c then _ else _) => destruct c eqn:?
  | |- quiet _ (match ?o with Some _ => _ | None => _ end) => destruct o
  | |- quiet _ (Fail _) => reflexivity
  | |- quiet (fun _ => True) (Ok _) => exact I
  | |- harmless _ => unfold harmless
  end.

Lemma harmless_expvar (expvars : list expr) (k : Z) : harmless (expvar expvars k).
Proof. apply harmless_arr_get. Qed.

Lemma harmless_expression (m : machine) (k : Z) : harmless (expression m k).
Proof. unfold expression. repeat quiet_step. Qed.

Lemma harmless_flipped (i : Z) (m : machine) : harmless (flipped i m).
Proof. unfold flipped. repeat quiet_step. Qed.

Ltac quiet_node :=
  repeat first
    [ quiet_step
    | match goal with
      | |- quiet _ (bind (expvar _ _) _) =>
          apply harmless_bind; [apply harmless_expvar | intros ?]
      | |- quiet _ (bind (expression _ _) _) =>
          apply harmless_bind; [apply harmless_expression | intros ?]
      | |- quiet _ (bind (flipped _ _) _) =>
          apply harmless_bind; [apply harmless_flipped | intros ?]
      end ].

Lemma harmless_node_NUM_VAR expvars m : harmless (node_NUM_VAR expvars m).
Proof. unfold node_NUM_VAR. quiet_node. Qed.

Lemma harmless_node_VAR_NUM expvars m : harmless (node_VAR_NUM expvars m).
Proof. unfold node_VAR_NUM. quiet_node. Qed.

Lemma harmless_node_VAR_VAR expvars m : harmless (node_VAR_VAR expvars m).
Proof. unfold node_VAR_VAR. quiet_node. Qed.

Lemma harmless_node_EXP_NUM i m : harmless (node_EXP_NUM i m).
Proof. unfold node_EXP_NUM. quiet_node. Qed.

Lemma harmless_node_EXP_VAR expvars i m : harmless (node_EXP_VAR expvars i m).
Proof. unfold node_EXP_VAR. quiet_node. Qed.

Lemma harmless_node_EXP_EXP i m : harmless (node_EXP_EXP i m).
Proof. unfold node_EXP_EXP. quiet_node. Qed.

Lemma harmless_node_unary (dflt : mex_error) (s : Z) (c : result expr) :
  depth_error dflt = false -> harmless c -> harmless (node_unary dflt s c).
Proof.
  intros Hd Hc. unfold node_unary.
  repeat first
    [ match goal with
      | |- quiet _ (bind c _) => apply harmless_bind; [exact Hc | intros ?]
      | |- quiet _ (Fail dflt) => exact Hd
      end
    | quiet_step ].
Qed.

Ltac machine_simpl :=
  cbn [state args0 args1 instr varcnt expno vari savexp savexplst psavexplst
       savvarlst psavvarlst savprolst psavprolst num exp
       set_state set_args set_instr set_varcnt set_expno set_vari set_savexp
       set_savexplst set_savvarlst set_savprolst set_num set_exp] in *.

Lemma geb_depth_false (p : Z) : p < MAX_DEPTH -> (p >=? MAX_DEPTH) = false.
Proof. intros H. rewrite Z.geb_leb. apply Z.leb_gt. exact H. Qed.

Lemma quiet_store_node (node : expr) (m : machine) :
  within_depth m -> quiet within_depth (store_node node m).
Proof.
  intros Hm. unfold store_node. quiet_step.
  destruct m. machine_simpl. exact Hm.
Qed.

(** The guard of the expression list lets the position [MAX_DEPTH - 1]
    pass; the write that follows is then outside the array, and the run has
    no defined continuation. *)
Lemma quiet_save_expression (m : machine) :
  within_depth m -> quiet within_depth (save_expression m).
Proof.
  intros (He & Hel & Hv & Hvl). unfold save_expression.
  rewrite (geb_depth_false _ He). cbn [fail_if bind].
  destruct (arr_set (savexplst m) (psavexplst m + 1) (expno m - 1)) as [el | e] eqn:E;
    [| pose proof (harmless_arr_set (savexplst m) (psavexplst m + 1) (expno m - 1)) as H;
       rewrite E in H; exact H].
  apply arr_set_ok in E as [Hr Hl]. cbn [bind]. quiet_step.
  destruct m. unfold quiet, within_depth in *. machine_simpl. rewrite Hl. lia.
Qed.

Lemma quiet_save_variable (v : result Z) (m : machine) :
  harmless v -> within_depth m -> quiet within_depth (save_variable v m).
Proof.
  intros Hh (He & Hel & Hv & Hvl). unfold save_variable.
  rewrite (geb_depth_false _ Hv). cbn [fail_if bind].
  apply harmless_bind; [exact Hh | intros x].
  destruct (arr_set (savvarlst m) (psavvarlst m + 1) x) as [vl | e] eqn:E;
    [| pose proof (harmless_arr_set (savvarlst m) (psavvarlst m + 1) x) as H;
       rewrite E in H; exact H].
  apply arr_set_ok in E as [Hr Hl]. cbn [bind]. quiet_step.
  destruct m. unfold quiet, within_depth in *. machine_simpl. rewrite Hl. lia.
Qed.

Lemma within_depth_args (a0 a1 : Z) (m : machine) :
  within_depth m -> within_depth (set_args a0 a1 m).
Proof. destruct m. exact id. Qed.

Lemma quiet_step_NUM (i : Z) (m : machine) :
  within_depth m -> quiet within_depth (step_NUM i m).
Proof.
  intros Hm. unfold step_NUM. quiet_step.
  assert (Hm' : within_depth (set_state READ (set_num a m))) by (destruct m; exact Hm).
  repeat quiet_step; try (apply within_depth_args; exact Hm').
  - apply (quiet_bind within_depth); [apply quiet_save_expression, Hm' |].
    intros m1 H1. apply within_depth_args, H1.
  - apply (quiet_bind within_depth);
      [apply quiet_save_variable; [exact I | exact Hm'] |].
    intros m1 H1. apply within_depth_args, H1.
Qed.

Lemma harmless_last_two_are_vars (i : Z) (m : machine) :
  harmless (last_two_are_vars i m).
Proof. unfold last_two_are_vars. repeat quiet_step. Qed.

Lemma quiet_step_VAR (i : Z) (m : machine) :
  within_depth m -> quiet within_depth (step_VAR i m).
Proof.
  intros Hm. unfold step_VAR.
  assert (Hm' : within_depth (set_state READ (set_varcnt (varcnt m + 1) m)))
    by (destruct m; exact Hm).
  repeat quiet_step; try (apply within_depth_args; exact Hm').
  - apply (quiet_bind within_depth); [apply quiet_save_expression, Hm' |].
    intros m1 H1. apply within_depth_args, H1.
  - apply (quiet_bind within_depth).
    + apply quiet_save_variable; [| exact Hm'].
      apply harmless_bind; [apply harmless_last_two_are_vars | intros b; exact I].
    + intros m1 H1. apply within_depth_args, H1.
Qed.

Lemma quiet_take_waiting (i : Z) (m : machine) :
  within_depth m -> quiet within_depth (take_waiting i m).
Proof.
  intros Hm. unfold take_waiting. repeat quiet_step; try exact Hm.
  - destruct m. unfold quiet, within_depth in *. machine_simpl. lia.
  - destruct m. exact Hm.
Qed.

Lemma quiet_dispatch_binary (expvars : list expr) (i : Z) (m : machine) :
  within_depth m -> quiet within_depth (dispatch_binary expvars i m).
Proof.
  intros Hm. unfold dispatch_binary.
  repeat match goal with
         | |- quiet _ (if ?c then _ else _) => destruct c eqn:?
         end;
    try reflexivity;
    try (apply harmless_bind;
         [first [ apply harmless_node_NUM_VAR | apply harmless_node_VAR_NUM
                | apply harmless_node_VAR_VAR | apply harmless_node_EXP_NUM
                | apply harmless_node_EXP_VAR ]
         | intros node; apply quiet_store_node, Hm]).
  quiet_step. quiet_step.
  apply harmless_bind; [apply harmless_node_EXP_EXP | intros node].
  assert (Hm' : within_depth (set_savexp a m)) by (destruct m; exact Hm).
  apply (quiet_bind within_depth); [apply quiet_store_node, Hm' |].
  intros m1 (H1 & H2 & H3 & H4). destruct m1.
  unfold quiet, within_depth in *. machine_simpl. repeat split; try assumption. lia.
Qed.

Lemma within_depth_next_operator (no_instr i : Z) (m : machine) :
  within_depth m -> within_depth (next_operator no_instr i m).
Proof. unfold next_operator. destruct (i =? no_instr - 1), m; exact id. Qed.

Lemma quiet_step_binary (expvars : list expr) (no_instr i : Z) (m : machine) :
  within_depth m -> quiet within_depth (step_binary expvars no_instr i m).
Proof.
  intros Hm. unfold step_binary.
  apply (quiet_bind within_depth).
  { apply quiet_take_waiting. destruct m. exact Hm. }
  intros m1 H1. quiet_step.
  apply (quiet_bind within_depth); [apply quiet_dispatch_binary, H1 |].
  intros m2 H2. apply within_depth_next_operator, H2.
Qed.

Lemma quiet_step_unary (expvars : list expr) (no_instr i : Z) (m : machine) :
  within_depth m -> quiet within_depth (step_unary expvars no_instr i m).
Proof.
  intros Hm. unfold step_unary.
  assert (Hm' : within_depth (set_vari (varcnt m) m)) by (destruct m; exact Hm).
  quiet_step.
  apply (quiet_bind within_depth).
  { quiet_step; [| exact Hm'].
    apply (quiet_bind within_depth); [apply quiet_save_expression, Hm' |].
    intros m1 H1. apply within_depth_args, H1. }
  intros m1 H1. apply (quiet_bind within_depth).
  { quiet_step; [| exact H1]. apply quiet_save_variable; [exact I | exact H1]. }
  intros m2 H2. apply (quiet_bind within_depth).
  { quiet_step; [| quiet_step].
    - quiet_step. apply harmless_bind.
      + apply harmless_node_unary; [reflexivity | apply harmless_expvar].
      + intros node. apply quiet_store_node, H2.
    - apply harmless_bind.
      + apply harmless_node_unary; [reflexivity | apply harmless_expression].
      + intros node. apply quiet_store_node, H2.
    - reflexivity. }
  intros m3 H3. apply within_depth_next_operator, H3.
Qed.

Lemma quiet_step_any (expvars : list expr) (no_instr i : Z) (m : machine) :
  within_depth m -> quiet within_depth (step expvars no_instr i m).
Proof.
  intros Hm. unfold step.
  repeat match goal with
         | |- quiet _ (if ?c then _ else _) => destruct c eqn:?
         end; try reflexivity; try exact Hm.
  - quiet_step. quiet_step. destruct m. exact Hm.
  - apply quiet_step_NUM, Hm.
  - apply quiet_step_VAR, Hm.
  - apply quiet_step_binary, Hm.
  - apply quiet_step_unary, Hm.
Qed.

Lemma quiet_run (expvars : list expr) (no_instr : Z) (n : nat) (i : Z) (m : machine) :
  within_depth m -> quiet within_depth (run expvars no_instr n i m).
Proof.
  revert i m. induction n as [| n IH]; intros i m Hm; cbn [run].
  - exact Hm.
  - apply (quiet_bind within_depth); [apply quiet_step_any, Hm |].
    intros m1 H1. apply IH, H1.
Qed.

Lemma harmless_index_step (acc : result (Z * Z * list Z)) (x : float) :
  harmless acc -> harmless (index_step acc x).
Proof.
  intros Ha. unfold index_step.
  apply harmless_bind; [exact Ha | intros [[st j] varind]].
  repeat quiet_step.
Qed.

Lemma harmless_index_instr (ins : list float) (acc : result (Z * Z * list Z)) :
  harmless acc -> harmless (fold_left index_step ins acc).
Proof.
  revert acc. induction ins as [| x ins IH]; intros acc Ha; [exact Ha |].
  cbn [fold_left]. apply IH, harmless_index_step, Ha.
Qed.

Lemma harmless_prescan (ins : list float) : harmless (prescan ins).
Proof.
  unfold prescan. destruct (count_instr ins) as [[st no_var] no_ops].
  apply harmless_bind; [| intros [[st' j] varind]; exact I].
  apply harmless_index_instr. exact I.
Qed.

Lemma harmless_create_expvars (nvars : Z) (varind : list Z) :
  harmless (create_expvars nvars varind).
Proof.
  induction varind as [| k rest IH]; [exact I |].
  cbn [create_expvars]. unfold harmless. quiet_step.
  apply harmless_bind; [exact IH | intros es; exact I].
Qed.

Lemma within_depth_initial (ins : list float) (ex : list (option expr)) :
  within_depth (initial ins ex).
Proof.
  unfold within_depth, initial. machine_simpl.
  rewrite !length_replicate. unfold MAX_DEPTH. lia.
Qed.

(** No run of the build phase ends with one of the two depth messages. *)
Lemma quiet_build (nvars : Z) (ins : list float) :
  quiet within_depth (build nvars ins).
Proof.
  unfold build.
  apply harmless_bind; [apply harmless_prescan | intros [[no_var no_ops] varind]].
  apply harmless_bind; [apply harmless_create_expvars | intros expvars].
  apply harmless_bind.
  { unfold constant_shortcut. repeat quiet_step. }
  intros b. apply harmless_bind.
  { unfold variable_shortcut. repeat quiet_step. }
  intros c. apply quiet_run, within_depth_initial.
Qed.

(** C7 (where the code departs from it): the guard [psavexplst >=
    MAX_DEPTH] before [savexplst[++psavexplst]] is late by one. With 513
    blocks of [deep_stream] the list of saved expressions is full (position
    511) and the build phase ends normally. With 514 blocks the NUM step of
    the last block finds the position 511, passes the guard, and writes
    [savexplst[512]], outside the array of 512 entries: the run stops there,
    not with the depth message. In general no run of the build phase can
    end with a depth message, because the out-of-bounds write always comes
    first. *)
Theorem C7_depth_guard_off_by_one :
  (exists m : machine,
     build 1 (deep_stream 513) = Ok m /\ psavexplst m = MAX_DEPTH - 1)
  /\ (exists m : machine,
        run (map EVar (replicate 514 0)) 3084 3081 0
          (initial (deep_stream 514) (replicate 514 None)) = Ok m
        /\ state m = NUM /\ args0 m = EXP /\ args1 m = VAR
        /\ psavexplst m = MAX_DEPTH - 1
        /\ (psavexplst m >=? MAX_DEPTH) = false
        /\ arr_set (savexplst m) (psavexplst m + 1) (expno m - 1)
           = Fail UB_OutOfBounds
        /\ step (map EVar (replicate 514 0)) 3084 3081 m = Fail UB_OutOfBounds)
  /\ build 1 (deep_stream 514) = Fail UB_OutOfBounds
  /\ (forall (nvars : Z) (ins : list float),
        build nvars ins <> Fail ErrDepthExpList
        /\ build nvars ins <> Fail ErrDepthVarList).
Proof.
  split; [| split; [| split]].
  - eexists. split; [vm_compute; reflexivity | reflexivity].
  - eexists. split; [vm_compute; reflexivity |].
    repeat split; vm_compute; reflexivity.
  - vm_compute. reflexivity.
  - intros nvars ins. pose proof (quiet_build nvars ins) as H.
    split; intros E; rewrite E in H; discriminate H.
Qed.

(** C10 (where the code departs from it): the guards do not keep the
    write inside the arrays. In each of three runs the machine is about to
    save: the guard passes with the position at 511, and the write goes to
    index 512 of an array of 512 entries. The runs are 514 blocks of
    [deep_stream] (an expression saved in case NUM, l.245-249), 514 blocks
    of [deep_products] (an expression saved in case VAR, l.287-291) and 515
    variables in a row (a variable saved in case VAR, l.300-307). *)
Theorem C10_guarded_push_outside_the_array :
  (let ev := map EVar (replicate 514 0) in
   let m := machine_after ev (deep_stream 514) (replicate 514 None) 3081 in
   state m = NUM /\ args0 m = EXP /\ args1 m = VAR
   /\ (psavexplst m >=? MAX_DEPTH) = false
   /\ psavexplst m + 1 = MAX_DEPTH
   /\ Z.of_nat (length (savexplst m)) = MAX_DEPTH
   /\ save_expression m = Fail UB_OutOfBounds
   /\ step ev 3084 3081 m = Fail UB_OutOfBounds)
  /\ (let ev := map EVar (replicate 1028 0) in
      let m := machine_after ev (deep_products 514) (replicate 514 None) 3081 in
      state m = VAR /\ args0 m = EXP /\ args1 m = VAR
      /\ (psavexplst m >=? MAX_DEPTH) = false
      /\ psavexplst m + 1 = MAX_DEPTH
      /\ Z.of_nat (length (savexplst m)) = MAX_DEPTH
      /\ step ev 3084 3081 m = Fail UB_OutOfBounds)
  /\ (let ev := map EVar (replicate 515 0) in
      let m := machine_after ev (deep_variables 515) [None] 1029 in
      state m = VAR /\ args0 m = VAR /\ args1 m = VAR
      /\ (psavvarlst m >=? MAX_DEPTH) = false
      /\ psavvarlst m + 1 = MAX_DEPTH
      /\ Z.of_nat (length (savvarlst m)) = MAX_DEPTH
      /\ step ev 1030 1029 m = Fail UB_OutOfBounds)
  /\ build 1 (deep_products 514) = Fail UB_OutOfBounds
  /\ build 1 (deep_variables 515) = Fail UB_OutOfBounds.
Proof.
  split; [| split; [| split; [| split]]].
  - vm_compute. repeat split; reflexivity.
  - vm_compute. repeat split; reflexivity.
  - vm_compute. repeat split; reflexivity.
  - vm_compute. reflexivity.
  - vm_compute. reflexivity.
Qed.

(** ** The check against the expected value *)

(** C8: when a validation point and an expected value are given and the
    value of the compiled tree differs from the expected one by more than
    the tolerance, the call is not fatal. [addNonlinearCon] has returned
    the value of the root, with the constraint (or objective) built from
    the compiled root added to the problem: one more constraint at the end
    of the list, with this root, these bounds and this number; for a
    constraint no linear variable and the same number of variables, for an
    objective one more variable, the new last one, linked into the
    constraint with coefficient -1. The caller then only records a warning
    and clears the test status. The problem is the one a matching expected
    value leaves. *)
Theorem C8_validation_mismatch_is_a_warning
    (L : libm) (isFeasPositive : float -> bool) (s : session) (ins : list float)
    (lhs rhs : float) (point : list float) (conval : float) (nlno : Z)
    (isObj : bool) (root : expr) (cval : float) :
  compile (prob_nvars (sess_problem s)) ins = Ok root ->
  eval L point root = Ok cval ->
  isFeasPositive (PrimFloat.abs (cval - conval)) = true ->
  let p := sess_problem s in
  let c :=
    {| cons_isobj := isObj; cons_nlno := nlno; cons_root := root;
       cons_lhs := lhs; cons_rhs := rhs;
       cons_linear := if isObj then Some (prob_nvars p, (-1)%float) else None |} in
  let p' :=
    {| prob_nvars := if isObj then prob_nvars p + 1 else prob_nvars p;
       prob_conss := prob_conss p ++ [c] |} in
  addNonlinearCon L p ins lhs rhs (Some point) nlno isObj = Ok (p', cval)
  /\ add_and_check L isFeasPositive s ins lhs rhs (Some point) conval nlno isObj
     = Ok {| sess_problem := p'; sess_ts := 0;
             sess_warnings :=
               sess_warnings s ++ [(isObj, nlno, PrimFloat.abs (cval - conval))] |}
  /\ (forall conval' : float,
        isFeasPositive (PrimFloat.abs (cval - conval')) = false ->
        add_and_check L isFeasPositive s ins lhs rhs (Some point) conval' nlno isObj
        = Ok {| sess_problem := p'; sess_ts := sess_ts s;
                sess_warnings := sess_warnings s |}).
Proof.
  intros Hc He Hm p c p'.
  assert (Ha : addNonlinearCon L p ins lhs rhs (Some point) nlno isObj
               = Ok (p', cval)).
  { unfold addNonlinearCon, p. rewrite Hc. cbn [bind validate]. rewrite He.
    cbn [bind]. unfold p', c, p, emit. destruct isObj; reflexivity. }
  split; [exact Ha |]. split.
  - unfold add_and_check. fold p. rewrite Ha. cbn [bind]. rewrite Hm. reflexivity.
  - intros conval' Hm'. unfold add_and_check. fold p. rewrite Ha. cbn [bind].
    rewrite Hm'. reflexivity.
Qed.

Lemma C8_validation_mismatch_is_a_warning_witness :
  let ins := [op VAR; 0%float; op NUM; 3%float; op ADD; 0%float] in
  let s := Session (Problem 1 []) 1 [] in
  let tol := fun e : float => PrimFloat.ltb 0.5%float e in
  let root := ESum [(one, EVar 0)] 3%float in
  (compile 1 ins = Ok root /\ eval libm_unused [2%float] root = Ok 5%float
   /\ tol (PrimFloat.abs (5 - 7)) = true)
  /\ add_and_check libm_unused tol s ins 0%float 9%float (Some [2%float]) 7%float 0 false
     = Ok (Session (Problem 1 [NonlinearCons false 0 root 0%float 9%float None]) 0
             [(false, 0, 2%float)])
  /\ add_and_check libm_unused tol s ins 0%float 0%float (Some [2%float]) 7%float 0 true
     = Ok (Session
             (Problem 2 [NonlinearCons true 0 root 0%float 0%float
                           (Some (1, (-1)%float))]) 0
             [(true, 0, 2%float)]).
Proof.
  intros ins s tol root.
  assert (Hc : compile (prob_nvars (sess_problem s)) ins = Ok root) by reflexivity.
  assert (He : eval libm_unused [2%float] root = Ok 5%float) by reflexivity.
  assert (Hm : tol (PrimFloat.abs (5 - 7)) = true) by reflexivity.
  destruct (C8_validation_mismatch_is_a_warning libm_unused tol s ins 0%float 9%float
              [2%float] 7%float 0 false root 5%float Hc He Hm) as (_ & H & _).
  destruct (C8_validation_mismatch_is_a_warning libm_unused tol s ins 0%float 0%float
              [2%float] 7%float 0 true root 5%float Hc He Hm) as (_ & H' & _).
  split; [split; [exact Hc | split; [exact He | exact Hm]] | split; [exact H | exact H']].
Defined.

(** ** The flip mark in the caller's array *)

Lemma arr_set_value {A : Type} (a a' : list A) (i : Z) (x : A) :
  arr_set a i x = Ok a' ->
  a' = <[Z.to_nat i := x]> a /\ 0 <= i < Z.of_nat (length a).
Proof.
  intros H. pose proof (arr_set_ok _ _ _ _ H) as [Hr _].
  unfold arr_set in H.
  destruct ((0 <=? i) && (i <? Z.of_nat (length a))); [| discriminate].
  injection H as <-. split; [reflexivity | exact Hr].
Qed.

(** A waiting variable is taken: the mark is written at [instr[i]]
    (l.335-351). *)
Lemma take_waiting_variable (i : Z) (m m1 : machine) :
  args1 m = EMPTY -> 0 <= psavprolst m ->
  arr_get (savprolst m) (psavprolst m) = Ok VAR ->
  take_waiting i m = Ok m1 ->
  instr m1 = <[Z.to_nat i := 1%float]> (instr m)
  /\ 0 <= i < Z.of_nat (length (instr m))
  /\ args0 m1 = args0 m /\ args1 m1 = VAR
  /\ psavvarlst m1 = psavvarlst m - 1.
Proof.
  intros H1 Hp Hg H. unfold take_waiting in H.
  rewrite H1 in H. change (EMPTY =? EMPTY) with true in H.
  replace (psavprolst m >=? 0) with true in H
    by (symmetry; rewrite Z.geb_leb; apply Z.leb_le; exact Hp).
  cbn [andb] in H. rewrite Hg in H. cbn [bind] in H.
  change (VAR =? VAR) with true in H. cbn iota in H.
  apply bind_inv in H as (u & _ & H).
  apply bind_inv in H as (v & _ & H).
  apply bind_inv in H as (u' & _ & H).
  apply bind_inv in H as (ins & Hs & H).
  injection H as <-.
  destruct m. machine_simpl.
  apply arr_set_value in Hs as [-> Hr]. repeat split; try reflexivity; lia.
Qed.

Lemma store_node_instr (node : expr) (m m' : machine) :
  store_node node m = Ok m' -> instr m' = instr m.
Proof.
  unfold store_node. intros H.
  apply bind_inv in H as (ex & _ & H). injection H as <-.
  destruct m. reflexivity.
Qed.

(** The dispatch reads the mark and leaves the array as it is. *)
Lemma dispatch_binary_instr (expvars : list expr) (i : Z) (m m' : machine) :
  dispatch_binary expvars i m = Ok m' -> instr m' = instr m.
Proof.
  unfold dispatch_binary.
  repeat match goal with
         | |- (if ?c then _ else _) = _ -> _ => destruct c
         end;
    try discriminate;
    try (intros H; apply bind_inv in H as (node & _ & H);
         exact (store_node_instr _ _ _ H)).
  intros H.
  apply bind_inv in H as (sv & _ & H).
  apply bind_inv in H as (u & _ & H).
  apply bind_inv in H as (node & _ & H).
  apply bind_inv in H as (m1 & Hst & H). injection H as <-.
  apply store_node_instr in Hst. destruct m1, m. machine_simpl. exact Hst.
Qed.

Lemma next_operator_instr (no_instr i : Z) (m : machine) :
  instr (next_operator no_instr i m) = instr m.
Proof. unfold next_operator. destruct (i =? no_instr - 1), m; reflexivity. Qed.

Lemma is_binary_cases (s : Z) :
  is_binary s = true -> s = MUL \/ s = DIV \/ s = ADD \/ s = SUB \/ s = POW.
Proof.
  unfold is_binary. intros H.
  repeat (apply orb_true_iff in H as [H | H]);
    apply Z.eqb_eq in H; auto 6.
Qed.

Lemma save_expression_instr (m m' : machine) :
  save_expression m = Ok m' -> instr m' = instr m /\ args1 m' = args1 m.
Proof.
  unfold save_expression. intros H.
  apply bind_inv in H as (u & _ & H).
  apply bind_inv in H as (el & _ & H).
  apply bind_inv in H as (pl & _ & H). injection H as <-.
  destruct m. split; reflexivity.
Qed.

Lemma save_variable_instr (v : result Z) (m m' : machine) :
  save_variable v m = Ok m' -> instr m' = instr m /\ args1 m' = args1 m.
Proof.
  unfold save_variable. intros H.
  apply bind_inv in H as (u & _ & H).
  apply bind_inv in H as (x & _ & H).
  apply bind_inv in H as (vl & _ & H).
  apply bind_inv in H as (pl & _ & H). injection H as <-.
  destruct m. split; reflexivity.
Qed.

Lemma step_NUM_instr (i : Z) (m m' : machine) :
  step_NUM i m = Ok m' -> instr m' = instr m.
Proof.
  unfold step_NUM. intros H. apply bind_inv in H as (x & _ & H).
  assert (E : instr (set_state READ (set_num x m)) = instr m) by (destruct m; reflexivity).
  revert H E. generalize (set_state READ (set_num x m)). intros m0 H E.
  destruct (args0 m0 =? EMPTY); [injection H as <-; destruct m0; exact E |].
  destruct (args1 m0 =? EMPTY); [injection H as <-; destruct m0; exact E |].
  destruct (args0 m0 =? EXP).
  { apply bind_inv in H as (m1 & Hs & H). injection H as <-.
    apply save_expression_instr in Hs as [Hs _]. destruct m1. machine_simpl. congruence. }
  destruct (args0 m0 =? VAR); [| discriminate].
  apply bind_inv in H as (m1 & Hs & H). injection H as <-.
  apply save_variable_instr in Hs as [Hs _]. destruct m1. machine_simpl. congruence.
Qed.

Lemma step_VAR_instr (i : Z) (m m' : machine) :
  step_VAR i m = Ok m' -> instr m' = instr m.
Proof.
  unfold step_VAR.
  assert (E : instr (set_state READ (set_varcnt (varcnt m + 1) m)) = instr m)
    by (destruct m; reflexivity).
  revert E. generalize (set_state READ (set_varcnt (varcnt m + 1) m)). intros m0 E H.
  destruct (args0 m0 =? EMPTY); [injection H as <-; destruct m0; exact E |].
  destruct (args1 m0 =? EMPTY); [injection H as <-; destruct m0; exact E |].
  destruct (args0 m0 =? EXP).
  { apply bind_inv in H as (m1 & Hs & H). injection H as <-.
    apply save_expression_instr in Hs as [Hs _]. destruct m1. machine_simpl. congruence. }
  destruct (args0 m0 =? VAR); [| discriminate].
  apply bind_inv in H as (m1 & Hs & H). injection H as <-.
  apply save_variable_instr in Hs as [Hs _]. destruct m1. machine_simpl. congruence.
Qed.

Lemma step_unary_instr (expvars : list expr) (no_instr i : Z) (m m' : machine) :
  step_unary expvars no_instr i m = Ok m' -> instr m' = instr m.
Proof.
  unfold step_unary.
  assert (E : instr (set_vari (varcnt m) m) = instr m) by (destruct m; reflexivity).
  revert E. generalize (set_vari (varcnt m) m). intros m0 E H.
  apply bind_inv in H as (u & _ & H).
  apply bind_inv in H as (m1 & H1 & H).
  apply bind_inv in H as (m2 & H2 & H).
  apply bind_inv in H as (m3 & H3 & H). injection H as <-.
  rewrite next_operator_instr.
  assert (E1 : instr m1 = instr m0).
  { destruct ((args0 m0 =? EXP) && (args1 m0 =? VAR)); [| congruence].
    apply bind_inv in H1 as (m4 & Hs & H1). injection H1 as <-.
    apply save_expression_instr in Hs as [Hs _]. destruct m4. exact Hs. }
  assert (E2 : instr m2 = instr m1).
  { destruct ((args0 m1 =? VAR) && (args1 m1 =? VAR)); [| congruence].
    apply save_variable_instr in H2 as [H2 _]. exact H2. }
  assert (E3 : instr m3 = instr m2).
  { destruct (args0 m2 =? VAR).
    - apply bind_inv in H3 as (u' & _ & H3).
      apply bind_inv in H3 as (node & _ & H3). exact (store_node_instr _ _ _ H3).
    - destruct (args0 m2 =? EXP); [| discriminate].
      apply bind_inv in H3 as (node & _ & H3). exact (store_node_instr _ _ _ H3). }
  congruence.
Qed.

(** What taking a waiting operand does to the array: nothing, unless the
    operand is a variable. *)
Lemma take_waiting_instr (i : Z) (m m1 : machine) :
  take_waiting i m = Ok m1 ->
  instr m1 = instr m
  \/ (args1 m = EMPTY /\ 0 <= psavprolst m
      /\ arr_get (savprolst m) (psavprolst m) = Ok VAR
      /\ instr m1 = <[Z.to_nat i := 1%float]> (instr m)).
Proof.
  intros H. pose proof H as H'. unfold take_waiting in H.
  destruct ((args1 m =? EMPTY) && (psavprolst m >=? 0)) eqn:C;
    [| injection H as <-; left; reflexivity].
  apply andb_true_iff in C as [C1 C2]. apply Z.eqb_eq in C1.
  rewrite Z.geb_leb in C2. apply Z.leb_le in C2.
  apply bind_inv in H as (toProcess & Hg & H).
  destruct (toProcess =? VAR) eqn:Cv.
  - apply Z.eqb_eq in Cv. subst toProcess. right.
    destruct (take_waiting_variable i m m1 C1 C2 Hg H') as (A & _).
    repeat split; assumption.
  - destruct (toProcess =? EXP); [| discriminate].
    apply bind_inv in H as (u & _ & H). injection H as <-.
    left. destruct m. reflexivity.
Qed.

(** What one iteration of the main loop does to the array. *)
Lemma step_instr (expvars : list expr) (no_instr i : Z) (m m' : machine) :
  step expvars no_instr i m = Ok m' ->
  instr m' = instr m
  \/ (is_binary (state m) = true /\ args1 m = EMPTY /\ 0 <= psavprolst m
      /\ arr_get (savprolst m) (psavprolst m) = Ok VAR
      /\ instr m' = <[Z.to_nat i := 1%float]> (instr m)).
Proof.
  unfold step. intros H.
  destruct (state m =? READ).
  { apply bind_inv in H as (x & _ & H). apply bind_inv in H as (k & _ & H).
    injection H as <-. left. destruct m. reflexivity. }
  destruct (state m =? NUM); [left; exact (step_NUM_instr _ _ _ H) |].
  destruct (state m =? VAR); [left; exact (step_VAR_instr _ _ _ H) |].
  destruct (is_binary (state m)) eqn:Hb.
  { unfold step_binary in H.
    apply bind_inv in H as (m1 & Htw & H).
    apply bind_inv in H as (u & _ & H).
    apply bind_inv in H as (m2 & Hd & H). injection H as <-.
    rewrite next_operator_instr, (dispatch_binary_instr _ _ _ _ Hd).
    apply take_waiting_instr in Htw. destruct m. machine_simpl.
    destruct Htw as [E | (A & B & C & D)]; [left; exact E | right; auto]. }
  destruct (is_unary (state m)); [left; exact (step_unary_instr _ _ _ _ _ H) |].
  destruct ((state m =? MIN) || (state m =? MAX)); [discriminate |].
  destruct (state m =? TAN); [discriminate |].
  destruct (state m =? SIGN); [discriminate |].
  destruct (state m =? EXIT); [| discriminate].
  injection H as <-. left. reflexivity.
Qed.

(** C9: a binary operator step that finds its second register empty and a
    variable on top of the process list writes 1 into the array of
    instructions, at the position [i] of the step, which is the slot after
    the operator; nothing else of the array changes in that step, and no
    other step changes the array. The array is the caller's: for the
    stream of [x0 - sin(x1)] the array after the build phase differs from
    the one passed in, in its last slot. *)
Theorem C9_flip_mark_in_the_input
    (expvars : list expr) (no_instr i : Z) (m m' : machine) :
  is_binary (state m) = true ->
  args1 m = EMPTY ->
  0 <= psavprolst m ->
  arr_get (savprolst m) (psavprolst m) = Ok VAR ->
  step expvars no_instr i m = Ok m' ->
  (instr m' = <[Z.to_nat i := 1%float]> (instr m)
   /\ 0 <= i < Z.of_nat (length (instr m)))
  /\ (forall ev n j m0 m1,
        step ev n j m0 = Ok m1 ->
        instr m1 = instr m0
        \/ (is_binary (state m0) = true /\ args1 m0 = EMPTY /\ 0 <= psavprolst m0
            /\ arr_get (savprolst m0) (psavprolst m0) = Ok VAR
            /\ instr m1 = <[Z.to_nat j := 1%float]> (instr m0)))
  /\ (let ins := [op VAR; 0%float; op VAR; 1%float; op SIN; 0%float; op SUB; 0%float] in
      exists mf : machine,
        build 2 ins = Ok mf
        /\ instr mf = [op VAR; 0%float; op VAR; 1%float; op SIN; 0%float; op SUB; 1%float]
        /\ instr mf <> ins
        /\ compile 2 ins
           = Ok (ESum [((-1)%float, ESin (EVar 1)); (1%float, EVar 0)] 0%float)).
Proof.
  intros Hb H1 Hp Hg H. split; [| split].
  - assert (Hs : step expvars no_instr i m = step_binary expvars no_instr i m).
    { unfold step. destruct (is_binary_cases _ Hb) as [E | [E | [E | [E | E]]]];
        rewrite E; reflexivity. }
    rewrite Hs in H. unfold step_binary in H.
    apply bind_inv in H as (m1 & Htw & H).
    apply bind_inv in H as (u & _ & H).
    apply bind_inv in H as (m2 & Hd & H). injection H as <-.
    rewrite next_operator_instr, (dispatch_binary_instr _ _ _ _ Hd).
    assert (Hw : instr m1 = <[Z.to_nat i := 1%float]> (instr (set_vari (varcnt m) m))
                 /\ 0 <= i < Z.of_nat (length (instr (set_vari (varcnt m) m)))).
    { assert (A1 : args1 (set_vari (varcnt m) m) = EMPTY) by (destruct m; exact H1).
      assert (Ap : 0 <= psavprolst (set_vari (varcnt m) m)) by (destruct m; exact Hp).
      assert (Ag : arr_get (savprolst (set_vari (varcnt m) m))
                     (psavprolst (set_vari (varcnt m) m)) = Ok VAR)
        by (destruct m; exact Hg).
      destruct (take_waiting_variable i _ m1 A1 Ap Ag Htw) as (A & B & _).
      split; assumption. }
    destruct m. machine_simpl. exact Hw.
  - intros ev n j m0 m1. apply step_instr.
  - intros ins. eexists. split; [vm_compute; reflexivity |].
    split; [reflexivity |]. split; [discriminate | reflexivity].
Qed.

Lemma C9_flip_mark_in_the_input_witness :
  let ins := [op VAR; 0%float; op VAR; 1%float; op SIN; 0%float; op SUB; 0%float] in
  let ev := [EVar 0; EVar 1] in
  let m := machine_after ev ins [None; None] 7 in
  let m' := machine_after ev ins [None; None] 8 in
  (is_binary (state m) = true /\ args1 m = EMPTY /\ 0 <= psavprolst m
   /\ arr_get (savprolst m) (psavprolst m) = Ok VAR
   /\ step ev 8 7 m = Ok m')
  /\ instr m = ins
  /\ instr m' = <[Z.to_nat 7 := 1%float]> (instr m)
  /\ 0 <= 7 < Z.of_nat (length (instr m)).
Proof.
  intros ins ev m m'.
  assert (Hb : is_binary (state m) = true) by reflexivity.
  assert (H1 : args1 m = EMPTY) by reflexivity.
  assert (Hp : 0 <= psavprolst m) by (vm_compute; discriminate).
  assert (Hg : arr_get (savprolst m) (psavprolst m) = Ok VAR) by reflexivity.
  assert (Hs : step ev 8 7 m = Ok m') by (vm_compute; reflexivity).
  destruct (C9_flip_mark_in_the_input ev 8 7 m m' Hb H1 Hp Hg Hs) as ((A & B) & _ & _).
  split; [exact (conj Hb (conj H1 (conj Hp (conj Hg Hs)))) |].
  split; [reflexivity |]. split; assumption.
Defined.

(** ** The agreement of the process list with the two lists of operands *)

Lemma avoids_bind {A B : Type} (bad : mex_error -> bool) (P : A -> Prop)
    (Q : B -> Prop) (c : result A) (k : A -> result B) :
  avoids bad P c -> (forall a, P a -> avoids bad Q (k a)) -> avoids bad Q (bind c k).
Proof. destruct c as [a | e]; cbn; auto. Qed.

Lemma avoids_weaken {A : Type} (bad : mex_error -> bool) (P Q : A -> Prop)
    (c : result A) :
  (forall a, P a -> Q a) -> avoids bad P c -> avoids bad Q c.
Proof. destruct c as [a | e]; cbn; auto. Qed.

Lemma avoids_inv {A : Type} (bad : mex_error -> bool) (P : A -> Prop)
    (Q : Prop) (c : result A) :
  (forall a, c = Ok a -> P a) -> (forall e, c = Fail e -> bad e = false) ->
  avoids bad P c.
Proof. destruct c as [a | e]; cbn; auto. Qed.

Lemma avoids_arr_get {A : Type} (bad : mex_error -> bool) (a : list A) (i : Z) :
  bad UB_OutOfBounds = false -> avoids bad (fun _ => True) (arr_get a i).
Proof.
  intros Hb. unfold arr_get. destruct (i <? 0); [exact Hb |].
  destruct (a !! Z.to_nat i); [exact I | exact Hb].
Qed.

Lemma avoids_arr_set {A : Type} (bad : mex_error -> bool) (a : list A) (i : Z) (x : A) :
  bad UB_OutOfBounds = false ->
  avoids bad (fun a' => a' = <[Z.to_nat i := x]> a /\ 0 <= i < Z.of_nat (length a))
    (arr_set a i x).
Proof.
  intros Hb. destruct (arr_set a i x) as [a' | e] eqn:E.
  - exact (arr_set_value _ _ _ _ E).
  - unfold arr_set in E.
    destruct ((0 <=? i) && (i <? Z.of_nat (length a))); [discriminate |].
    injection E as <-. exact Hb.
Qed.

Lemma avoids_cast_int (bad : mex_error -> bool) (x : float) :
  bad UB_FloatToInt = false -> avoids bad (fun _ => True) (cast_int x).
Proof. intros Hb. unfold cast_int. destruct (double_to_int x); [exact I | exact Hb]. Qed.

Lemma avoids_fail_if_false (bad : mex_error -> bool) (c : bool) (e : mex_error) :
  c = false -> avoids bad (fun _ => True) (fail_if c e).
Proof. intros ->. exact I. Qed.

Lemma avoids_fail_if (bad : mex_error -> bool) (c : bool) (e : mex_error) :
  bad e = false -> avoids bad (fun _ => c = false) (fail_if c e).
Proof. intros He. destruct c; [exact He | reflexivity]. Qed.

(** One step of reasoning on a result built with [bind], for a concrete
    set of errors. *)
Ltac avoid_step :=
  match goal with
  | |- avoids _ _ (bind (arr_get _ _) _) =>
      apply (avoids_bind _ (fun _ => True)); [apply avoids_arr_get; reflexivity | intros ? _]
  | |- avoids _ _ (bind (arr_set _ _ _) _) =>
      eapply avoids_bind; [apply avoids_arr_set; reflexivity | cbv beta; intros ? [? ?]]
  | |- avoids _ _ (bind (cast_int _) _) =>
      apply (avoids_bind _ (fun _ => True)); [apply avoids_cast_int; reflexivity | intros ? _]
  | |- avoids _ _ (bind (fail_if _ _) _) =>
      eapply avoids_bind; [apply avoids_fail_if; reflexivity | cbv beta; intros _ ?]
  | |- avoids _ _ (bind (Ok _) _) => cbn [bind]
  | |- avoids _ _ (bind (bind _ _) _) =>
      apply (avoids_bind _ (fun _ => True)); [| intros ? _]
  | |- avoids _ _ (if ?c then _ else _) => destruct c eqn:?
  | |- avoids _ _ (match ?o with Some _ => _ | None => _ end) => destruct o
  | |- avoids _ _ (Fail _) => reflexivity
  | |- avoids _ (fun _ => True) (Ok _) => exact I
  end.

Ltac avoid_node :=
  unfold node_NUM_VAR, node_VAR_NUM, node_VAR_VAR, node_EXP_NUM, node_EXP_VAR,
    node_EXP_EXP, node_unary, expvar, expression, flipped, last_two_are_vars;
  repeat avoid_step.

Lemma occurrences_snoc (k x : Z) (l : list Z) :
  occurrences k (l ++ [x]) = occurrences k l + (if x =? k then 1 else 0).
Proof.
  unfold occurrences. rewrite count_occ_app. cbn [count_occ].
  destruct (Z.eq_dec x k) as [-> | Hne].
  - rewrite Z.eqb_refl. lia.
  - apply Z.eqb_neq in Hne. rewrite Hne. lia.
Qed.

(** A push on the process list (l.251, 266, 293, 309, 695, 713). *)
Lemma pending_push (l : list Z) (p x : Z) :
  -1 <= p -> p + 1 < Z.of_nat (length l) ->
  take (Z.to_nat (p + 1 + 1)) (<[Z.to_nat (p + 1) := x]> l)
  = take (Z.to_nat (p + 1)) l ++ [x].
Proof.
  intros H0 H1.
  replace (Z.to_nat (p + 1 + 1)) with (S (Z.to_nat (p + 1))) by lia.
  rewrite (take_S_r _ _ x) by (apply list_lookup_insert_eq; lia).
  rewrite take_insert_ge by lia. reflexivity.
Qed.

(** A pop (l.333): the entry read is the last one in use. *)
Lemma pending_pop (l : list Z) (p top : Z) :
  arr_get l p = Ok top ->
  take (Z.to_nat (p + 1)) l = take (Z.to_nat p) l ++ [top].
Proof.
  unfold arr_get. destruct (p <? 0) eqn:Hp; [discriminate |].
  apply Z.ltb_ge in Hp.
  destruct (l !! Z.to_nat p) as [x |] eqn:Hl; [| discriminate].
  intros [= <-]. replace (Z.to_nat (p + 1)) with (S (Z.to_nat p)) by lia.
  apply take_S_r, Hl.
Qed.

(** The registers that no push changes. *)
Lemma save_expression_keeps (m : machine) :
  lists_agree m -> Forall (fun k => 0 <= k) (saved_expressions m) -> 1 <= expno m ->
  avoids dead_message
    (fun m' => lists_agree m'
               /\ Forall (fun k => 0 <= k) (saved_expressions m')
               /\ state m' = state m /\ args0 m' = args0 m /\ args1 m' = args1 m
               /\ varcnt m' = varcnt m /\ expno m' = expno m /\ vari m' = vari m
               /\ psavvarlst m' = psavvarlst m)
    (save_expression m).
Proof.
  intros (Hb & Hall & Hv & He) Hs Hn. unfold save_expression.
  avoid_step. avoid_step. avoid_step. subst.
  assert (Hp : -1 <= psavexplst m) by (unfold occurrences in He; lia).
  unfold avoids, lists_agree, pending, saved_expressions in *.
  destruct m. machine_simpl.
  rewrite length_insert, !pending_push by lia.
  rewrite !Forall_app, !occurrences_snoc. change (EXP =? VAR) with false.
  change (EXP =? EXP) with true.
  split; [split; [lia | split; [split; [assumption |] | split; lia]] |].
  - constructor; [right; reflexivity | constructor].
  - split; [split; [assumption | constructor; [lia | constructor]] |].
    repeat split; reflexivity.
Qed.

Lemma save_variable_keeps (v : result Z) (m : machine) :
  avoids dead_message (fun _ => True) v ->
  lists_agree m ->
  avoids dead_message
    (fun m' => lists_agree m'
               /\ saved_expressions m' = saved_expressions m
               /\ state m' = state m /\ args0 m' = args0 m /\ args1 m' = args1 m
               /\ varcnt m' = varcnt m /\ expno m' = expno m /\ vari m' = vari m
               /\ psavvarlst m' = psavvarlst m + 1)
    (save_variable v m).
Proof.
  intros Hh (Hb & Hall & Hv & He). unfold save_variable.
  avoid_step. apply (avoids_bind _ (fun _ => True)); [exact Hh | intros x _].
  avoid_step. avoid_step. subst.
  unfold avoids, lists_agree, pending, saved_expressions in *.
  destruct m. machine_simpl.
  rewrite length_insert, pending_push by lia.
  rewrite Forall_app, !occurrences_snoc. change (VAR =? VAR) with true.
  change (VAR =? EXP) with false.
  split; [split; [lia | split; [split; [assumption |] | split; lia]] |].
  - constructor; [left; reflexivity | constructor].
  - repeat split; reflexivity.
Qed.

Lemma lists_agree_frame (m m' : machine) :
  savprolst m' = savprolst m -> psavprolst m' = psavprolst m ->
  psavvarlst m' = psavvarlst m -> psavexplst m' = psavexplst m ->
  lists_agree m -> lists_agree m'.
Proof.
  unfold lists_agree, pending. intros -> -> -> ->. exact id.
Qed.

(** The registers after an operand has moved into them. *)
Lemma consistent_set_args (a0 a1 : Z) (m : machine) :
  lists_agree m -> registers_agree m -> a1 <> EXP ->
  (a0 = VAR \/ a1 = VAR -> 0 <= varcnt m) ->
  (a0 = EXP -> 1 <= expno m) ->
  consistent (set_args a0 a1 m).
Proof.
  unfold consistent, lists_agree, registers_agree, pending, saved_expressions.
  destruct m. machine_simpl.
  intros Hl (R1 & R2 & R3 & R4) Ha Hv He.
  split; [exact Hl |]. split; [exact Ha |].
  split; [| intros _; exact He].
  split; [exact R1 |]. split; [| split; assumption].
  intros [H | [H | H]]; [apply Hv; left; exact H | apply Hv; right; exact H |].
  apply R2. right. right. exact H.
Qed.

(** The counters after one of the two pushes. *)
Lemma registers_agree_after_push (m m1 : machine) :
  registers_agree m -> Forall (fun k => 0 <= k) (saved_expressions m1) ->
  args0 m1 = args0 m -> args1 m1 = args1 m ->
  varcnt m1 = varcnt m -> expno m1 = expno m ->
  (0 <= psavvarlst m1 -> 0 <= varcnt m) ->
  registers_agree m1.
Proof.
  intros (R1 & R2 & R3 & R4) Hs E0 E1 Ev En Hp.
  unfold registers_agree. rewrite E0, E1, Ev, En.
  split; [exact R1 |]. split; [| split; assumption].
  intros [H | [H | H]]; [apply R2; auto | apply R2; auto | exact (Hp H)].
Qed.

Lemma registers_agree_frame (m m' : machine) :
  args0 m' = args0 m -> args1 m' = args1 m -> varcnt m' = varcnt m ->
  expno m' = expno m -> psavvarlst m' = psavvarlst m ->
  saved_expressions m' = saved_expressions m ->
  registers_agree m -> registers_agree m'.
Proof.
  unfold registers_agree. intros -> -> -> -> -> ->. exact id.
Qed.

Lemma step_NUM_keeps (i : Z) (m : machine) :
  consistent m -> state m <> EXIT ->
  avoids dead_message consistent (step_NUM i m).
Proof.
  intros (Hl & Ha & Hr & H4) Hst. specialize (H4 Hst).
  unfold step_NUM. avoid_step.
  assert (Hl' : lists_agree (set_state READ (set_num a m)))
    by (revert Hl; apply lists_agree_frame; destruct m; reflexivity).
  assert (Ha' : args1 (set_state READ (set_num a m)) <> EXP) by (destruct m; exact Ha).
  assert (Hr' : registers_agree (set_state READ (set_num a m)))
    by (revert Hr; apply registers_agree_frame; destruct m; reflexivity).
  assert (H4' : args0 (set_state READ (set_num a m)) = EXP
                -> 1 <= expno (set_state READ (set_num a m)))
    by (destruct m; exact H4).
  revert Hl' Ha' Hr' H4'. generalize (set_state READ (set_num a m)).
  clear m Hl Ha Hr H4 Hst. intros m Hl Ha Hr H4.
  pose proof Hr as (R1 & R2 & R3 & R5).
  assert (N : forall a b, (a =? b) = true -> a = b) by (intros x y; apply Z.eqb_eq).
  repeat avoid_step.
  - apply consistent_set_args; try assumption.
    + intros [H | H]; [discriminate H | apply R2; auto].
    + discriminate.
  - apply consistent_set_args; try assumption.
    + discriminate.
    + intros [H | H]; [apply R2; auto | discriminate H].
  - eapply avoids_bind; [apply save_expression_keeps; [exact Hl | exact R5 | auto] |].
    cbv beta. intros m1 (L1 & S1 & _ & E0 & E1 & Ev & En & _ & Ep).
    assert (Hr1 : registers_agree m1).
    { apply (registers_agree_after_push m); try assumption.
      rewrite Ep. intros P. apply R2. auto. }
    apply consistent_set_args; try assumption.
    + discriminate.
    + rewrite E1, Ev. intros [H | H]; [apply R2; auto | discriminate H].
    + rewrite E1. intros H. contradiction.
  - eapply avoids_bind; [apply save_variable_keeps; [exact I | exact Hl] |].
    cbv beta. intros m1 (L1 & S1 & _ & E0 & E1 & Ev & En & _ & Ep).
    assert (Hv : 0 <= varcnt m) by (apply R2; left; auto).
    assert (Hr1 : registers_agree m1).
    { apply (registers_agree_after_push m); try assumption.
      - rewrite S1. exact R5.
      - intros _. exact Hv. }
    apply consistent_set_args; try assumption.
    + discriminate.
    + rewrite Ev. intros _. exact Hv.
    + rewrite E1. intros H. contradiction.
Qed.

Lemma step_VAR_keeps (i : Z) (m : machine) :
  consistent m -> state m <> EXIT ->
  avoids dead_message consistent (step_VAR i m).
Proof.
  intros (Hl & Ha & Hr & H4) Hst. specialize (H4 Hst).
  unfold step_VAR.
  assert (Hl' : lists_agree (set_state READ (set_varcnt (varcnt m + 1) m)))
    by (revert Hl; apply lists_agree_frame; destruct m; reflexivity).
  assert (Ha' : args1 (set_state READ (set_varcnt (varcnt m + 1) m)) <> EXP)
    by (destruct m; exact Ha).
  assert (Hr' : registers_agree (set_state READ (set_varcnt (varcnt m + 1) m))).
  { destruct Hr as (R1 & R2 & R3 & R5). unfold registers_agree, saved_expressions in *.
    destruct m. machine_simpl. repeat split; try assumption; lia. }
  assert (Hv' : 0 <= varcnt (set_state READ (set_varcnt (varcnt m + 1) m))).
  { destruct Hr as (R1 & _). destruct m. machine_simpl. lia. }
  assert (H4' : args0 (set_state READ (set_varcnt (varcnt m + 1) m)) = EXP
                -> 1 <= expno (set_state READ (set_varcnt (varcnt m + 1) m)))
    by (destruct m; exact H4).
  revert Hl' Ha' Hr' Hv' H4'. generalize (set_state READ (set_varcnt (varcnt m + 1) m)).
  clear m Hl Ha Hr H4 Hst. intros m Hl Ha Hr Hv H4.
  pose proof Hr as (R1 & R2 & R3 & R5).
  assert (N : forall a b, (a =? b) = true -> a = b) by (intros x y; apply Z.eqb_eq).
  repeat avoid_step.
  - apply consistent_set_args; try assumption; [intros _; exact Hv | discriminate].
  - apply consistent_set_args; try assumption; [discriminate | intros _; exact Hv].
  - eapply avoids_bind; [apply save_expression_keeps; [exact Hl | exact R5 | auto] |].
    cbv beta. intros m1 (L1 & S1 & _ & E0 & E1 & Ev & En & _ & Ep).
    assert (Hr1 : registers_agree m1).
    { apply (registers_agree_after_push m); try assumption. intros _. exact Hv. }
    apply consistent_set_args; try assumption.
    + discriminate.
    + rewrite Ev. intros _. exact Hv.
    + rewrite E1. intros H. contradiction.
  - eapply avoids_bind.
    + apply save_variable_keeps; [| exact Hl]. avoid_node.
    + cbv beta. intros m1 (L1 & S1 & _ & E0 & E1 & Ev & En & _ & Ep).
      assert (Hr1 : registers_agree m1).
      { apply (registers_agree_after_push m); try assumption.
        - rewrite S1. exact R5.
        - intros _. exact Hv. }
      apply consistent_set_args; try assumption.
      * discriminate.
      * rewrite Ev. intros _. exact Hv.
      * rewrite E1. intros H. contradiction.
Qed.

(** The entry read from a list is one of its entries in use. *)
Lemma arr_get_in_use (l : list Z) (p x : Z) :
  arr_get l p = Ok x -> In x (take (Z.to_nat (p + 1)) l).
Proof.
  intros H. rewrite (pending_pop _ _ _ H). apply in_or_app. right. left. reflexivity.
Qed.

Lemma Forall_take_less (P : Z -> Prop) (l : list Z) (p : Z) :
  Forall P (take (Z.to_nat (p + 1)) l) -> Forall P (take (Z.to_nat (p - 1 + 1)) l).
Proof.
  intros H. replace (take (Z.to_nat (p - 1 + 1)) l)
    with (take (Z.to_nat (p - 1 + 1)) (take (Z.to_nat (p + 1)) l)).
  - apply Forall_take. exact H.
  - rewrite take_take. f_equal. lia.
Qed.

(** A waiting operand is taken: the machine agrees with the lists, or
    holds in its second register an expression that has left the process
    list and not yet the list of saved expressions (l.598). *)
Lemma take_waiting_keeps (i : Z) (m : machine) :
  lists_agree m -> args1 m <> EXP -> registers_agree m ->
  avoids dead_message
    (fun m1 => registers_agree m1 /\ state m1 = state m
               /\ ((lists_agree m1 /\ args1 m1 <> EXP)
                   \/ (args1 m1 = EXP /\ 0 <= psavexplst m1
                       /\ lists_agree
                            (set_savexplst (savexplst m1) (psavexplst m1 - 1) m1))))
    (take_waiting i m).
Proof.
  intros (Hb & Hall & Hv & He) Ha Hr. unfold take_waiting.
  destruct ((args1 m =? EMPTY) && (psavprolst m >=? 0)) eqn:C;
    [| split; [exact Hr | split; [reflexivity |];
                          left; exact (conj (conj Hb (conj Hall (conj Hv He))) Ha)]].
  apply andb_true_iff in C as [C1 C2]. rewrite Z.geb_leb in C2. apply Z.leb_le in C2.
  destruct (arr_get (savprolst m) (psavprolst m)) as [top | e] eqn:Hg; cbn [bind].
  2:{ pose proof (avoids_arr_get dead_message (savprolst m) (psavprolst m) eq_refl) as H.
      rewrite Hg in H. exact H. }
  pose proof (pending_pop _ _ _ Hg) as Hpop. unfold pending in *.
  rewrite Hpop in Hall, Hv, He. rewrite occurrences_snoc in Hv, He.
  apply Forall_app in Hall as [Hall Htop].
  apply Forall_inv in Htop.
  destruct Hr as (R1 & R2 & R3 & R5).
  destruct Htop as [-> | ->].
  - change (VAR =? VAR) with true in *. change (VAR =? EXP) with false in *. cbn iota.
    assert (Hp : 0 <= psavvarlst m) by (unfold occurrences in Hv; lia).
    assert (Hn : (psavvarlst (set_savprolst (savprolst m) (psavprolst m - 1) m) <? 0) = false).
    { destruct m. machine_simpl. apply Z.ltb_ge. exact Hp. }
    rewrite Hn. cbn [fail_if bind].
    avoid_step. avoid_step. avoid_step. subst.
    assert (Hc : 0 <= varcnt m) by (apply R2; auto).
    unfold avoids, registers_agree, lists_agree, pending, saved_expressions in *.
    destruct m as [st a0 a1 ins vc en vi se el pel vl pvl pl ppl nm ex]. machine_simpl.
    replace (ppl - 1 + 1) with ppl by lia.
    split; [split; [lia | split; [intros _; exact Hc | split; assumption]] |].
    split; [reflexivity |].
    left. split; [| discriminate]. repeat split; try lia; assumption.
  - change (EXP =? VAR) with false in *. change (EXP =? EXP) with true in *. cbn iota.
    assert (Hp : 0 <= psavexplst m) by (unfold occurrences in He; lia).
    assert (Hn : (psavexplst (set_savprolst (savprolst m) (psavprolst m - 1) m) <? 0) = false).
    { destruct m. machine_simpl. apply Z.ltb_ge. exact Hp. }
    rewrite Hn. cbn [fail_if bind].
    unfold avoids, registers_agree, lists_agree, pending, saved_expressions in *.
    destruct m as [st a0 a1 ins vc en vi se el pel vl pvl pl ppl nm ex]. machine_simpl.
    replace (ppl - 1 + 1) with ppl by lia.
    split.
    + split; [lia |]. split; [| split; assumption].
      intros [H | [H | H]]; [apply R2; auto | discriminate H | apply R2; auto].
    + split; [reflexivity |]. right. split; [reflexivity |]. split; [exact Hp |].
      repeat split; try lia; assumption.
Qed.

Lemma store_node_keeps (node : expr) (m : machine) :
  avoids dead_message
    (fun m' => args0 m' = EXP /\ args1 m' = EMPTY /\ savprolst m' = savprolst m
               /\ psavprolst m' = psavprolst m /\ psavvarlst m' = psavvarlst m
               /\ psavexplst m' = psavexplst m /\ savexplst m' = savexplst m
               /\ varcnt m' = varcnt m /\ expno m' = expno m /\ state m' = state m)
    (store_node node m).
Proof.
  unfold store_node. avoid_step. cbn [avoids].
  destruct m. repeat split; reflexivity.
Qed.

Lemma node_stored_keeps (c : result expr) (m : machine) :
  lists_agree m -> registers_agree m ->
  avoids dead_message (fun _ => True) c ->
  avoids dead_message stored (node <- c ;; store_node node m).
Proof.
  intros Hl (R1 & R2 & R3 & R5) Hc.
  apply (avoids_bind _ (fun _ => True)); [exact Hc | intros node _].
  eapply avoids_weaken; [| apply store_node_keeps].
  cbv beta. intros m1 (A0 & A1 & P1 & P2 & P3 & P4 & P5 & Ev & En & _).
  split; [revert Hl; apply lists_agree_frame; assumption |].
  split; [rewrite A1; discriminate |].
  unfold registers_agree, saved_expressions. rewrite A0, A1, P3, P4, P5, Ev, En.
  split; [exact R1 |]. split; [| split; assumption].
  intros [H | [H | H]]; [discriminate H | discriminate H | apply R2; auto].
Qed.

(** The default labels of the switches on the operator are not reached
    from the case of a binary operator. *)
Lemma binary_nodes_keep (expvars : list expr) (i : Z) (m : machine) :
  is_binary (state m) = true ->
  avoids dead_message (fun _ => True) (node_NUM_VAR expvars m)
  /\ avoids dead_message (fun _ => True) (node_VAR_NUM expvars m)
  /\ avoids dead_message (fun _ => True) (node_VAR_VAR expvars m)
  /\ avoids dead_message (fun _ => True) (node_EXP_NUM i m)
  /\ avoids dead_message (fun _ => True) (node_EXP_VAR expvars i m)
  /\ avoids dead_message (fun _ => True) (node_EXP_EXP i m).
Proof.
  intros Hb. unfold is_binary in Hb.
  repeat split;
    unfold node_NUM_VAR, node_VAR_NUM, node_VAR_VAR, node_EXP_NUM, node_EXP_VAR,
      node_EXP_EXP, expvar, expression, flipped;
    repeat first
      [ match goal with
        | |- avoids _ _ (Fail ErrOpNotImplemented) =>
            exfalso;
            repeat match goal with
                   | H : (state m =? _) = false |- _ => rewrite H in Hb; clear H
                   end;
            discriminate Hb
        end
      | avoid_step ].
Qed.

Lemma dispatch_binary_keeps (expvars : list expr) (i : Z) (m : machine) :
  is_binary (state m) = true ->
  registers_agree m ->
  (lists_agree m /\ args1 m <> EXP)
  \/ (args1 m = EXP /\ 0 <= psavexplst m
      /\ lists_agree (set_savexplst (savexplst m) (psavexplst m - 1) m)) ->
  avoids dead_message stored (dispatch_binary expvars i m).
Proof.
  intros Hbin Hr Hm. unfold dispatch_binary.
  destruct (binary_nodes_keep expvars i m Hbin) as (K1 & K2 & K3 & K4 & K5 & _).
  assert (S5 : forall c : result expr,
             args1 m <> EXP -> avoids dead_message (fun _ => True) c ->
             avoids dead_message stored (node <- c ;; store_node node m)).
  { intros c Hne Hc. destruct Hm as [[Hl _] | [Hm _]]; [| contradiction].
    apply node_stored_keeps; assumption. }
  assert (N : forall a b, (a =? b) = true -> a = b) by (intros a b; apply Z.eqb_eq).
  repeat match goal with
         | |- avoids _ _ (if ?c then _ else _) => destruct c eqn:?
         end;
    try reflexivity;
    try (apply S5;
         [ match goal with
           | H : (_ && (args1 m =? _)) = true |- _ =>
               apply andb_true_iff in H as [_ H]; apply N in H; rewrite H; discriminate
           end
         | assumption ]).
  match goal with
  | H : (_ && (args1 m =? EXP)) = true |- _ =>
      apply andb_true_iff in H as [_ H]; apply N in H; rename H into A1
  end.
  destruct Hm as [[_ Hne] | (_ & Hp & Hl)]; [contradiction |].
  destruct Hr as (R1 & R2 & R3 & R5).
  destruct (arr_get (savexplst m) (psavexplst m)) as [sv | e] eqn:Hg; cbn [bind].
  2:{ pose proof (avoids_arr_get dead_message (savexplst m) (psavexplst m) eq_refl) as H.
      rewrite Hg in H. exact H. }
  assert (Hsv : 0 <= sv).
  { rewrite Forall_forall in R5. apply R5. apply list_elem_of_In.
    exact (arr_get_in_use _ _ _ Hg). }
  replace ((sv =? EMPTY) || (sv <? 0)) with false
    by (symmetry; apply orb_false_iff; split;
        [apply Z.eqb_neq; unfold EMPTY; lia | apply Z.ltb_ge; exact Hsv]).
  cbn [fail_if bind].
  apply (avoids_bind _ (fun _ => True)).
  { assert (Hbin' : is_binary (state (set_savexp sv m)) = true) by (destruct m; exact Hbin).
    exact (proj2 (proj2 (proj2 (proj2 (proj2
             (binary_nodes_keep expvars i (set_savexp sv m) Hbin')))))). }
  intros node _.
  eapply avoids_bind; [apply store_node_keeps |].
  cbv beta. intros m1 (B0 & B1 & P1 & P2 & P3 & P4 & P5 & Ev & En & _).
  unfold avoids, stored, registers_agree, lists_agree, pending, saved_expressions in *.
  destruct m1, m. machine_simpl. subst.
  split; [exact Hl |]. split; [discriminate |].
  split; [exact R1 |]. split; [| split; [exact R3 | apply Forall_take_less; exact R5]].
  intros [H | [H | H]]; [discriminate H | discriminate H | apply R2; auto].
Qed.

Lemma next_operator_keeps (no_instr i : Z) (m : machine) :
  stored m -> consistent (next_operator no_instr i m).
Proof.
  unfold next_operator, stored, consistent, registers_agree, lists_agree, pending,
    saved_expressions.
  intros (Hl & Ha & (R1 & R2 & R3 & R5)).
  destruct (i =? no_instr - 1), m; machine_simpl.
  - split; [exact Hl |]. split; [exact Ha |]. split; [auto |].
    intros H. contradiction.
  - split; [exact Hl |]. split; [exact Ha |].
    split; [split; [exact R1 | split; [exact R2 | split; [lia | exact R5]]] |].
    intros _ _. lia.
Qed.

Lemma step_binary_keeps (expvars : list expr) (no_instr i : Z) (m : machine) :
  consistent m -> is_binary (state m) = true ->
  avoids dead_message consistent (step_binary expvars no_instr i m).
Proof.
  intros (Hl & Ha & Hr & _) Hbin. unfold step_binary.
  eapply avoids_bind.
  { apply take_waiting_keeps.
    - revert Hl. apply lists_agree_frame; destruct m; reflexivity.
    - destruct m. exact Ha.
    - revert Hr. apply registers_agree_frame; destruct m; reflexivity. }
  cbv beta. intros m1 (Hr1 & Hs1 & H1). avoid_step.
  assert (Hbin1 : is_binary (state m1) = true) by (rewrite Hs1; destruct m; exact Hbin).
  eapply avoids_bind; [apply dispatch_binary_keeps; [exact Hbin1 | exact Hr1 | exact H1] |].
  intros m2 H2. apply next_operator_keeps, H2.
Qed.

Lemma step_unary_keeps (expvars : list expr) (no_instr i : Z) (m : machine) :
  consistent m -> state m <> EXIT ->
  avoids dead_message consistent (step_unary expvars no_instr i m).
Proof.
  intros (Hl & Ha & Hr & H4) Hst. specialize (H4 Hst). unfold step_unary.
  assert (Hl' : lists_agree (set_vari (varcnt m) m))
    by (revert Hl; apply lists_agree_frame; destruct m; reflexivity).
  assert (Ha' : args1 (set_vari (varcnt m) m) <> EXP) by (destruct m; exact Ha).
  assert (Hr' : registers_agree (set_vari (varcnt m) m))
    by (revert Hr; apply registers_agree_frame; destruct m; reflexivity).
  assert (H4' : args0 (set_vari (varcnt m) m) = EXP -> 1 <= expno (set_vari (varcnt m) m))
    by (destruct m; exact H4).
  assert (Hvi : vari (set_vari (varcnt m) m) = varcnt (set_vari (varcnt m) m))
    by (destruct m; reflexivity).
  revert Hl' Ha' Hr' H4' Hvi. generalize (set_vari (varcnt m) m).
  clear m Hl Ha Hr H4 Hst. intros m Hl Ha Hr H4 Hvi.
  assert (N : forall a b, (a =? b) = true -> a = b) by (intros x y; apply Z.eqb_eq).
  avoid_step.
  apply (avoids_bind _ (fun m1 => stored m1 /\ vari m1 = varcnt m1)).
  { destruct ((args0 m =? EXP) && (args1 m =? VAR)) eqn:C;
      [| exact (conj (conj Hl (conj Ha Hr)) Hvi)].
    apply andb_true_iff in C as [C0 C1]. apply N in C0. apply N in C1.
    pose proof Hr as (R1 & R2 & R3 & R5).
    eapply avoids_bind; [apply save_expression_keeps; [exact Hl | exact R5 | auto] |].
    cbv beta. intros m1 (L1 & S1 & _ & E0 & E1 & Ev & En & Ei & Ep).
    assert (Hc : 0 <= varcnt m) by (apply R2; auto).
    unfold avoids, stored, registers_agree, lists_agree, pending, saved_expressions in *.
    destruct m1. machine_simpl. subst.
    split; [| exact Hvi]. split; [exact L1 |]. split; [discriminate |].
    split; [exact R1 |]. split; [intros _; exact Hc | split; assumption]. }
  intros m1 ((Hl1 & Ha1 & Hr1) & Hv1).
  apply (avoids_bind _ (fun m2 => stored m2 /\ vari m2 = varcnt m2)).
  { destruct ((args0 m1 =? VAR) && (args1 m1 =? VAR)) eqn:C;
      [| exact (conj (conj Hl1 (conj Ha1 Hr1)) Hv1)].
    apply andb_true_iff in C as [C0 C1]. apply N in C0. apply N in C1.
    pose proof Hr1 as (R1 & R2 & R3 & R5).
    eapply avoids_weaken; [| apply save_variable_keeps; [exact I | exact Hl1]].
    cbv beta. intros m2 (L2 & S2 & _ & E0 & E1 & Ev & En & Ei & Ep).
    assert (Hc : 0 <= varcnt m1) by (apply R2; auto).
    split; [| congruence]. split; [exact L2 |]. split; [congruence |].
    apply (registers_agree_after_push m1); try assumption.
    - rewrite S2. exact R5.
    - intros _. exact Hc. }
  intros m2 ((Hl2 & Ha2 & Hr2) & Hv2).
  apply (avoids_bind _ stored).
  { destruct (args0 m2 =? VAR) eqn:C0.
    - apply N in C0. pose proof Hr2 as (R1 & R2 & R3 & R5).
      assert (Hc : 0 <= varcnt m2) by (apply R2; auto).
      apply (avoids_bind _ (fun _ => True)).
      { apply avoids_fail_if_false. apply Z.ltb_ge. rewrite Hv2. exact Hc. }
      intros _ _. apply node_stored_keeps; [exact Hl2 | exact Hr2 | avoid_node].
    - destruct (args0 m2 =? EXP); [| reflexivity].
      apply node_stored_keeps; [exact Hl2 | exact Hr2 | avoid_node]. }
  intros m3 H3. apply next_operator_keeps, H3.
Qed.

Lemma is_operator_not_EXIT (s : Z) : is_binary s || is_unary s = true -> s <> EXIT.
Proof. intros H ->. discriminate H. Qed.

Lemma step_keeps (expvars : list expr) (no_instr i : Z) (m : machine) :
  consistent m -> avoids dead_message consistent (step expvars no_instr i m).
Proof.
  intros Hm. unfold step.
  destruct (state m =? READ) eqn:SR.
  { apply Z.eqb_eq in SR. avoid_step. avoid_step.
    destruct Hm as (Hl & Ha & Hr & H4).
    assert (H4' : args0 m = EXP -> 1 <= expno m)
      by (apply H4; rewrite SR; discriminate).
    unfold avoids, consistent, registers_agree, lists_agree, pending, saved_expressions in *.
    destruct m. machine_simpl. auto. }
  destruct (state m =? NUM) eqn:SN.
  { apply Z.eqb_eq in SN. apply step_NUM_keeps; [exact Hm | rewrite SN; discriminate]. }
  destruct (state m =? VAR) eqn:SV.
  { apply Z.eqb_eq in SV. apply step_VAR_keeps; [exact Hm | rewrite SV; discriminate]. }
  destruct (is_binary (state m)) eqn:Hb; [apply step_binary_keeps; [exact Hm | exact Hb] |].
  destruct (is_unary (state m)) eqn:Hu.
  { apply step_unary_keeps; [exact Hm |].
    apply is_operator_not_EXIT. rewrite Hu. apply orb_true_r. }
  repeat match goal with
         | |- avoids _ _ (if ?c then _ else _) => destruct c eqn:?
         end; try reflexivity. exact Hm.
Qed.

Lemma run_keeps (expvars : list expr) (no_instr : Z) (n : nat) (i : Z) (m : machine) :
  consistent m -> avoids dead_message consistent (run expvars no_instr n i m).
Proof.
  revert i m. induction n as [| n IH]; intros i m Hm; cbn [run].
  - exact Hm.
  - apply (avoids_bind _ consistent); [apply step_keeps, Hm |].
    intros m1 H1. apply IH, H1.
Qed.

Lemma consistent_initial (ins : list float) (ex : list (option expr)) :
  consistent (initial ins ex).
Proof.
  unfold consistent, registers_agree, lists_agree, pending, saved_expressions, initial.
  machine_simpl. rewrite length_replicate. unfold MAX_DEPTH.
  split; [split; [lia | split; [constructor | split; reflexivity]] |].
  split; [discriminate |].
  split; [| intros _ H; discriminate H].
  split; [lia |]. split; [| split; [lia | constructor]].
  intros [H | [H | H]]; [discriminate H | discriminate H | lia].
Qed.

Lemma avoids_index_instr (bad : mex_error -> bool) (ins : list float)
    (acc : result (Z * Z * list Z)) :
  bad UB_OutOfBounds = false -> bad UB_FloatToInt = false ->
  avoids bad (fun _ => True) acc ->
  avoids bad (fun _ => True) (fold_left index_step ins acc).
Proof.
  intros B1 B2. revert acc. induction ins as [| x ins IH]; intros acc Ha; [exact Ha |].
  cbn [fold_left]. apply IH. unfold index_step.
  apply (avoids_bind _ (fun _ => True)); [exact Ha | intros [[st j] varind] _].
  destruct (st =? READ); [exact I |]. destruct (st =? VAR); [| exact I].
  apply (avoids_bind _ (fun _ => True)); [apply avoids_cast_int, B2 | intros k _].
  eapply avoids_bind; [apply avoids_arr_set, B1 | intros; exact I].
Qed.

Lemma avoids_prescan (bad : mex_error -> bool) (ins : list float) :
  bad UB_OutOfBounds = false -> bad UB_FloatToInt = false ->
  avoids bad (fun _ => True) (prescan ins).
Proof.
  intros B1 B2. unfold prescan. destruct (count_instr ins) as [[st no_var] no_ops].
  apply (avoids_bind _ (fun _ => True)); [| intros [[st' j] varind] _; exact I].
  apply avoids_index_instr; [assumption | assumption | exact I].
Qed.

Lemma avoids_create_expvars (bad : mex_error -> bool) (nvars : Z) (varind : list Z) :
  bad ErrAssertVarIndex = false ->
  avoids bad (fun _ => True) (create_expvars nvars varind).
Proof.
  intros B. induction varind as [| k rest IH]; [exact I |].
  cbn [create_expvars].
  eapply avoids_bind; [apply avoids_fail_if, B | intros _ _].
  apply (avoids_bind _ (fun _ => True)); [exact IH | intros es _; exact I].
Qed.

Lemma build_keeps (nvars : Z) (ins : list float) :
  avoids dead_message consistent (build nvars ins).
Proof.
  unfold build.
  apply (avoids_bind _ (fun _ => True));
    [apply avoids_prescan; reflexivity | intros [[no_var no_ops] varind] _].
  apply (avoids_bind _ (fun _ => True));
    [apply avoids_create_expvars; reflexivity | intros expvars _].
  apply (avoids_bind _ (fun _ => True)).
  { unfold constant_shortcut. repeat avoid_step. }
  intros b _. apply (avoids_bind _ (fun _ => True)).
  { unfold variable_shortcut. repeat avoid_step. }
  intros c _. apply run_keeps, consistent_initial.
Qed.

Lemma length_by_kind (l : list Z) :
  Forall (fun k => k = VAR \/ k = EXP) l ->
  Z.of_nat (length l) = occurrences VAR l + occurrences EXP l.
Proof.
  unfold occurrences. induction 1 as [| k l Hk _ IH]; [reflexivity |].
  cbn [length count_occ].
  destruct Hk as [-> | ->].
  - destruct (Z.eq_dec VAR VAR) as [_ | N]; [| contradiction].
    destruct (Z.eq_dec VAR EXP) as [N | _]; [discriminate |]. lia.
  - destruct (Z.eq_dec EXP VAR) as [N | _]; [discriminate |].
    destruct (Z.eq_dec EXP EXP) as [_ | N]; [| contradiction]. lia.
Qed.

(** X1: the three lists of the main loop agree, and six messages are never
    given. When the build phase returns, the process list holds one entry
    for each saved variable and each saved expression, every entry in use
    is VAR or EXP, every saved expression is a slot of [exp] (not negative),
    and the second register does not hold EXP. No run of the build phase,
    on any stream, stops with "Process List indicates variable ...",
    "Process List indicates expression ...", "Unknown entry in process
    list.", "Error processing waiting expression, found empty index.",
    "Variable index is negative when creating fcn(var)." or "Operator not
    implemented yet". *)
Theorem process_list_agrees (nvars : Z) (ins : list float) :
  match build nvars ins with
  | Ok m =>
      psavprolst m = psavvarlst m + psavexplst m + 1
      /\ -1 <= psavvarlst m /\ -1 <= psavexplst m
      /\ Forall (fun k => k = VAR \/ k = EXP) (pending m)
      /\ occurrences VAR (pending m) = psavvarlst m + 1
      /\ occurrences EXP (pending m) = psavexplst m + 1
      /\ Forall (fun k => 0 <= k) (saved_expressions m)
      /\ args1 m <> EXP
  | Fail e =>
      e <> ErrNoWaitingVar /\ e <> ErrNoWaitingExp /\ e <> ErrUnknownProcess
      /\ e <> ErrWaitingExpEmpty /\ e <> ErrNegativeVarIndex
      /\ e <> ErrOpNotImplemented
  end.
Proof.
  pose proof (build_keeps nvars ins) as H.
  destruct (build nvars ins) as [m | e]; cbn [avoids] in H.
  - destruct H as ((Hb & Hall & Hv & He) & Ha & (_ & _ & _ & R5) & _).
    pose proof (length_by_kind _ Hall) as Hlen.
    unfold pending in Hlen at 1. rewrite length_take_le in Hlen by lia.
    unfold occurrences in *. repeat split; try assumption; lia.
  - repeat split; intros ->; discriminate.
Qed.

(** ** What one iteration does to the state, to [exp] and to [expno] *)

Lemma save_expression_core (m m' : machine) :
  save_expression m = Ok m' ->
  state m' = state m /\ exp m' = exp m /\ expno m' = expno m
  /\ args0 m' = args0 m /\ args1 m' = args1 m.
Proof.
  unfold save_expression. intros H.
  apply bind_inv in H as (u & _ & H).
  apply bind_inv in H as (el & _ & H).
  apply bind_inv in H as (pl & _ & H). injection H as <-.
  destruct m. repeat split; reflexivity.
Qed.

Lemma save_variable_core (v : result Z) (m m' : machine) :
  save_variable v m = Ok m' ->
  state m' = state m /\ exp m' = exp m /\ expno m' = expno m
  /\ args0 m' = args0 m /\ args1 m' = args1 m.
Proof.
  unfold save_variable. intros H.
  apply bind_inv in H as (u & _ & H).
  apply bind_inv in H as (x & _ & H).
  apply bind_inv in H as (vl & _ & H).
  apply bind_inv in H as (pl & _ & H). injection H as <-.
  destruct m. repeat split; reflexivity.
Qed.

Lemma operand_saved_core (c : result machine) (m m' : machine) (a : Z) :
  (forall m1, c = Ok m1 -> state m1 = state m /\ exp m1 = exp m /\ expno m1 = expno m
                           /\ args0 m1 = args0 m /\ args1 m1 = args1 m) ->
  (m1 <- c ;; Ok (set_args (args1 m1) a m1)) = Ok m' ->
  state m' = state m /\ exp m' = exp m /\ expno m' = expno m.
Proof.
  intros Hc H. apply bind_inv in H as (m1 & H1 & H). injection H as <-.
  destruct (Hc m1 H1) as (A & B & C & _). destruct m1. machine_simpl. auto.
Qed.

Lemma step_NUM_core (i : Z) (m m' : machine) :
  step_NUM i m = Ok m' ->
  state m' = READ /\ exp m' = exp m /\ expno m' = expno m.
Proof.
  unfold step_NUM. intros H. apply bind_inv in H as (x & _ & H).
  assert (E : state (set_state READ (set_num x m)) = READ
              /\ exp (set_state READ (set_num x m)) = exp m
              /\ expno (set_state READ (set_num x m)) = expno m)
    by (destruct m; repeat split; reflexivity).
  revert H E. generalize (set_state READ (set_num x m)). intros m0 H (E1 & E2 & E3).
  rewrite <- E1, <- E2, <- E3.
  destruct (args0 m0 =? EMPTY); [injection H as <-; destruct m0; auto |].
  destruct (args1 m0 =? EMPTY); [injection H as <-; destruct m0; auto |].
  destruct (args0 m0 =? EXP).
  { revert H. apply operand_saved_core. apply save_expression_core. }
  destruct (args0 m0 =? VAR); [| discriminate].
  revert H. apply operand_saved_core. apply save_variable_core.
Qed.

Lemma step_VAR_core (i : Z) (m m' : machine) :
  step_VAR i m = Ok m' ->
  state m' = READ /\ exp m' = exp m /\ expno m' = expno m.
Proof.
  unfold step_VAR.
  assert (E : state (set_state READ (set_varcnt (varcnt m + 1) m)) = READ
              /\ exp (set_state READ (set_varcnt (varcnt m + 1) m)) = exp m
              /\ expno (set_state READ (set_varcnt (varcnt m + 1) m)) = expno m)
    by (destruct m; repeat split; reflexivity).
  revert E. generalize (set_state READ (set_varcnt (varcnt m + 1) m)).
  intros m0 (E1 & E2 & E3) H.
  rewrite <- E1, <- E2, <- E3.
  destruct (args0 m0 =? EMPTY); [injection H as <-; destruct m0; auto |].
  destruct (args1 m0 =? EMPTY); [injection H as <-; destruct m0; auto |].
  destruct (args0 m0 =? EXP).
  { revert H. apply operand_saved_core. apply save_expression_core. }
  destruct (args0 m0 =? VAR); [| discriminate].
  revert H. apply operand_saved_core. apply save_variable_core.
Qed.

Lemma take_waiting_core (i : Z) (m m1 : machine) :
  take_waiting i m = Ok m1 ->
  state m1 = state m /\ exp m1 = exp m /\ expno m1 = expno m.
Proof.
  unfold take_waiting. intros H.
  destruct ((args1 m =? EMPTY) && (psavprolst m >=? 0));
    [| injection H as <-; auto].
  apply bind_inv in H as (toProcess & _ & H).
  destruct (toProcess =? VAR).
  - apply bind_inv in H as (u & _ & H).
    apply bind_inv in H as (v & _ & H).
    apply bind_inv in H as (u' & _ & H).
    apply bind_inv in H as (ins & _ & H). injection H as <-.
    destruct m. auto.
  - destruct (toProcess =? EXP); [| discriminate].
    apply bind_inv in H as (u & _ & H). injection H as <-.
    destruct m. auto.
Qed.

Lemma store_node_core (node : expr) (m m' : machine) :
  store_node node m = Ok m' ->
  state m' = state m
  /\ arr_set (exp m) (expno m) (Some node) = Ok (exp m')
  /\ expno m' = expno m.
Proof.
  unfold store_node. intros H.
  apply bind_inv in H as (ex & Hex & H). injection H as <-.
  rewrite Hex. destruct m. auto.
Qed.

Lemma dispatch_binary_core (expvars : list expr) (i : Z) (m m' : machine) :
  dispatch_binary expvars i m = Ok m' ->
  state m' = state m
  /\ (exists node, arr_set (exp m) (expno m) (Some node) = Ok (exp m'))
  /\ expno m' = expno m.
Proof.
  unfold dispatch_binary.
  repeat match goal with
         | |- (if ?c then _ else _) = _ -> _ => destruct c
         end;
    try discriminate;
    try (intros H; apply bind_inv in H as (node & _ & H);
         apply store_node_core in H as (A & B & C); eauto).
  intros H.
  apply bind_inv in H as (sv & _ & H).
  apply bind_inv in H as (u & _ & H).
  apply bind_inv in H as (node & _ & H).
  apply bind_inv in H as (m1 & Hst & H). injection H as <-.
  apply store_node_core in Hst as (A & B & C).
  destruct m1, m. machine_simpl. eauto.
Qed.

Lemma next_operator_core (no_instr i : Z) (m : machine) :
  exp (next_operator no_instr i m) = exp m
  /\ ((i = no_instr - 1 /\ state (next_operator no_instr i m) = EXIT
       /\ expno (next_operator no_instr i m) = expno m)
      \/ (i <> no_instr - 1 /\ state (next_operator no_instr i m) = READ
          /\ expno (next_operator no_instr i m) = expno m + 1)).
Proof.
  unfold next_operator. destruct (i =? no_instr - 1) eqn:E.
  - apply Z.eqb_eq in E. destruct m. auto.
  - apply Z.eqb_neq in E. destruct m. auto.
Qed.

Lemma node_unary_label (dflt : mex_error) (s : Z) (c : result expr) (node : expr) :
  node_unary dflt s c = Ok node -> s <> SQUARE.
Proof.
  unfold node_unary. intros H ->. discriminate H.
Qed.

Lemma step_unary_core (expvars : list expr) (no_instr i : Z) (m m' : machine) :
  step_unary expvars no_instr i m = Ok m' ->
  state m <> SQUARE
  /\ (exists node, arr_set (exp m) (expno m) (Some node) = Ok (exp m'))
  /\ ((i = no_instr - 1 /\ state m' = EXIT /\ expno m' = expno m)
      \/ (i <> no_instr - 1 /\ state m' = READ /\ expno m' = expno m + 1)).
Proof.
  unfold step_unary.
  assert (E : state (set_vari (varcnt m) m) = state m
              /\ exp (set_vari (varcnt m) m) = exp m
              /\ expno (set_vari (varcnt m) m) = expno m)
    by (destruct m; auto).
  revert E. generalize (set_vari (varcnt m) m). intros m0 (E1 & E2 & E3) H.
  rewrite <- E1, <- E2, <- E3. clear E1 E2 E3 m.
  apply bind_inv in H as (u & _ & H).
  apply bind_inv in H as (m1 & H1 & H).
  apply bind_inv in H as (m2 & H2 & H).
  apply bind_inv in H as (m3 & H3 & H). injection H as <-.
  assert (C1 : state m1 = state m0 /\ exp m1 = exp m0 /\ expno m1 = expno m0).
  { destruct ((args0 m0 =? EXP) && (args1 m0 =? VAR)); [| injection H1 as <-; auto].
    apply bind_inv in H1 as (m4 & Hs & H1). injection H1 as <-.
    apply save_expression_core in Hs as (A & B & C & _). destruct m4. auto. }
  assert (C2 : state m2 = state m1 /\ exp m2 = exp m1 /\ expno m2 = expno m1).
  { destruct ((args0 m1 =? VAR) && (args1 m1 =? VAR)); [| injection H2 as <-; auto].
    apply save_variable_core in H2 as (A & B & C & _). auto. }
  assert (C3 : state m2 <> SQUARE
               /\ state m3 = state m2
               /\ (exists node, arr_set (exp m2) (expno m2) (Some node) = Ok (exp m3))
               /\ expno m3 = expno m2).
  { destruct (args0 m2 =? VAR).
    - apply bind_inv in H3 as (u' & _ & H3).
      apply bind_inv in H3 as (node & Hn & H3).
      apply node_unary_label in Hn.
      apply store_node_core in H3 as (A & B & C). eauto.
    - destruct (args0 m2 =? EXP); [| discriminate].
      apply bind_inv in H3 as (node & Hn & H3).
      apply node_unary_label in Hn.
      apply store_node_core in H3 as (A & B & C). eauto. }
  destruct C1 as (A1 & B1 & D1), C2 as (A2 & B2 & D2), C3 as (N & A3 & B3 & D3).
  destruct (next_operator_core no_instr i m3) as (X & Y).
  rewrite X. rewrite B2, B1, D2, D1 in B3. rewrite A2, A1 in N.
  split; [exact N |]. split; [exact B3 |].
  rewrite D3, D2, D1 in Y. exact Y.
Qed.

Lemma step_binary_core (expvars : list expr) (no_instr i : Z) (m m' : machine) :
  step_binary expvars no_instr i m = Ok m' ->
  (exists node, arr_set (exp m) (expno m) (Some node) = Ok (exp m'))
  /\ ((i = no_instr - 1 /\ state m' = EXIT /\ expno m' = expno m)
      \/ (i <> no_instr - 1 /\ state m' = READ /\ expno m' = expno m + 1)).
Proof.
  unfold step_binary. intros H.
  apply bind_inv in H as (m1 & Htw & H).
  apply bind_inv in H as (u & _ & H).
  apply bind_inv in H as (m2 & Hd & H). injection H as <-.
  apply take_waiting_core in Htw as (A1 & B1 & D1).
  apply dispatch_binary_core in Hd as (A2 & B2 & D2).
  destruct (next_operator_core no_instr i m2) as (X & Y).
  rewrite X. rewrite B1, D1 in B2. rewrite D2, D1 in Y.
  destruct m. machine_simpl. auto.
Qed.

(** The four kinds of iteration. *)
Lemma step_shape (expvars : list expr) (no_instr i : Z) (m m' : machine) :
  step expvars no_instr i m = Ok m' ->
  (state m = READ
   /\ (exists x, arr_get (instr m) i = Ok x /\ cast_int x = Ok (state m'))
   /\ exp m' = exp m /\ expno m' = expno m /\ instr m' = instr m)
  \/ ((state m = NUM \/ state m = VAR)
      /\ state m' = READ /\ exp m' = exp m /\ expno m' = expno m)
  \/ (is_operator (state m) = true /\ state m <> SQUARE
      /\ (exists node, arr_set (exp m) (expno m) (Some node) = Ok (exp m'))
      /\ ((i = no_instr - 1 /\ state m' = EXIT /\ expno m' = expno m)
          \/ (i <> no_instr - 1 /\ state m' = READ /\ expno m' = expno m + 1)))
  \/ (state m = EXIT /\ m' = m).
Proof.
  unfold step, is_operator. intros H.
  destruct (state m =? READ) eqn:SR.
  { apply Z.eqb_eq in SR. left. split; [exact SR |].
    apply bind_inv in H as (x & Hx & H). apply bind_inv in H as (k & Hk & H).
    injection H as <-. destruct m. machine_simpl. eauto 6. }
  destruct (state m =? NUM) eqn:SN.
  { apply Z.eqb_eq in SN. right. left. split; [left; exact SN |].
    exact (step_NUM_core _ _ _ H). }
  destruct (state m =? VAR) eqn:SV.
  { apply Z.eqb_eq in SV. right. left. split; [right; exact SV |].
    exact (step_VAR_core _ _ _ H). }
  destruct (is_binary (state m)) eqn:Hb.
  { right. right. left. split; [reflexivity |].
    split; [intros E; rewrite E in Hb; discriminate Hb |].
    exact (step_binary_core _ _ _ _ _ H). }
  destruct (is_unary (state m)) eqn:Hu.
  { right. right. left. split; [reflexivity |].
    apply step_unary_core in H as (A & B & C). auto. }
  destruct ((state m =? MIN) || (state m =? MAX)); [discriminate |].
  destruct (state m =? TAN); [discriminate |].
  destruct (state m =? SIGN); [discriminate |].
  destruct (state m =? EXIT) eqn:SE; [| discriminate].
  apply Z.eqb_eq in SE. injection H as <-. right. right. right. auto.
Qed.

(** ** The root is written by the last iteration *)

Lemma arr_get_insert_ne {A : Type} (a : list A) (j k : Z) (x : A) :
  0 <= j -> j <> k -> arr_get (<[Z.to_nat j := x]> a) k = arr_get a k.
Proof.
  intros Hj Hne. unfold arr_get. destruct (k <? 0) eqn:Hk; [reflexivity |].
  apply Z.ltb_ge in Hk. rewrite list_lookup_insert_ne by lia. reflexivity.
Qed.

Lemma arr_get_after_set {A : Type} (a a' : list A) (i k : Z) (x : A) :
  arr_set a i x = Ok a' -> k <> i -> arr_get a' k = arr_get a k.
Proof.
  intros H Hne. apply arr_set_value in H as [-> Hr].
  apply arr_get_insert_ne; lia.
Qed.

Lemma unwritten_initial (ins : list float) (n : nat) :
  unwritten_from (initial ins (replicate n None)).
Proof.
  intros k e _. unfold initial. machine_simpl. unfold arr_get.
  destruct (k <? 0); [discriminate |].
  destruct (replicate n None !! Z.to_nat k) as [o |] eqn:E; [| discriminate].
  apply lookup_replicate in E as [-> _]. discriminate.
Qed.

Lemma unwritten_no_root (expvars : list expr) (m : machine) (root : expr) :
  unwritten_from m -> expression m (expno m) <> Ok root.
Proof.
  intros Hu H. unfold expression in H.
  apply bind_inv in H as (o & Ho & H). destruct o as [e |]; [| discriminate].
  exact (Hu (expno m) e (Z.le_refl _) Ho).
Qed.

(** An iteration other than the last one leaves the slots from [expno] on
    unwritten. *)
Lemma step_unwritten (expvars : list expr) (no_instr i : Z) (m m' : machine) :
  unwritten_from m -> step expvars no_instr i m = Ok m' ->
  (i = no_instr - 1 /\ is_operator (state m) = true /\ state m' = EXIT)
  \/ unwritten_from m'.
Proof.
  intros Hu H.
  destruct (step_shape _ _ _ _ _ H)
    as [(_ & _ & E1 & E2 & _) | [(_ & _ & E1 & E2) | [(Ho & _ & (node & Hn) & Hc) | (_ & ->)]]].
  - right. unfold unwritten_from. rewrite E1, E2. exact Hu.
  - right. unfold unwritten_from. rewrite E1, E2. exact Hu.
  - destruct Hc as [(Hi & Hs & _) | (Hi & Hs & He)]; [left; auto |].
    right. intros k e Hk. rewrite He in Hk.
    rewrite (arr_get_after_set _ _ _ _ _ Hn) by lia. apply Hu. lia.
  - right. exact Hu.
Qed.

Lemma run_unwritten (expvars : list expr) (no_instr : Z) (n : nat) (i : Z)
    (m m' : machine) :
  i + Z.of_nat n <= no_instr - 1 -> unwritten_from m ->
  run expvars no_instr n i m = Ok m' -> unwritten_from m'.
Proof.
  revert i m. induction n as [| n IH]; intros i m Hi Hu H; cbn [run] in H.
  - injection H as <-. exact Hu.
  - apply bind_inv in H as (m1 & H1 & H).
    destruct (step_unwritten _ _ _ _ _ Hu H1) as [(E & _) | Hu1]; [lia |].
    apply (IH (i + 1) m1); [lia | exact Hu1 | exact H].
Qed.

Lemma run_snoc (expvars : list expr) (no_instr : Z) (n : nat) (i : Z) (m : machine) :
  run expvars no_instr (S n) i m
  = (m' <- run expvars no_instr n i m ;; step expvars no_instr (i + Z.of_nat n) m').
Proof.
  revert i m. induction n as [| n IH]; intros i m.
  - cbn [run bind]. rewrite Z.add_0_r. destruct (step expvars no_instr i m); reflexivity.
  - change (run expvars no_instr (S (S n)) i m)
      with (m' <- step expvars no_instr i m ;; run expvars no_instr (S n) (i + 1) m').
    change (run expvars no_instr (S n) i m)
      with (m' <- step expvars no_instr i m ;; run expvars no_instr n (i + 1) m').
    destruct (step expvars no_instr i m) as [m1 | e]; [| reflexivity].
    cbn [bind]. rewrite IH.
    replace (i + 1 + Z.of_nat n) with (i + Z.of_nat (S n)) by lia. reflexivity.
Qed.

(** The build phase either takes one of the two short-circuits, or runs the
    main loop over the whole array from the initial machine. *)
Lemma build_inv (nvars : Z) (ins : list float) (m : machine) :
  build nvars ins = Ok m ->
  (length ins = 2%nat
   /\ exists a, arr_get ins 0 = Ok a /\ (deq a NUM = true \/ deq a VAR = true))
  \/ (exists (expvars : list expr) (n : nat),
        run expvars (Z.of_nat (length ins)) (length ins) 0
          (initial ins (replicate n None)) = Ok m).
Proof.
  unfold build. intros H.
  apply bind_inv in H as ([[no_var no_ops] varind] & _ & H).
  apply bind_inv in H as (expvars & _ & H).
  apply bind_inv in H as (b & Hb & H).
  apply bind_inv in H as (c & Hc & H).
  unfold constant_shortcut in Hb. unfold variable_shortcut in Hc.
  assert (R : b = (replicate (Z.to_nat (Z.max no_ops 1)) None, Z.of_nat (length ins)) ->
              c = b ->
              exists (expvars : list expr) (n : nat),
                run expvars (Z.of_nat (length ins)) (length ins) 0
                  (initial ins (replicate n None)) = Ok m).
  { intros -> ->. cbn [fst snd] in H. rewrite Nat2Z.id in H. eauto. }
  destruct (Z.of_nat (length ins) =? 2) eqn:E2.
  - apply Z.eqb_eq in E2.
    apply bind_inv in Hb as (a & Ha & Hb).
    destruct (deq a NUM) eqn:EN; [left; split; [lia | eauto] |].
    injection Hb as <-. cbn [fst snd] in Hc. rewrite E2 in Hc.
    change (2 =? 2) with true in Hc. cbn iota in Hc. rewrite Ha in Hc. cbn [bind] in Hc.
    destruct (deq a VAR) eqn:EV; [left; split; [lia | eauto] |].
    injection Hc as <-. right. apply R; [| rewrite E2]; reflexivity.
  - injection Hb as <-. cbn [fst snd] in Hc. rewrite E2 in Hc. injection Hc as <-.
    right. apply R; reflexivity.
Qed.

(** X2: unless the stream is one of the two-token streams of the
    short-circuits, a root exists only if the last iteration of the main
    loop ran the case of a binary operator or of a unary function, which
    wrote the slot [exp[expno]] and set the state to EXIT; no other
    iteration leaves a written slot at [expno]. A stream whose last
    iteration is a READ, a NUM or a VAR case has no root. *)
Theorem root_written_by_last_operator (nvars : Z) (ins : list float) (root : expr) :
  compile nvars ins = Ok root ->
  (length ins = 2%nat
   /\ exists a, arr_get ins 0 = Ok a /\ (deq a NUM = true \/ deq a VAR = true))
  \/ (exists (expvars : list expr) (n : nat) (m0 m : machine),
        run expvars (Z.of_nat (length ins)) (length ins - 1) 0
          (initial ins (replicate n None)) = Ok m0
        /\ is_operator (state m0) = true
        /\ step expvars (Z.of_nat (length ins)) (Z.of_nat (length ins) - 1) m0 = Ok m
        /\ build nvars ins = Ok m
        /\ state m = EXIT).
Proof.
  unfold compile. intros H. apply bind_inv in H as (m & Hb & Hr).
  destruct (build_inv _ _ _ Hb) as [S | (expvars & n & Hrun)]; [left; exact S | right].
  destruct (length ins) as [| len] eqn:El.
  { cbn [run] in Hrun. injection Hrun as <-.
    exfalso. exact (unwritten_no_root expvars _ _ (unwritten_initial ins n) Hr). }
  rewrite run_snoc in Hrun. apply bind_inv in Hrun as (m0 & H0 & Hs).
  assert (Hu : unwritten_from m0).
  { apply (run_unwritten expvars (Z.of_nat (S len)) len 0 (initial ins (replicate n None)));
      [lia | apply unwritten_initial | exact H0]. }
  replace (0 + Z.of_nat len) with (Z.of_nat (S len) - 1) in Hs by lia.
  destruct (step_unwritten _ _ _ _ _ Hu Hs) as [(_ & Ho & He) | Hu'].
  - exists expvars, n, m0, m. replace (S len - 1)%nat with len by lia. auto.
  - exfalso. exact (unwritten_no_root expvars _ _ Hu' Hr).
Qed.

Lemma root_written_by_last_operator_witness :
  let ins := [op VAR; 0%float; op NUM; 3%float; op ADD; 0%float] in
  let root := ESum [(1%float, EVar 0)] 3%float in
  compile 1 ins = Ok root
  /\ ((length ins = 2%nat
       /\ exists a, arr_get ins 0 = Ok a /\ (deq a NUM = true \/ deq a VAR = true))
      \/ (exists (expvars : list expr) (n : nat) (m0 m : machine),
            run expvars (Z.of_nat (length ins)) (length ins - 1) 0
              (initial ins (replicate n None)) = Ok m0
            /\ is_operator (state m0) = true
            /\ step expvars (Z.of_nat (length ins)) (Z.of_nat (length ins) - 1) m0 = Ok m
            /\ build 1 ins = Ok m
            /\ state m = EXIT)).
Proof.
  intros ins root.
  assert (H : compile 1 ins = Ok root) by reflexivity.
  exact (conj H (root_written_by_last_operator 1 ins root H)).
Defined.

(** ** Streams of pairs with the enumerators as opcodes *)

Lemma cast_op (k : Z) : NUM <= k <= SIGN -> cast_int (op k) = Ok k.
Proof.
  unfold NUM, SIGN. intros H.
  replace k with (Z.of_nat (Z.to_nat k)) by lia.
  assert (Hn : (Z.to_nat k < 19)%nat) by lia.
  revert Hn. generalize (Z.to_nat k). intros n Hn.
  do 19 (destruct n as [| n]; [reflexivity |]). lia.
Qed.

Lemma deq_op (k j : Z) :
  NUM <= k <= SIGN -> j = NUM \/ j = VAR -> deq (op k) j = true -> k = j.
Proof.
  unfold NUM, SIGN. intros H Hj.
  replace k with (Z.of_nat (Z.to_nat k)) by lia.
  assert (Hn : (Z.to_nat k < 19)%nat) by lia.
  revert Hn. generalize (Z.to_nat k). intros n Hn.
  do 19 (destruct n as [| n];
         [destruct Hj as [-> | ->]; intros E; first [reflexivity | discriminate E] |]).
  lia.
Qed.

Lemma encode_lookup (cs : list (Z * float)) (q : nat) (c : Z * float) :
  cs !! q = Some c -> arr_get (encode cs) (2 * Z.of_nat q) = Ok (op (fst c)).
Proof.
  revert q. induction cs as [| c0 rest IH]; intros q H; [discriminate H |].
  destruct q as [| q].
  - injection H as ->. reflexivity.
  - cbn in H. specialize (IH q H). unfold encode in *. cbn [map flatten fst snd].
    unfold arr_get in *.
    replace (2 * Z.of_nat (S q) <? 0) with false by (symmetry; apply Z.ltb_ge; lia).
    replace (2 * Z.of_nat q <? 0) with false in IH by (symmetry; apply Z.ltb_ge; lia).
    replace (Z.to_nat (2 * Z.of_nat (S q))) with (S (S (Z.to_nat (2 * Z.of_nat q)))) by lia.
    exact IH.
Qed.

Lemma length_encode (cs : list (Z * float)) :
  length (encode cs) = (2 * length cs)%nat.
Proof.
  unfold encode. induction cs as [| c rest IH]; [reflexivity |].
  cbn [map flatten length]. rewrite IH. lia.
Qed.

Lemma last_code_cons (c : Z * float) (rest : list (Z * float)) :
  rest <> [] -> last_code (c :: rest) = last_code rest.
Proof. unfold last_code. destruct rest; [contradiction | reflexivity]. Qed.

Lemma opcode_ok_operator (k : Z) :
  is_operator k = true -> k <> SQUARE -> opcode_ok k = true.
Proof.
  unfold is_operator, opcode_ok. intros H Hs.
  apply Z.eqb_neq in Hs. rewrite Hs. cbn [negb]. rewrite andb_true_r.
  rewrite <- !orb_assoc. rewrite H. rewrite !orb_true_r. reflexivity.
Qed.

(** The main loop on a stream of pairs: each pair takes two iterations, a
    READ and the case of its opcode; the array changes at most in the slots
    of the binary operators. *)
Lemma run_pairs (expvars : list expr) (no_instr : Z) (cs : list (Z * float)) :
  forall (i : Z) (m m' : machine),
    0 <= i -> state m = READ ->
    Forall (fun c => NUM <= fst c <= SIGN) cs ->
    (forall q c, cs !! q = Some c ->
                 arr_get (instr m) (i + 2 * Z.of_nat q) = Ok (op (fst c))) ->
    i + 2 * Z.of_nat (length cs) <= no_instr ->
    unwritten_from m ->
    run expvars no_instr (2 * length cs) i m = Ok m' ->
    Forall (fun c => opcode_ok (fst c) = true) cs
    /\ ((cs <> [] /\ state m' = EXIT /\ is_operator (last_code cs) = true)
        \/ (state m' = READ /\ unwritten_from m'))
    /\ (forall p, arr_get (instr m') p = arr_get (instr m) p
                  \/ exists q c, p = i + 2 * Z.of_nat q + 1 /\ cs !! q = Some c
                                 /\ is_binary (fst c) = true).
Proof.
  induction cs as [| c rest IH]; intros i m m' Hi Hs Hr Hins Hn Hu H.
  - cbn [length Nat.mul run] in H. injection H as <-.
    split; [constructor | split; [right; auto | intros p; left; reflexivity]].
  - replace (2 * length (c :: rest))%nat with (S (S (2 * length rest))) in H
      by (cbn [length]; lia).
    cbn [run] in H.
    apply bind_inv in H as (m1 & H1 & H). apply bind_inv in H as (m2 & H2 & H).
    apply Forall_cons in Hr as [Hc Hr].
    (* the READ *)
    assert (S1 : state m1 = fst c /\ exp m1 = exp m /\ expno m1 = expno m
                 /\ instr m1 = instr m).
    { destruct (step_shape _ _ _ _ _ H1)
        as [(_ & (x & Hx & Hk) & E1 & E2 & E3) | [([E | E] & _) | [(E & _) | (E & _)]]];
        try (rewrite Hs in E; discriminate E).
      specialize (Hins 0%nat c eq_refl). rewrite Z.mul_0_r, Z.add_0_r in Hins.
      rewrite Hins in Hx. injection Hx as <-. rewrite (cast_op _ Hc) in Hk.
      injection Hk as ->. auto. }
    destruct S1 as (K1 & X1 & N1 & I1).
    assert (Hu1 : unwritten_from m1) by (unfold unwritten_from; rewrite X1, N1; exact Hu).
    (* the case of the opcode *)
    assert (M2 : forall p, arr_get (instr m2) p = arr_get (instr m) p
                           \/ (p = i + 1 /\ is_binary (fst c) = true)).
    { intros p.
      destruct (step_instr _ _ _ _ _ H2) as [E | (Hb & _ & _ & _ & E)]; rewrite E, I1.
      - left. reflexivity.
      - destruct (Z.eq_dec p (i + 1)) as [-> | Hne].
        + right. rewrite K1 in Hb. auto.
        + left. apply arr_get_insert_ne; lia. }
    assert (I2 : forall q c', rest !! q = Some c' ->
                   arr_get (instr m2) (i + 1 + 1 + 2 * Z.of_nat q) = Ok (op (fst c'))).
    { intros q c' Hq. specialize (Hins (S q) c' Hq).
      replace (i + 2 * Z.of_nat (S q)) with (i + 1 + 1 + 2 * Z.of_nat q) in Hins by lia.
      destruct (M2 (i + 1 + 1 + 2 * Z.of_nat q)) as [E | [E _]]; [| lia].
      rewrite E. exact Hins. }
    assert (M : forall m3 : machine,
               (forall p, arr_get (instr m3) p = arr_get (instr m2) p
                          \/ exists q c', p = i + 1 + 1 + 2 * Z.of_nat q + 1
                                          /\ rest !! q = Some c'
                                          /\ is_binary (fst c') = true) ->
               forall p, arr_get (instr m3) p = arr_get (instr m) p
                         \/ exists q c', p = i + 2 * Z.of_nat q + 1
                                         /\ (c :: rest) !! q = Some c'
                                         /\ is_binary (fst c') = true).
    { intros m3 H3 p. destruct (H3 p) as [E | (q & c' & Ep & Eq & Eb)].
      - rewrite E. destruct (M2 p) as [E' | [-> Eb]]; [left; exact E' | right].
        exists 0%nat, c. split; [lia | auto].
      - right. exists (S q), c'. split; [lia | auto]. }
    cbn [length] in Hn.
    destruct (step_shape _ _ _ _ _ H2)
      as [(E & _) | [(E & S2 & X2 & N2) | [(Ho & Hq & (node & Hnode) & Hc2) | (E & _)]]].
    + rewrite K1 in E. unfold READ, NUM in *. lia.
    + assert (Hok : opcode_ok (fst c) = true).
      { rewrite K1 in E. unfold opcode_ok. destruct E as [-> | ->]; reflexivity. }
      assert (Hu2 : unwritten_from m2) by (unfold unwritten_from; rewrite X2, N2; exact Hu1).
      assert (Hi2 : 0 <= i + 1 + 1) by lia.
      assert (Hn2 : i + 1 + 1 + 2 * Z.of_nat (length rest) <= no_instr) by lia.
      destruct (IH (i + 1 + 1) m2 m' Hi2 S2 Hr I2 Hn2 Hu2 H) as (F & D & G).
      split; [constructor; assumption |]. split; [| exact (M m' G)].
      destruct D as [(Hne & D1 & D2) | D]; [left | right; exact D].
      split; [discriminate |]. rewrite last_code_cons by exact Hne. auto.
    + rewrite K1 in Ho, Hq.
      pose proof (opcode_ok_operator _ Ho Hq) as Hok.
      destruct Hc2 as [(Ei & Es & _) | (Ei & Es & En)].
      * assert (rest = []) by (destruct rest; [reflexivity | cbn [length] in Hn; lia]).
        subst rest. cbn [length Nat.mul run] in H. injection H as <-.
        split; [constructor; [assumption | constructor] |].
        split; [left; split; [discriminate |]; split; [exact Es | exact Ho] |].
        apply M. intros p. left. reflexivity.
      * assert (Hu2 : unwritten_from m2).
        { intros k e Hk. rewrite En in Hk.
          rewrite (arr_get_after_set _ _ _ _ _ Hnode) by lia. apply Hu1. lia. }
        assert (Hi2 : 0 <= i + 1 + 1) by lia.
        assert (Hn2 : i + 1 + 1 + 2 * Z.of_nat (length rest) <= no_instr) by lia.
        destruct (IH (i + 1 + 1) m2 m' Hi2 Es Hr I2 Hn2 Hu2 H) as (F & D & G).
        split; [constructor; assumption |]. split; [| exact (M m' G)].
        destruct D as [(Hne & D1 & D2) | D]; [left | right; exact D].
        split; [discriminate |]. rewrite last_code_cons by exact Hne. auto.
    + rewrite K1 in E. unfold EXIT, SIGN in *. lia.
Qed.

(** X3: for a stream of (opcode, slot) pairs whose opcodes are enumerators
    from NUM to SIGN, a root exists only if every opcode is NUM, VAR, one of
    the five binary operators or one of SQRT, EXPNT, LOG, ABS, SIN, COS, and
    only if the stream is a single NUM or VAR pair or ends with an
    operator. A stream that contains EXP, SQUARE, TAN, MIN, MAX or SIGN as an
    opcode never compiles. *)
Theorem only_supported_opcodes_compile (nvars : Z) (cs : list (Z * float)) :
  Forall (fun c => NUM <= fst c <= SIGN) cs ->
  is_ok (compile nvars (encode cs)) = true ->
  Forall (fun c => opcode_ok (fst c) = true) cs
  /\ ((exists c, cs = [c] /\ (fst c = NUM \/ fst c = VAR))
      \/ is_operator (last_code cs) = true).
Proof.
  intros Hr Hok. destruct (compile nvars (encode cs)) as [root |] eqn:Hc;
    [clear Hok | discriminate Hok].
  unfold compile in Hc. apply bind_inv in Hc as (m & Hb & Hroot).
  destruct (build_inv _ _ _ Hb) as [(Hl & a & Ha & Hd) | (expvars & n & Hrun)].
  - rewrite length_encode in Hl.
    destruct cs as [| c [| c' rest]]; try (cbn [length] in Hl; lia).
    apply Forall_cons in Hr as [Hc _].
    assert (E : a = op (fst c)).
    { pose proof (encode_lookup [c] 0 c eq_refl) as E.
      change (2 * Z.of_nat 0) with 0 in E. rewrite E in Ha. congruence. }
    subst a.
    assert (Hk : fst c = NUM \/ fst c = VAR).
    { destruct Hd as [Hd | Hd]; [left | right]; apply deq_op in Hd; auto. }
    split; [| left; eauto].
    constructor; [| constructor]. unfold opcode_ok. destruct Hk as [-> | ->]; reflexivity.
  - rewrite length_encode in Hrun.
    assert (G : Forall (fun c => opcode_ok (fst c) = true) cs
                /\ ((cs <> [] /\ state m = EXIT /\ is_operator (last_code cs) = true)
                    \/ (state m = READ /\ unwritten_from m))).
    { destruct (run_pairs expvars (Z.of_nat (2 * length cs)) cs 0
                  (initial (encode cs) (replicate n None)) m) as (G1 & G2 & _).
      - lia.
      - reflexivity.
      - exact Hr.
      - intros q c Hq. rewrite Z.add_0_l. exact (encode_lookup _ _ _ Hq).
      - lia.
      - apply unwritten_initial.
      - exact Hrun.
      - exact (conj G1 G2). }
    destruct G as [F D].
    + split; [exact F |].
      destruct D as [(_ & _ & D) | (_ & Hu)]; [right; exact D |].
      exfalso. exact (unwritten_no_root expvars _ _ Hu Hroot).
Qed.

Lemma only_supported_opcodes_compile_witness :
  let cs := [(VAR, 0%float); (SIN, 0%float); (NUM, 2%float); (MUL, 0%float)] in
  (Forall (fun c => NUM <= fst c <= SIGN) cs
   /\ is_ok (compile 1 (encode cs)) = true)
  /\ Forall (fun c => opcode_ok (fst c) = true) cs
  /\ ((exists c, cs = [c] /\ (fst c = NUM \/ fst c = VAR))
      \/ is_operator (last_code cs) = true).
Proof.
  intros cs.
  assert (Hr : Forall (fun c => NUM <= fst c <= SIGN) cs).
  { repeat constructor; cbn; unfold NUM, SIGN, VAR, SIN, MUL; lia. }
  assert (Hok : is_ok (compile 1 (encode cs)) = true) by reflexivity.
  exact (conj (conj Hr Hok) (only_supported_opcodes_compile 1 cs Hr Hok)).
Defined.

(** ** The nodes of the shortest streams *)

Lemma is_unary_cases (s : Z) :
  is_unary s = true ->
  s = SQUARE \/ s = SQRT \/ s = EXPNT \/ s = LOG \/ s = ABS \/ s = SIN \/ s = COS.
Proof.
  unfold is_unary. intros H.
  repeat (apply orb_true_iff in H as [H | H]);
    apply Z.eqb_eq in H; auto 8.
Qed.

(** The build phase of a stream of pairs whose variable slots are valid
    indices. *)
Lemma build_pairs (nvars : Z) (ps : list (float * float)) (ks : list Z) :
  var_indices ps = Ok ks ->
  Forall (fun k => 0 <= k < nvars) ks ->
  build nvars (flatten ps)
  = (let ex := replicate (Z.to_nat (Z.max (Z.of_nat (count_ops ps)) 1)) None in
     b <- constant_shortcut (flatten ps) ex (Z.of_nat (length (flatten ps))) ;;
     c <- variable_shortcut (map EVar ks) (flatten ps) (fst b) (snd b) ;;
     run (map EVar ks) (snd c) (Z.to_nat (snd c)) 0 (initial (flatten ps) (fst c))).
Proof.
  intros Hv Hk. unfold build. rewrite prescan_pairs, Hv. cbn [bind].
  rewrite (create_expvars_valid nvars ks Hk). reflexivity.
Qed.

Ltac pairs_of_stream :=
  match goal with
  | |- context [build _ [?a; ?b; ?c; ?d]] =>
      change [a; b; c; d] with (flatten [(a, b); (c, d)])
  | |- context [build _ [?a; ?b; ?c; ?d; ?e; ?f]] =>
      change [a; b; c; d; e; f] with (flatten [(a, b); (c, d); (e, f)])
  | |- context [build _ [?a; ?b; ?c; ?d; ?e; ?f; ?g; ?h]] =>
      change [a; b; c; d; e; f; g; h] with (flatten [(a, b); (c, d); (e, f); (g, h)])
  | |- context [build _ [?a; ?b; ?c; ?d; ?e; ?f; ?g; ?h; ?k; ?l]] =>
      change [a; b; c; d; e; f; g; h; k; l]
        with (flatten [(a, b); (c, d); (e, f); (g, h); (k, l)])
  end.

(** X4: a unary function applied to a variable, [VAR, t, f, pad], and to an
    expression, [VAR, t, NUM, c, MUL, pad', f, pad]. The root is the node
    of the function over the operand: the power 0.5 for SQRT, the
    exponential for EXPNT, the logarithm for LOG, the absolute value for
    ABS, the sine for SIN and the cosine for COS. The slot after the
    function has no influence. SQUARE, which has no label in the inner
    switches, stops with "Operator not implemented yet for FCN ( VAR )!" or
    "Operator not implemented yet for FCN ( EXP )!". *)
Theorem unary_function_nodes
    (nvars : Z) (t : float) (i : Z) (c pad pad' : float) :
  double_to_int t = Some i -> 0 <= i < nvars ->
  let of_variable := fun f : Z => compile nvars [op VAR; t; op f; pad] in
  let of_expression :=
    fun f : Z => compile nvars [op VAR; t; op NUM; c; op MUL; pad'; op f; pad] in
  let x := EVar i in
  let e := ESum [(c, EVar i)] 0%float in
  (of_variable SQRT = Ok (EPow x 0.5%float)
   /\ of_variable EXPNT = Ok (EExp x)
   /\ of_variable LOG = Ok (ELog x)
   /\ of_variable ABS = Ok (EAbs x)
   /\ of_variable SIN = Ok (ESin x)
   /\ of_variable COS = Ok (ECos x)
   /\ of_variable SQUARE = Fail ErrFcnVarNotImplemented)
  /\ (of_expression SQRT = Ok (EPow e 0.5%float)
      /\ of_expression EXPNT = Ok (EExp e)
      /\ of_expression LOG = Ok (ELog e)
      /\ of_expression ABS = Ok (EAbs e)
      /\ of_expression SIN = Ok (ESin e)
      /\ of_expression COS = Ok (ECos e)
      /\ of_expression SQUARE = Fail ErrFcnExpNotImplemented)
  /\ message ErrFcnVarNotImplemented
     = "Operator not implemented yet for FCN ( VAR )!"%string
  /\ message ErrFcnExpNotImplemented
     = "Operator not implemented yet for FCN ( EXP )!"%string.
Proof.
  intros Ht Hi of_variable of_expression x e.
  assert (Hk : Forall (fun k => 0 <= k < nvars) [i]) by (repeat constructor; lia).
  assert (V : forall o, deq o VAR = false ->
                var_indices [(op VAR, t); (o, pad)] = Ok [i]).
  { intros o Ho. cbn [var_indices]. change (deq (op VAR) VAR) with true. rewrite Ho.
    cbn iota. rewrite (cast_int_some _ _ Ht). reflexivity. }
  assert (W : forall o, deq o VAR = false ->
                var_indices [(op VAR, t); (op NUM, c); (op MUL, pad'); (o, pad)] = Ok [i]).
  { intros o Ho. cbn [var_indices]. change (deq (op VAR) VAR) with true.
    change (deq (op NUM) VAR) with false. change (deq (op MUL) VAR) with false.
    rewrite Ho. cbn iota. rewrite (cast_int_some _ _ Ht). reflexivity. }
  assert (A : forall f, is_unary f = true ->
                of_variable f = node_unary ErrFcnVarNotImplemented f (Ok x)
                /\ of_expression f = node_unary ErrFcnExpNotImplemented f (Ok e)).
  { intros f Hf. unfold of_variable, of_expression, compile.
    destruct (is_unary_cases _ Hf) as [-> | [-> | [-> | [-> | [-> | [-> | ->]]]]]];
      (split; pairs_of_stream;
       match goal with
       | |- context [[(op VAR, t); (op ?o, pad)]] =>
           rewrite (build_pairs nvars _ [i] (V (op o) eq_refl) Hk); reflexivity
       | |- context [(op ?o, pad)] =>
           rewrite (build_pairs nvars _ [i] (W (op o) eq_refl) Hk); reflexivity
       end). }
  split; [| split; [| split; reflexivity]].
  - repeat split; apply A; reflexivity.
  - repeat split; apply A; reflexivity.
Qed.

Lemma unary_function_nodes_witness :
  (double_to_int 2%float = Some 2 /\ 0 <= 2 < 3)
  /\ compile 3 [op VAR; 2%float; op LOG; 0%float] = Ok (ELog (EVar 2))
  /\ compile 3 [op VAR; 2%float; op NUM; 4%float; op MUL; 0%float; op COS; 7%float]
     = Ok (ECos (ESum [(4%float, EVar 2)] 0%float))
  /\ compile 3 [op VAR; 2%float; op SQUARE; 0%float] = Fail ErrFcnVarNotImplemented.
Proof.
  assert (Ht : double_to_int 2%float = Some 2) by reflexivity.
  assert (Hi : 0 <= 2 < 3) by lia.
  destruct (unary_function_nodes 3 2%float 2 4%float 0%float 0%float Ht Hi)
    as ((_ & _ & A & _ & _ & _ & B) & _).
  destruct (unary_function_nodes 3 2%float 2 4%float 7%float 0%float Ht Hi)
    as (_ & (_ & _ & _ & _ & _ & C & _) & _).
  exact (conj (conj Ht Hi) (conj A (conj C B))).
Defined.

(** X5: a binary operator on a variable and a constant. [x op c] and
    [c op x] give one node each: a sum of one term for ADD, SUB and MUL, a
    multiplication by the reciprocal for [x / c] (refused for [c = 0]), a
    coefficient times the power -1 for [c / x] (built for every [c], no
    test), a power for [x ^ c], and the POWER message for [c ^ x]. The slot
    after the operator has no influence. *)
Theorem variable_and_constant_nodes
    (nvars : Z) (t : float) (i : Z) (c pad : float) :
  double_to_int t = Some i -> 0 <= i < nvars ->
  let x_op_c o := compile nvars [op VAR; t; op NUM; c; op o; pad] in
  let c_op_x o := compile nvars [op NUM; c; op VAR; t; op o; pad] in
  x_op_c ADD = Ok (ESum [(1%float, EVar i)] c)
  /\ x_op_c SUB = Ok (ESum [(1%float, EVar i)] (- c)%float)
  /\ x_op_c MUL = Ok (ESum [(c, EVar i)] 0%float)
  /\ x_op_c DIV = (if PrimFloat.eqb c 0%float then Fail ErrDivisionByConstZero
                   else Ok (ESum [((1 / c)%float, EVar i)] 0%float))
  /\ x_op_c POW = Ok (EPow (EVar i) c)
  /\ c_op_x ADD = Ok (ESum [(1%float, EVar i)] c)
  /\ c_op_x SUB = Ok (ESum [((-1)%float, EVar i)] c)
  /\ c_op_x MUL = Ok (ESum [(c, EVar i)] 0%float)
  /\ c_op_x DIV = Ok (ESum [(c, EPow (EVar i) (-1)%float)] 0%float)
  /\ c_op_x POW = Fail ErrPowerVariable.
Proof.
  intros Ht Hi x_op_c c_op_x. subst x_op_c c_op_x. cbv beta.
  assert (Hk : Forall (fun k => 0 <= k < nvars) [i]) by (repeat constructor; lia).
  assert (V : forall o, deq o VAR = false ->
                var_indices [(op VAR, t); (op NUM, c); (o, pad)] = Ok [i]).
  { intros o Ho. cbn [var_indices]. change (deq (op VAR) VAR) with true.
    change (deq (op NUM) VAR) with false. rewrite Ho.
    cbn iota. rewrite (cast_int_some _ _ Ht). reflexivity. }
  assert (W : forall o, deq o VAR = false ->
                var_indices [(op NUM, c); (op VAR, t); (o, pad)] = Ok [i]).
  { intros o Ho. cbn [var_indices]. change (deq (op VAR) VAR) with true.
    change (deq (op NUM) VAR) with false. rewrite Ho.
    cbn iota. rewrite (cast_int_some _ _ Ht). reflexivity. }
  unfold compile.
  repeat match goal with
         | |- _ /\ _ => split
         end;
    pairs_of_stream;
    match goal with
    | |- context [[(op VAR, t); (op NUM, c); (op ?o, pad)]] =>
        rewrite (build_pairs nvars _ [i] (V (op o) eq_refl) Hk)
    | |- context [[(op NUM, c); (op VAR, t); (op ?o, pad)]] =>
        rewrite (build_pairs nvars _ [i] (W (op o) eq_refl) Hk)
    end;
    try reflexivity.
  vm_compute. destruct (PrimFloat.eqb c 0%float); reflexivity.
Qed.

Lemma variable_and_constant_nodes_witness :
  (double_to_int 1%float = Some 1 /\ 0 <= 1 < 2)
  /\ compile 2 [op VAR; 1%float; op NUM; 4%float; op DIV; 0%float]
     = Ok (ESum [((1 / 4)%float, EVar 1)] 0%float)
  /\ compile 2 [op NUM; 4%float; op VAR; 1%float; op DIV; 0%float]
     = Ok (ESum [(4%float, EPow (EVar 1) (-1)%float)] 0%float).
Proof.
  assert (Ht : double_to_int 1%float = Some 1) by reflexivity.
  assert (Hi : 0 <= 1 < 2) by lia.
  destruct (variable_and_constant_nodes 2 1%float 1 4%float 0%float Ht Hi)
    as (_ & _ & _ & A & _ & _ & _ & _ & B & _).
  exact (conj (conj Ht Hi) (conj A B)).
Defined.

(** X6: the slot after SUB or DIV is read as the flip mark when the first
    argument is an expression. For the stream of [(x + a) op b] the slot
    [q] after the operator decides the order of the operands: with [q]
    different from 1 the root is [(x + a) - b] or [(x + a) / b], with [q]
    equal to 1 it is [b - (x + a)] or [b / (x + a)], and the division by a
    constant zero is then not tested. The slot after ADD or MUL, and the
    slot [p] of the first operator, have no influence. *)
Theorem operator_slot_is_the_flip_mark
    (nvars : Z) (t : float) (i : Z) (a b p q : float) :
  double_to_int t = Some i -> 0 <= i < nvars ->
  let e := ESum [(1%float, EVar i)] a in
  let stream o := [op VAR; t; op NUM; a; op ADD; p; op NUM; b; op o; q] in
  compile nvars (stream SUB)
    = Ok (if deq q 1 then ESum [((-1)%float, e)] b
          else ESum [(1%float, e)] (- b)%float)
  /\ compile nvars (stream DIV)
     = (if deq q 1 then Ok (ESum [(b, EPow e (-1)%float)] 0%float)
        else if PrimFloat.eqb b 0%float then Fail ErrDivisionByConstZero
             else Ok (ESum [((1 / b)%float, e)] 0%float))
  /\ compile nvars (stream ADD) = Ok (ESum [(1%float, e)] b)
  /\ compile nvars (stream MUL) = Ok (ESum [(b, e)] 0%float).
Proof.
  intros Ht Hi e stream. subst e stream. cbv beta.
  assert (Hk : Forall (fun k => 0 <= k < nvars) [i]) by (repeat constructor; lia).
  assert (V : forall o, deq o VAR = false ->
                var_indices [(op VAR, t); (op NUM, a); (op ADD, p); (op NUM, b); (o, q)]
                = Ok [i]).
  { intros o Ho. cbn [var_indices]. change (deq (op VAR) VAR) with true.
    change (deq (op NUM) VAR) with false. change (deq (op ADD) VAR) with false.
    rewrite Ho. cbn iota. rewrite (cast_int_some _ _ Ht). reflexivity. }
  unfold compile.
  repeat match goal with
         | |- _ /\ _ => split
         end;
    pairs_of_stream;
    match goal with
    | |- context [(op ?o, q)] =>
        rewrite (build_pairs nvars _ [i] (V (op o) eq_refl) Hk)
    end;
    try reflexivity.
  - vm_compute.
    match goal with |- context [PrimFloat.eqb q ?x] => destruct (PrimFloat.eqb q x) end;
      reflexivity.
  - vm_compute.
    match goal with |- context [PrimFloat.eqb q ?x] => destruct (PrimFloat.eqb q x) end;
      [reflexivity |].
    destruct (PrimFloat.eqb b 0%float); reflexivity.
Qed.

Lemma operator_slot_is_the_flip_mark_witness :
  (double_to_int 0%float = Some 0 /\ 0 <= 0 < 1)
  /\ compile 1 [op VAR; 0%float; op NUM; 2%float; op ADD; 0%float;
                op NUM; 5%float; op SUB; 0%float]
     = Ok (ESum [(1%float, ESum [(1%float, EVar 0)] 2%float)] (-5)%float)
  /\ compile 1 [op VAR; 0%float; op NUM; 2%float; op ADD; 0%float;
                op NUM; 5%float; op SUB; 1%float]
     = Ok (ESum [((-1)%float, ESum [(1%float, EVar 0)] 2%float)] 5%float).
Proof.
  assert (Ht : double_to_int 0%float = Some 0) by reflexivity.
  assert (Hi : 0 <= 0 < 1) by lia.
  destruct (operator_slot_is_the_flip_mark 1 0%float 0 2%float 5%float 0%float 0%float Ht Hi)
    as (A & _).
  destruct (operator_slot_is_the_flip_mark 1 0%float 0 2%float 5%float 0%float 1%float Ht Hi)
    as (B & _).
  exact (conj (conj Ht Hi) (conj A B)).
Defined.

(** ** The unique variables of the older variant *)

Lemma arr_get_lookup {A : Type} (a : list A) (i : nat) :
  arr_get a (Z.of_nat i)
  = match a !! i with Some x => Ok x | None => Fail UB_OutOfBounds end.
Proof.
  unfold arr_get. replace (Z.of_nat i <? 0) with false by (symmetry; apply Z.ltb_ge; lia).
  rewrite Nat2Z.id. reflexivity.
Qed.

Lemma arr_set_insert {A : Type} (a : list A) (i : nat) (x : A) :
  (i < length a)%nat -> arr_set a (Z.of_nat i) x = Ok (<[i := x]> a).
Proof.
  intros H. unfold arr_set.
  replace ((0 <=? Z.of_nat i) && (Z.of_nat i <? Z.of_nat (length a))) with true.
  - rewrite Nat2Z.id. reflexivity.
  - symmetry. apply andb_true_iff. split; [apply Z.leb_le | apply Z.ltb_lt]; lia.
Qed.

(** The search returns the first position that holds the value, or none
    when no position below the bound holds it. *)
Lemma find_unique_spec (unqind varind : list Z) (i : nat) (v : Z) (n j : nat) :
  varind !! i = Some v -> (j + n <= length unqind)%nat ->
  (exists k, find_unique unqind varind (Z.of_nat i) n (Z.of_nat j) = Ok (Some (Z.of_nat k))
             /\ (j <= k < j + n)%nat /\ unqind !! k = Some v
             /\ forall k', (j <= k' < k)%nat -> unqind !! k' <> Some v)
  \/ (find_unique unqind varind (Z.of_nat i) n (Z.of_nat j) = Ok None
      /\ forall k, (j <= k < j + n)%nat -> unqind !! k <> Some v).
Proof.
  intros Hv. revert j. induction n as [| n IH]; intros j Hj.
  - right. split; [reflexivity | intros k Hk; lia].
  - cbn [find_unique]. rewrite !arr_get_lookup, Hv.
    destruct (unqind !! j) as [u |] eqn:Hu;
      [| apply lookup_ge_None in Hu; lia].
    cbn [bind]. destruct (u =? v) eqn:E.
    + apply Z.eqb_eq in E. subst u. left. exists j.
      split; [reflexivity |]. split; [lia |]. split; [exact Hu | intros k' Hk'; lia].
    + apply Z.eqb_neq in E.
      replace (Z.of_nat j + 1) with (Z.of_nat (S j)) by lia.
      destruct (IH (S j) ltac:(lia)) as [(k & Hf & Hk & Hl & Hmin) | (Hf & Hall)].
      * left. exists k. split; [exact Hf |]. split; [lia |]. split; [exact Hl |].
        intros k' Hk'. destruct (Nat.eq_dec k' j) as [-> | Hne].
        -- rewrite Hu. congruence.
        -- apply Hmin. lia.
      * right. split; [exact Hf |]. intros k Hk.
        destruct (Nat.eq_dec k j) as [-> | Hne].
        -- rewrite Hu. congruence.
        -- apply Hall. lia.
Qed.

Lemma take_snoc_insert {A : Type} (l : list A) (n : nat) (x : A) :
  (n < length l)%nat -> take (S n) (<[n := x]> l) = take n l ++ [x].
Proof.
  intros H. rewrite (take_S_r _ _ x) by (apply list_lookup_insert_eq; exact H).
  rewrite take_insert_ge by lia. reflexivity.
Qed.

Lemma unique_step_keeps (varind : list Z) (i : nat) (s : list Z * Z) :
  (i < length varind)%nat -> unique_upto varind i s ->
  exists s', unique_step varind (Z.of_nat i) s = Ok s' /\ unique_upto varind (S i) s'.
Proof.
  intros Hi. destruct s as [unq n]. intros (Hl & Hn & Hz & Hd & Hm).
  destruct (lookup_lt_is_Some_2 varind i Hi) as [v Hv].
  unfold unique_step. destruct (n =? 0) eqn:En.
  - apply Z.eqb_eq in En. subst n. specialize (Hz eq_refl). subst i.
    rewrite arr_get_lookup, Hv. cbn [bind].
    rewrite arr_set_insert by lia. cbn [bind].
    eexists. split; [reflexivity |]. unfold unique_upto.
    change (Z.to_nat (0 + 1)) with 1%nat.
    split; [rewrite length_insert; exact Hl |].
    split; [lia |]. split; [lia |].
    assert (Ht : take 1 (<[0%nat := v]> unq) = [v]).
    { destruct unq as [| u rest]; [cbn [length] in Hl; lia | reflexivity]. }
    split; [rewrite Ht; apply NoDup_singleton |].
    intros v'. split.
    + intros (j & Hj & Hlk). assert (j = 0)%nat by lia. subst j.
      rewrite list_lookup_insert_eq in Hlk by lia. exists 0%nat.
      split; [lia | congruence].
    + intros (k & Hk & Hlk). assert (k = 0)%nat by lia. subst k.
      exists 0%nat. split; [lia |]. rewrite list_lookup_insert_eq by lia. congruence.
  - apply Z.eqb_neq in En.
    destruct (find_unique_spec unq varind i v (Z.to_nat n) 0 Hv ltac:(lia))
      as [(k & Hf & Hk & Hlk & _) | (Hf & Hall)];
      change (Z.of_nat 0) with 0 in Hf; rewrite Hf; cbn [bind].
    + eexists. split; [reflexivity |]. unfold unique_upto.
      split; [exact Hl |]. split; [lia |]. split; [lia |]. split; [exact Hd |].
      intros v'. rewrite Hm. split.
      * intros (k' & Hk' & E). exists k'. split; [lia | exact E].
      * intros (k' & Hk' & E). destruct (Nat.eq_dec k' i) as [-> | Hne].
        -- apply Hm. exists k. split; [lia | congruence].
        -- exists k'. split; [lia | exact E].
    + rewrite arr_get_lookup, Hv. cbn [bind].
      pose proof (arr_set_insert unq (Z.to_nat n) v ltac:(lia)) as Es.
      rewrite Z2Nat.id in Es by lia. rewrite Es. cbn [bind].
      eexists. split; [reflexivity |]. unfold unique_upto.
      replace (Z.to_nat (n + 1)) with (S (Z.to_nat n)) by lia.
      split; [rewrite length_insert; exact Hl |].
      split; [lia |]. split; [lia |].
      split.
      * rewrite take_snoc_insert by lia. apply NoDup_app.
        split; [exact Hd |]. split; [| apply NoDup_singleton].
        intros x Hx Hxv. apply list_elem_of_singleton in Hxv. subst x.
        apply elem_of_take in Hx as (j & Hj & Hlt).
        exact (Hall j ltac:(lia) Hj).
      * intros v'. split.
        -- intros (j & Hj & E). destruct (Nat.eq_dec j (Z.to_nat n)) as [-> | Hne].
           ++ rewrite list_lookup_insert_eq in E by lia. exists i. split; [lia | congruence].
           ++ rewrite list_lookup_insert_ne in E by lia.
              assert (Hj' : (j < Z.to_nat n)%nat) by lia.
              destruct (proj1 (Hm v') (ex_intro _ j (conj Hj' E))) as (k & Hk & E').
              exists k. split; [lia | exact E'].
        -- intros (k & Hk & E). destruct (Nat.eq_dec k i) as [-> | Hne].
           ++ exists (Z.to_nat n). split; [lia |].
              rewrite list_lookup_insert_eq by lia. congruence.
           ++ assert (Hk' : (k < i)%nat) by lia.
              destruct (proj2 (Hm v') (ex_intro _ k (conj Hk' E))) as (j & Hj & E').
              exists j. split; [lia |]. rewrite list_lookup_insert_ne by lia. exact E'.
Qed.

Lemma unique_loop_keeps (varind : list Z) (n i : nat) (s : list Z * Z) :
  (i + n = length varind)%nat -> unique_upto varind i s ->
  exists s', unique_loop varind n (Z.of_nat i) s = Ok s'
             /\ unique_upto varind (length varind) s'.
Proof.
  revert i s. induction n as [| n IH]; intros i s Hi Hs.
  - exists s. split; [reflexivity |]. replace (length varind) with i by lia. exact Hs.
  - cbn [unique_loop].
    destruct (unique_step_keeps varind i s ltac:(lia) Hs) as (s1 & H1 & Hs1).
    rewrite H1. cbn [bind]. replace (Z.of_nat i + 1) with (Z.of_nat (S i)) by lia.
    apply IH; [lia | exact Hs1].
Qed.

Lemma expind_step_keeps (varind unqind : list Z) (no_unq : Z) (i : nat)
    (expind : list Z) :
  unique_upto varind (length varind) (unqind, no_unq) ->
  (i < length varind)%nat -> expind_upto varind unqind no_unq i expind ->
  exists expind', expind_step varind unqind no_unq (Z.of_nat i) expind = Ok expind'
                  /\ expind_upto varind unqind no_unq (S i) expind'.
Proof.
  intros (Hl & Hn & Hz & Hd & Hm) Hi (Hle & He).
  destruct (lookup_lt_is_Some_2 varind i Hi) as [v Hv].
  unfold expind_step.
  destruct (find_unique_spec unqind varind i v (Z.to_nat no_unq) 0 Hv ltac:(lia))
    as [(k & Hf & Hk & Hlk & _) | (Hf & Hall)];
    change (Z.of_nat 0) with 0 in Hf; rewrite Hf; cbn [bind].
  - rewrite arr_set_insert by lia. eexists. split; [reflexivity |].
    split; [rewrite length_insert; exact Hle |].
    intros i' v' Hi' Hv'. destruct (Nat.eq_dec i' i) as [-> | Hne].
    + exists k. rewrite list_lookup_insert_eq by lia.
      split; [reflexivity |]. split; [lia | congruence].
    + rewrite list_lookup_insert_ne by lia. apply He; [lia | exact Hv'].
  - exfalso.
    destruct (proj2 (Hm v) (ex_intro _ i (conj Hi Hv))) as (j & Hj & E).
    exact (Hall j ltac:(lia) E).
Qed.

Lemma expind_loop_keeps (varind unqind : list Z) (no_unq : Z) (n i : nat)
    (expind : list Z) :
  unique_upto varind (length varind) (unqind, no_unq) ->
  (i + n = length varind)%nat -> expind_upto varind unqind no_unq i expind ->
  exists expind', expind_loop varind unqind no_unq n (Z.of_nat i) expind = Ok expind'
                  /\ expind_upto varind unqind no_unq (length varind) expind'.
Proof.
  intros Hu. revert i expind. induction n as [| n IH]; intros i expind Hi He.
  - exists expind. split; [reflexivity |]. replace (length varind) with i by lia. exact He.
  - cbn [expind_loop].
    destruct (expind_step_keeps varind unqind no_unq i expind Hu ltac:(lia) He)
      as (e1 & H1 & He1).
    rewrite H1. cbn [bind]. replace (Z.of_nat i + 1) with (Z.of_nat (S i)) by lia.
    apply IH; [lia | exact He1].
Qed.

(** The second loop of the pre-scan keeps the length of [varind]. *)
Lemma index_instr_length (ins : list float) (st j : Z) (varind : list Z)
    (st' j' : Z) (varind' : list Z) :
  fold_left index_step ins (Ok (st, j, varind)) = Ok (st', j', varind') ->
  length varind' = length varind.
Proof.
  revert st j varind. induction ins as [| x ins IH]; intros st j varind H.
  - injection H as _ _ <-. reflexivity.
  - cbn [fold_left] in H. unfold index_step at 2 in H. cbn [bind] in H.
    destruct (st =? READ); [exact (IH _ _ _ H) |].
    destruct (st =? VAR); [| exact (IH _ _ _ H)].
    destruct (cast_int x) as [k | e]; cbn [bind] in H;
      [| rewrite index_step_fail in H; discriminate H].
    destruct (arr_set varind j k) as [v1 | e] eqn:Es; cbn [bind] in H;
      [| rewrite index_step_fail in H; discriminate H].
    apply arr_set_ok in Es as [_ El]. rewrite <- El. exact (IH _ _ _ H).
Qed.

Lemma count_instr_nonneg (ins : list float) (st a b : Z) :
  0 <= a -> 0 <= b ->
  let '(_, no_var, no_ops) := fold_left count_step ins (st, a, b) in
  0 <= no_var /\ 0 <= no_ops.
Proof.
  revert st a b. induction ins as [| x ins IH]; intros st a b Ha Hb.
  - cbn. lia.
  - cbn [fold_left]. unfold count_step at 2.
    destruct (st =? READ); [| apply IH; assumption].
    apply IH; [destruct (deq x VAR) | destruct (dgt x EXP)]; lia.
Qed.

Lemma prescan_length (ins : list float) (no_var no_ops : Z) (varind : list Z) :
  prescan ins = Ok (no_var, no_ops, varind) ->
  Z.of_nat (length varind) = no_var /\ 0 <= no_ops.
Proof.
  unfold prescan, count_instr, index_instr.
  pose proof (count_instr_nonneg ins READ 0 0 (Z.le_refl 0) (Z.le_refl 0)) as Hc.
  destruct (fold_left count_step ins (READ, 0, 0)) as [[st nv] no].
  intros H. apply bind_inv in H as ([[st' j] v] & Hf & H). injection H as <- <- <-.
  apply index_instr_length in Hf. rewrite Hf, length_replicate. lia.
Qed.

Lemma unique_variables_ok (varind : list Z) :
  exists (unqind : list Z) (no_unq : Z) (expind : list Z),
    unique_variables (Z.of_nat (length varind)) varind = Ok (unqind, no_unq, expind)
    /\ unique_upto varind (length varind) (unqind, no_unq)
    /\ expind_upto varind unqind no_unq (length varind) expind.
Proof.
  unfold unique_variables. rewrite Nat2Z.id.
  assert (H0 : unique_upto varind 0 (replicate (length varind) 0, 0)).
  { unfold unique_upto. split; [apply length_replicate |]. split; [lia |].
    split; [reflexivity |]. split; [apply NoDup_nil; exact I |].
    intros v. split; intros (j & Hj & _); lia. }
  destruct (unique_loop_keeps varind (length varind) 0 _ eq_refl H0) as ([unq n] & Hu & Hs).
  change (Z.of_nat 0) with 0 in Hu. rewrite Hu. cbn [bind].
  assert (E0 : expind_upto varind unq n 0 (replicate (length varind) 0)).
  { split; [apply length_replicate | intros i' v Hi'; lia]. }
  destruct (expind_loop_keeps varind unq n (length varind) 0 _ Hs eq_refl E0)
    as (expind & He & Hex).
  change (Z.of_nat 0) with 0 in He. rewrite He. cbn [bind].
  exists unq, n, expind. auto.
Qed.

(** X7: for the index vector of any stream the pre-scan accepts, the two
    loops of the older variant end without leaving their arrays; the
    [no_unq] first entries of [unqind] are distinct, they are exactly the
    values that occur in [varind], and every occurrence [i] gets in
    [expind[i]] a position below [no_unq] with
    [unqind[expind[i]] = varind[i]]. *)
Theorem unique_variables_round_trip
    (ins : list float) (no_var no_ops : Z) (varind : list Z) :
  prescan ins = Ok (no_var, no_ops, varind) ->
  exists (unqind : list Z) (no_unq : Z) (expind : list Z),
    unique_variables no_var varind = Ok (unqind, no_unq, expind)
    /\ 0 <= no_unq <= no_var
    /\ (no_unq = 0 <-> varind = [])
    /\ NoDup (take (Z.to_nat no_unq) unqind)
    /\ (forall v, (exists j, (j < Z.to_nat no_unq)%nat /\ unqind !! j = Some v)
                  <-> (exists i, varind !! i = Some v))
    /\ (forall i v, varind !! i = Some v ->
          exists k, expind !! i = Some (Z.of_nat k)
                    /\ (k < Z.to_nat no_unq)%nat /\ unqind !! k = Some v).
Proof.
  intros Hp. apply prescan_length in Hp as [Hlen _]. subst no_var.
  destruct (unique_variables_ok varind) as (unq & n & expind & Hu & Hs & (Hle & Hex)).
  exists unq, n, expind. split; [exact Hu |].
  destruct Hs as (Hl & Hn & Hz & Hd & Hm).
  split; [exact Hn |]. split; [| split; [exact Hd | split]].
  - split.
    + intros E. specialize (Hz E). destruct varind; [reflexivity | discriminate Hz].
    + intros ->. cbn [length] in Hn. lia.
  - intros v. rewrite Hm. split.
    + intros (k & _ & E). eauto.
    + intros (k & E). exists k. split; [exact (lookup_lt_Some _ _ _ E) | exact E].
  - intros i v Hv. apply Hex; [exact (lookup_lt_Some _ _ _ Hv) | exact Hv].
Qed.

Lemma unique_variables_round_trip_witness :
  let ins := [op VAR; 2%float; op VAR; 0%float; op ADD; 0%float;
              op VAR; 2%float; op MUL; 0%float] in
  prescan ins = Ok (3, 2, [2; 0; 2])
  /\ exists (unqind : list Z) (no_unq : Z) (expind : list Z),
       unique_variables 3 [2; 0; 2] = Ok (unqind, no_unq, expind)
       /\ 0 <= no_unq <= 3
       /\ (no_unq = 0 <-> [2; 0; 2] = [])
       /\ NoDup (take (Z.to_nat no_unq) unqind)
       /\ (forall v, (exists j, (j < Z.to_nat no_unq)%nat /\ unqind !! j = Some v)
                     <-> (exists i, [2; 0; 2] !! i = Some v))
       /\ (forall i v, [2; 0; 2] !! i = Some v ->
             exists k, expind !! i = Some (Z.of_nat k)
                       /\ (k < Z.to_nat no_unq)%nat /\ unqind !! k = Some v).
Proof.
  intros ins.
  assert (H : prescan ins = Ok (3, 2, [2; 0; 2])) by reflexivity.
  exact (conj H (unique_variables_round_trip ins 3 2 [2; 0; 2] H)).
Defined.

Lemma local_point_loop_keeps (xval : list float) (unqind : list Z) (total : nat) :
  (forall j u, (j < total)%nat -> unqind !! j = Some u ->
               0 <= u < Z.of_nat (length xval)) ->
  (total <= length unqind)%nat ->
  forall (n i : nat) (lxval : list float),
    (i + n = total)%nat -> (total <= length lxval)%nat ->
    (forall j u, (j < i)%nat -> unqind !! j = Some u ->
                 lxval !! j = xval !! Z.to_nat u) ->
    exists lxval',
      local_point_loop xval unqind n (Z.of_nat i) lxval = Ok lxval'
      /\ length lxval' = length lxval
      /\ forall j u, (j < total)%nat -> unqind !! j = Some u ->
                     lxval' !! j = xval !! Z.to_nat u.
Proof.
  intros Hval Hlen. induction n as [| n IH]; intros i lxval Hi Hl Hinv.
  - exists lxval. split; [reflexivity |]. split; [reflexivity |].
    intros j u Hj. apply Hinv. lia.
  - cbn [local_point_loop]. rewrite arr_get_lookup.
    destruct (lookup_lt_is_Some_2 unqind i ltac:(lia)) as [k Hk]. rewrite Hk. cbn [bind].
    assert (Hr : 0 <= k < Z.of_nat (length xval)) by (apply (Hval i); [lia | exact Hk]).
    pose proof (arr_get_lookup xval (Z.to_nat k)) as Eg.
    rewrite Z2Nat.id in Eg by lia. rewrite Eg.
    destruct (lookup_lt_is_Some_2 xval (Z.to_nat k) ltac:(lia)) as [x Hx].
    rewrite Hx. cbn [bind]. rewrite arr_set_insert by lia. cbn [bind].
    replace (Z.of_nat i + 1) with (Z.of_nat (S i)) by lia.
    destruct (IH (S i) (<[i := x]> lxval)) as (lx & H1 & H2 & H3).
    + lia.
    + rewrite length_insert. exact Hl.
    + intros j u Hj Hu. destruct (Nat.eq_dec j i) as [-> | Hne].
      * rewrite list_lookup_insert_eq by lia. congruence.
      * rewrite list_lookup_insert_ne by lia. apply Hinv; [lia | exact Hu].
    + exists lx. split; [exact H1 |]. split; [| exact H3].
      rewrite H2. apply length_insert.
Qed.

(** X8: when every index of [varind] is an index of the validation point,
    the local point of the older variant is built without leaving an array,
    and every occurrence of a variable reads from it the entry of the
    validation point that its own index names:
    [lxval[expind[i]] = xval[varind[i]]]. *)
Theorem local_point_agrees
    (ins : list float) (no_var no_ops : Z) (varind unqind : list Z) (no_unq : Z)
    (expind : list Z) (xval : list float) :
  prescan ins = Ok (no_var, no_ops, varind) ->
  unique_variables no_var varind = Ok (unqind, no_unq, expind) ->
  Forall (fun v => 0 <= v < Z.of_nat (length xval)) varind ->
  exists lxval : list float,
    local_point xval unqind no_unq no_var = Ok lxval
    /\ length lxval = length varind
    /\ forall i v e, varind !! i = Some v -> expind !! i = Some e ->
         arr_get lxval e = arr_get xval v.
Proof.
  intros Hp Hu Hval. apply prescan_length in Hp as [Hlen _]. subst no_var.
  destruct (unique_variables_ok varind) as (unq & n & ex & Hu' & Hs & (Hle & Hex)).
  rewrite Hu in Hu'. injection Hu' as <- <- <-.
  destruct Hs as (Hl & Hn & Hz & Hd & Hm).
  unfold local_point. rewrite Nat2Z.id.
  destruct (local_point_loop_keeps xval unqind (Z.to_nat no_unq)) with
    (n := Z.to_nat no_unq) (i := 0%nat) (lxval := replicate (length varind) 0%float)
    as (lx & H1 & H2 & H3).
  - intros j u Hj Hju.
    destruct (proj1 (Hm u) (ex_intro _ j (conj Hj Hju))) as (k & _ & Hk).
    rewrite Forall_forall in Hval. apply Hval.
    exact (list_elem_of_lookup_2 _ _ _ Hk).
  - lia.
  - lia.
  - rewrite length_replicate. lia.
  - intros j u Hj. lia.
  - change (Z.of_nat 0) with 0 in H1. exists lx. split; [exact H1 |].
    split; [rewrite H2; apply length_replicate |].
    intros i v e Hv He.
    destruct (Hex i v (lookup_lt_Some _ _ _ Hv) Hv) as (k & Hk & Hkn & Hkv).
    rewrite Hk in He. injection He as <-.
    rewrite arr_get_lookup, (H3 k v Hkn Hkv).
    assert (Hr : 0 <= v < Z.of_nat (length xval)).
    { rewrite Forall_forall in Hval. apply Hval.
      exact (list_elem_of_lookup_2 _ _ _ Hv). }
    pose proof (arr_get_lookup xval (Z.to_nat v)) as Eg.
    rewrite Z2Nat.id in Eg by lia. rewrite Eg. reflexivity.
Qed.

Lemma local_point_agrees_witness :
  let ins := [op VAR; 2%float; op VAR; 0%float; op ADD; 0%float;
              op VAR; 2%float; op MUL; 0%float] in
  let xval := [5%float; 6%float; 7%float] in
  (prescan ins = Ok (3, 2, [2; 0; 2])
   /\ unique_variables 3 [2; 0; 2] = Ok ([2; 0; 0], 2, [0; 1; 0])
   /\ Forall (fun v => 0 <= v < Z.of_nat (length xval)) [2; 0; 2])
  /\ exists lxval : list float,
       local_point xval [2; 0; 0] 2 3 = Ok lxval
       /\ length lxval = length [2; 0; 2]
       /\ forall i v e, [2; 0; 2] !! i = Some v -> [0; 1; 0] !! i = Some e ->
            arr_get lxval e = arr_get xval v.
Proof.
  intros ins xval.
  assert (Hp : prescan ins = Ok (3, 2, [2; 0; 2])) by reflexivity.
  assert (Hu : unique_variables 3 [2; 0; 2] = Ok ([2; 0; 0], 2, [0; 1; 0])) by reflexivity.
  assert (Hv : Forall (fun v => 0 <= v < Z.of_nat (length xval)) [2; 0; 2]).
  { repeat constructor; cbn; lia. }
  exact (conj (conj Hp (conj Hu Hv))
           (local_point_agrees ins 3 2 [2; 0; 2] [2; 0; 0] 2 [0; 1; 0] xval Hp Hu Hv)).
Defined.

(** ** The nonlinear section of the caller *)

Lemma arr_get_middle {A : Type} (pre post : list A) (x : A) :
  arr_get (pre ++ x :: post) (Z.of_nat (length pre)) = Ok x.
Proof.
  rewrite arr_get_lookup. rewrite lookup_app_r by lia.
  rewrite Nat.sub_diag. reflexivity.
Qed.

(** The loop over the bounds replaces every infinite lower bound by
    [-SCIPinfinity] and every infinite upper bound by [SCIPinfinity]. *)
Lemma clamp_bounds_from (inf : float) (cl cu prel preu : list float) :
  length cl = length cu -> length prel = length preu ->
  clamp_bounds inf (length cl) (Z.of_nat (length prel)) (prel ++ cl, preu ++ cu)
  = Ok (prel ++ map (fun x => if PrimFloat.is_infinity x then (- inf)%float else x) cl,
        preu ++ map (fun x => if PrimFloat.is_infinity x then inf else x) cu).
Proof.
  revert cu prel preu. induction cl as [| lo cl IH]; intros cu prel preu Hl Hp.
  - destruct cu; [reflexivity | discriminate Hl].
  - destruct cu as [| hi cu]; [discriminate Hl |].
    cbn [length clamp_bounds map]. rewrite arr_get_middle. cbn [bind].
    assert (E1 : (if PrimFloat.is_infinity lo
                  then arr_set (prel ++ lo :: cl) (Z.of_nat (length prel)) (- inf)%float
                  else Ok (prel ++ lo :: cl))
                 = Ok (prel ++ (if PrimFloat.is_infinity lo then (- inf)%float else lo) :: cl)).
    { destruct (PrimFloat.is_infinity lo); [apply arr_set_middle | reflexivity]. }
    rewrite E1. cbn [bind]. rewrite Hp, arr_get_middle. cbn [bind].
    assert (E2 : (if PrimFloat.is_infinity hi
                  then arr_set (preu ++ hi :: cu) (Z.of_nat (length preu)) inf
                  else Ok (preu ++ hi :: cu))
                 = Ok (preu ++ (if PrimFloat.is_infinity hi then inf else hi) :: cu)).
    { destruct (PrimFloat.is_infinity hi); [apply arr_set_middle | reflexivity]. }
    rewrite E2. cbn [bind].
    specialize (IH cu (prel ++ [if PrimFloat.is_infinity lo then (- inf)%float else lo])
                   (preu ++ [if PrimFloat.is_infinity hi then inf else hi])).
    rewrite !length_app in IH. cbn [length] in IH.
    rewrite <- !app_assoc in IH. cbn [app] in IH.
    replace (Z.of_nat (length preu) + 1) with (Z.of_nat (length prel + 1)) by lia.
    apply IH; [injection Hl as Hl; exact Hl | lia].
Qed.

Lemma clamp_bounds_map (inf : float) (cl cu : list float) :
  length cl = length cu ->
  clamp_bounds inf (length cl) 0 (cl, cu)
  = Ok (map (fun x => if PrimFloat.is_infinity x then (- inf)%float else x) cl,
        map (fun x => if PrimFloat.is_infinity x then inf else x) cu).
Proof. intros H. exact (clamp_bounds_from inf cl cu [] [] H eq_refl). Qed.

(** With the expected value at hand, the call and its check are the check
    of one returned value. *)
Lemma call_and_check_read (L : libm) (isFP : float -> bool) (s : session)
    (ins : list float) (lhs rhs : float) (xval : option (list float)) (c : float)
    (nlno : Z) (isObj : bool) :
  call_and_check L isFP s ins lhs rhs xval (Ok c) nlno isObj
  = add_and_check L isFP s ins lhs rhs xval c nlno isObj.
Proof.
  unfold call_and_check, add_and_check.
  destruct (addNonlinearCon L (sess_problem s) ins lhs rhs xval nlno isObj)
    as [[p' cval] | e]; [| reflexivity].
  cbn [bind]. destruct xval; reflexivity.
Qed.

(** What a call that returns has done. *)
Lemma call_and_check_inv (L : libm) (isFP : float -> bool) (s s' : session)
    (ins : list float) (lhs rhs : float) (xval : option (list float))
    (expected : result float) (nlno : Z) (isObj : bool) :
  call_and_check L isFP s ins lhs rhs xval expected nlno isObj = Ok s' ->
  (exists root,
     compile (prob_nvars (sess_problem s)) ins = Ok root
     /\ sess_problem s' = emit isObj nlno lhs rhs root (sess_problem s))
  /\ (xval <> None -> is_ok expected = true)
  /\ ((sess_ts s' = sess_ts s /\ sess_warnings s' = sess_warnings s)
      \/ (xval <> None /\ sess_ts s' = 0
          /\ exists err, sess_warnings s' = sess_warnings s ++ [(isObj, nlno, err)])).
Proof.
  unfold call_and_check, addNonlinearCon. intros H.
  apply bind_inv in H as ([p' cval] & Ha & H).
  apply bind_inv in Ha as (root & Hc & Ha).
  apply bind_inv in Ha as (fval & _ & Ha). injection Ha as <- <-.
  split; [exists root; split; [exact Hc |] |].
  - destruct xval as [pt |].
    + apply bind_inv in H as (cv & _ & H).
      destruct (isFP _); injection H as <-; reflexivity.
    + injection H as <-. reflexivity.
  - destruct xval as [pt |].
    + apply bind_inv in H as (cv & Hcv & H). split; [intros _; rewrite Hcv; reflexivity |].
      destruct (isFP _); injection H as <-; cbn [sess_ts sess_warnings].
      * right. split; [discriminate |]. split; [reflexivity | eauto].
      * left. auto.
    + injection H as <-. split; [intros N; contradiction |]. left. auto.
Qed.

Lemma emit_constraint (nlno : Z) (lhs rhs : float) (root : expr) (p : problem) :
  prob_nvars (emit false nlno lhs rhs root p) = prob_nvars p
  /\ prob_conss (emit false nlno lhs rhs root p)
     = prob_conss p ++ [NonlinearCons false nlno root lhs rhs None].
Proof. split; reflexivity. Qed.

Lemma emit_objective (nlno : Z) (lhs rhs : float) (root : expr) (p : problem) :
  prob_nvars (emit true nlno lhs rhs root p) = prob_nvars p + 1
  /\ prob_conss (emit true nlno lhs rhs root p)
     = prob_conss p
       ++ [NonlinearCons true nlno root lhs rhs (Some (prob_nvars p, (-1)%float))].
Proof. split; reflexivity. Qed.

(** The loop over the cells adds one constraint for each cell, in order,
    numbered from the index of the first one. *)
Lemma add_cells_inv (L : libm) (isFP : float -> bool) (cl cu : list float)
    (xval conval : option (list float)) (cells : list (list float)) :
  forall (i : nat) (s s' : session),
    add_cells L isFP cells (Z.of_nat i) cl cu xval conval s = Ok s' ->
    exists new,
      prob_conss (sess_problem s') = prob_conss (sess_problem s) ++ new
      /\ prob_nvars (sess_problem s') = prob_nvars (sess_problem s)
      /\ length new = length cells
      /\ (forall k ins, cells !! k = Some ins ->
            exists root lo hi,
              cl !! (i + k)%nat = Some lo /\ cu !! (i + k)%nat = Some hi
              /\ compile (prob_nvars (sess_problem s)) ins = Ok root
              /\ new !! k = Some (NonlinearCons false (Z.of_nat (i + k)) root lo hi None))
      /\ ((sess_ts s' = sess_ts s /\ sess_warnings s' = sess_warnings s)
          \/ (xval <> None /\ sess_ts s' = 0
              /\ exists w ws, sess_warnings s' = sess_warnings s ++ w :: ws)).
Proof.
  induction cells as [| ins rest IH]; intros i s s' H.
  - injection H as <-. exists []. rewrite app_nil_r.
    repeat split; try reflexivity; [intros k ins Hk; discriminate Hk | left; auto].
  - cbn [add_cells] in H.
    rewrite !arr_get_lookup in H.
    destruct (cl !! i) as [lo |] eqn:Hlo; [| discriminate H].
    destruct (cu !! i) as [hi |] eqn:Hhi; [| discriminate H].
    cbn [bind] in H. apply bind_inv in H as (s1 & H1 & H).
    replace (Z.of_nat i + 1) with (Z.of_nat (S i)) in H by lia.
    apply call_and_check_inv in H1 as ((root & Hc & Hp) & _ & Hw1).
    destruct (IH (S i) s1 s' H) as (new & Hn & Hv & Hlen & Hall & Hw).
    destruct (emit_constraint (Z.of_nat i) lo hi root (sess_problem s)) as [Ev Ec].
    rewrite <- Hp in Ev, Ec.
    exists (NonlinearCons false (Z.of_nat i) root lo hi None :: new).
    split; [rewrite Hn, Ec, <- app_assoc; reflexivity |].
    split; [congruence |].
    split; [cbn [length]; congruence |].
    split.
    + intros k ins' Hk. destruct k as [| k].
      * injection Hk as <-. exists root, lo, hi. rewrite Nat.add_0_r. auto.
      * cbn in Hk. destruct (Hall k ins' Hk) as (r & l & h & A & B & C & D).
        exists r, l, h. replace (i + S k)%nat with (S i + k)%nat by lia.
        rewrite Ev in C. auto.
    + destruct Hw1 as [(T1 & W1) | (X1 & T1 & (err & W1))];
        destruct Hw as [(T & W) | (X & T & (w & ws & W))].
      * left. split; congruence.
      * right. split; [exact X |]. split; [exact T |]. exists w, ws. congruence.
      * right. split; [exact X1 |]. split; [congruence |].
        exists (false, Z.of_nat i, err), []. congruence.
      * right. split; [exact X |]. split; [exact T |].
        exists (false, Z.of_nat i, err), (w :: ws).
        rewrite W, W1, <- app_assoc. reflexivity.
Qed.

Lemma lookup_map {A B : Type} (f : A -> B) (l : list A) (k : nat) :
  map f l !! k = option_map f (l !! k).
Proof.
  revert k. induction l as [| x l IH]; intros [| k]; try reflexivity. apply IH.
Qed.

(** What [checkInputs] leaves to the section when there are constraints. *)
Lemma check_nl_bounds (nl : nl_struct) (f : nl_instructions) :
  check_nl nl = None -> nl_instr nl = Some f ->
  exists cl cu, nl_cl nl = Some cl /\ nl_cu nl = Some cu
                /\ length cl = length cu
                /\ length (constraint_streams nl) = length cl.
Proof.
  unfold check_nl, constraint_streams. intros H Hf. rewrite Hf in *.
  destruct (nl_cl nl) as [cl |]; [| discriminate H].
  destruct (nl_cu nl) as [cu |]; [| discriminate H].
  destruct (length cl =? length cu)%nat eqn:E1; [| discriminate H].
  apply Nat.eqb_eq in E1. exists cl, cu. cbn [negb] in H.
  destruct f as [ins | cells].
  - destruct (length cl =? 1)%nat eqn:E2; [| discriminate H].
    apply Nat.eqb_eq in E2. cbn [length]. auto.
  - destruct (length cells =? length cl)%nat eqn:E2; [| discriminate H].
    apply Nat.eqb_eq in E2. auto.
Qed.

Lemma add_constraints_inv (L : libm) (isFP : float -> bool) (inf : float)
    (s s' : session) (nl : nl_struct) :
  check_nl nl = None ->
  add_constraints L isFP inf s nl = Ok s' ->
  exists new,
    prob_conss (sess_problem s') = prob_conss (sess_problem s) ++ new
    /\ prob_nvars (sess_problem s') = prob_nvars (sess_problem s)
    /\ length new = length (constraint_streams nl)
    /\ (forall k ins, constraint_streams nl !! k = Some ins ->
          exists root cl cu lo hi,
            nl_cl nl = Some cl /\ nl_cu nl = Some cu
            /\ cl !! k = Some lo /\ cu !! k = Some hi
            /\ compile (prob_nvars (sess_problem s)) ins = Ok root
            /\ new !! k
               = Some (NonlinearCons false (Z.of_nat k) root
                         (if PrimFloat.is_infinity lo then (- inf)%float else lo)
                         (if PrimFloat.is_infinity hi then inf else hi) None))
    /\ ((sess_ts s' = sess_ts s /\ sess_warnings s' = sess_warnings s)
        \/ (validation_point nl <> None /\ sess_ts s' = 0
            /\ exists w ws, sess_warnings s' = sess_warnings s ++ w :: ws)).
Proof.
  intros Hck H. unfold add_constraints in H.
  destruct (nl_instr nl) as [f |] eqn:Hf.
  2:{ injection H as <-. exists []. rewrite app_nil_r.
      unfold constraint_streams. rewrite Hf.
      split; [reflexivity |]. split; [reflexivity |]. split; [reflexivity |].
      split; [intros k ins Hk; discriminate Hk | left; auto]. }
  destruct (check_nl_bounds nl f Hck Hf) as (cl & cu & Hcl & Hcu & Hlen & Hn).
  rewrite Hcl, Hcu in H. rewrite (clamp_bounds_map inf cl cu Hlen) in H. cbn [bind] in H.
  assert (Hmap : forall k lo' hi',
             map (fun x => if PrimFloat.is_infinity x then (- inf)%float else x) cl !! k
               = Some lo' ->
             map (fun x => if PrimFloat.is_infinity x then inf else x) cu !! k
               = Some hi' ->
             exists lo hi, cl !! k = Some lo /\ cu !! k = Some hi
                           /\ lo' = (if PrimFloat.is_infinity lo then (- inf)%float else lo)
                           /\ hi' = (if PrimFloat.is_infinity hi then inf else hi)).
  { intros k lo' hi'. rewrite !lookup_map.
    destruct (cl !! k) as [lo |]; [| discriminate].
    destruct (cu !! k) as [hi |]; [| discriminate].
    cbn [option_map]. intros [= <-] [= <-]. exists lo, hi. auto. }
  unfold constraint_streams in *. rewrite Hf in *.
  destruct f as [ins | cells].
  - pose proof (fun a : list float => arr_get_lookup a 0) as E0.
    cbn [Z.of_nat] in E0. rewrite !E0 in H.
    destruct (map _ cl !! 0%nat) as [lo' |] eqn:Hlo; [| discriminate H].
    destruct (map _ cu !! 0%nat) as [hi' |] eqn:Hhi; [| discriminate H].
    cbn [bind] in H.
    destruct (Hmap _ _ _ Hlo Hhi) as (lo & hi & A & B & -> & ->).
    apply call_and_check_inv in H as ((root & Hc & Hp) & _ & Hw).
    destruct (emit_constraint 0 (if PrimFloat.is_infinity lo then (- inf)%float else lo)
                (if PrimFloat.is_infinity hi then inf else hi) root (sess_problem s))
      as [Ev Ec].
    rewrite <- Hp in Ev, Ec.
    eexists. split; [exact Ec |]. split; [exact Ev |]. split; [reflexivity |].
    split.
    + intros k ins' Hk. destruct k as [| k]; [| destruct k; discriminate Hk].
      injection Hk as <-. exists root, cl, cu, lo, hi. auto 10.
    + destruct Hw as [Hw | (X & T & (err & W))]; [left; exact Hw |].
      right. split; [exact X |]. split; [exact T |]. eauto.
  - apply (add_cells_inv L isFP _ _ _ _ cells 0%nat) in H
      as (new & Hc & Hv & Hl & Hall & Hw).
    exists new. split; [exact Hc |]. split; [exact Hv |]. split; [exact Hl |].
    split; [| exact Hw].
    intros k ins Hk. destruct (Hall k ins Hk) as (root & lo' & hi' & A & B & C & D).
    cbn [Nat.add] in A, B, D.
    destruct (Hmap _ _ _ A B) as (lo & hi & A' & B' & -> & ->).
    exists root, cl, cu, lo, hi. auto 10.
Qed.

(** X9: the nonlinear section of the caller, for a structure that passed
    [checkInputs] and a run in which no call stopped. The problem gains one
    constraint for each stream of [instr], in the order of the cells and
    numbered from 0, each with the root of its stream and with its own
    bounds, an infinite lower bound of either sign replaced by
    [-SCIPinfinity] and an infinite upper bound of either sign by
    [SCIPinfinity]; then, if there is an objective, one more constraint,
    numbered 0, with both sides 0 and the new variable with coefficient -1.
    Only the objective adds a variable. *)
Theorem nonlinear_section_adds_in_order
    (L : libm) (isFP : float -> bool) (inf : float) (s s' : session) (nl : nl_struct) :
  check_nl nl = None ->
  nonlinear_section L isFP inf s nl = Ok s' ->
  let p := sess_problem s in
  let streams := constraint_streams nl in
  exists new : list nonlinear_cons,
    prob_conss (sess_problem s') = prob_conss p ++ new
    /\ (forall k ins, streams !! k = Some ins ->
          exists root cl cu lo hi,
            nl_cl nl = Some cl /\ nl_cu nl = Some cu
            /\ cl !! k = Some lo /\ cu !! k = Some hi
            /\ compile (prob_nvars p) ins = Ok root
            /\ new !! k
               = Some (NonlinearCons false (Z.of_nat k) root
                         (if PrimFloat.is_infinity lo then (- inf)%float else lo)
                         (if PrimFloat.is_infinity hi then inf else hi) None))
    /\ match nl_obj_instr nl with
       | None =>
           length new = length streams
           /\ prob_nvars (sess_problem s') = prob_nvars p
       | Some oi =>
           length new = S (length streams)
           /\ prob_nvars (sess_problem s') = prob_nvars p + 1
           /\ exists root,
                compile (prob_nvars p) oi = Ok root
                /\ new !! length streams
                   = Some (NonlinearCons true 0 root 0%float 0%float
                             (Some (prob_nvars p, (-1)%float)))
       end.
Proof.
  intros Hck H p streams. subst p streams. unfold nonlinear_section in H.
  apply bind_inv in H as (s1 & H1 & H2).
  destruct (add_constraints_inv L isFP inf s s1 nl Hck H1)
    as (new & Hc & Hv & Hl & Hall & _).
  unfold add_objective in H2. destruct (nl_obj_instr nl) as [oi |].
  - apply call_and_check_inv in H2 as ((root & Hr & Hp) & _).
    destruct (emit_objective 0 0%float 0%float root (sess_problem s1)) as [Ev Ec].
    rewrite <- Hp in Ev, Ec.
    exists (new ++ [NonlinearCons true 0 root 0%float 0%float
                      (Some (prob_nvars (sess_problem s), (-1)%float))]).
    split; [rewrite Ec, Hc, Hv, <- app_assoc; reflexivity |].
    split.
    + intros k ins Hk.
      destruct (Hall k ins Hk) as (r & cl & cu & lo & hi & A & B & C & D & E & F).
      exists r, cl, cu, lo, hi.
      rewrite lookup_app_l by (rewrite Hl; exact (lookup_lt_Some _ _ _ Hk)). auto 10.
    + split; [rewrite length_app, Hl; cbn [length]; lia |].
      split; [rewrite Ev, Hv; reflexivity |].
      exists root. split; [rewrite <- Hv; exact Hr |].
      rewrite lookup_app_r by lia. rewrite Hl, Nat.sub_diag. reflexivity.
  - injection H2 as <-. exists new. auto.
Qed.

Lemma nonlinear_section_adds_in_order_witness :
  let nl := {| nl_instr := Some (CellOfConstraints
                                   [[op VAR; 0%float; op NUM; 3%float; op ADD; 0%float];
                                    [op VAR; 1%float; op SIN; 0%float]]);
               nl_cl := Some [neg_infinity; infinity];
               nl_cu := Some [4%float; infinity];
               nl_obj_instr := Some [op VAR; 0%float];
               nl_nlcon_val := None; nl_obj_val := None; nl_xval := None |} in
  let s := Session (Problem 2 []) 1 [] in
  let inf := 1e20%float in
  let new := [NonlinearCons false 0 (ESum [(1%float, EVar 0)] 3%float)
                (- inf)%float 4%float None;
              NonlinearCons false 1 (ESin (EVar 1)) (- inf)%float inf None;
              NonlinearCons true 0 (ESum [(1%float, EVar 0)] 0%float) 0%float 0%float
                (Some (2, (-1)%float))] in
  (check_nl nl = None
   /\ nonlinear_section libm_unused (fun _ => false) inf s nl
      = Ok (Session (Problem 3 new) 1 []))
  /\ exists new' : list nonlinear_cons,
       new = [] ++ new'
       /\ (forall k ins, constraint_streams nl !! k = Some ins ->
             exists root cl cu lo hi,
               nl_cl nl = Some cl /\ nl_cu nl = Some cu
               /\ cl !! k = Some lo /\ cu !! k = Some hi
               /\ compile 2 ins = Ok root
               /\ new' !! k
                  = Some (NonlinearCons false (Z.of_nat k) root
                            (if PrimFloat.is_infinity lo then (- inf)%float else lo)
                            (if PrimFloat.is_infinity hi then inf else hi) None))
       /\ length new' = 3%nat /\ 3 = 2 + 1
       /\ exists root,
            compile 2 [op VAR; 0%float] = Ok root
            /\ new' !! 2%nat
               = Some (NonlinearCons true 0 root 0%float 0%float (Some (2, (-1)%float))).
Proof.
  intros nl s inf new.
  assert (Hck : check_nl nl = None) by reflexivity.
  assert (H : nonlinear_section libm_unused (fun _ => false) inf s nl
              = Ok (Session (Problem 3 new) 1 [])) by reflexivity.
  split; [exact (conj Hck H) |].
  exact (nonlinear_section_adds_in_order libm_unused (fun _ => false) inf s _ nl Hck H).
Defined.

(** X10: the test status of the caller only falls. A section that returns
    leaves [ts] and the warnings as they were, or has set [ts] to 0 and
    has added at least one warning; the second case needs a validation
    point, that is the field [xval] together with [nlcon_val] or [obj_val].
    Without them no value is checked, whatever the streams compute. *)
Theorem test_status_only_falls
    (L : libm) (isFP : float -> bool) (inf : float) (s s' : session) (nl : nl_struct) :
  check_nl nl = None ->
  nonlinear_section L isFP inf s nl = Ok s' ->
  (sess_ts s' = sess_ts s /\ sess_warnings s' = sess_warnings s)
  \/ (sess_ts s' = 0
      /\ (exists w ws, sess_warnings s' = sess_warnings s ++ w :: ws)
      /\ nl_xval nl <> None
      /\ (nl_nlcon_val nl <> None \/ nl_obj_val nl <> None)).
Proof.
  intros Hck H. unfold nonlinear_section in H.
  apply bind_inv in H as (s1 & H1 & H2).
  assert (V : validation_point nl <> None ->
              nl_xval nl <> None /\ (nl_nlcon_val nl <> None \/ nl_obj_val nl <> None)).
  { unfold validation_point.
    destruct (nl_nlcon_val nl), (nl_obj_val nl); intros N;
      first [contradiction | split; [exact N |]; first [left; discriminate | right; discriminate]]. }
  destruct (add_constraints_inv L isFP inf s s1 nl Hck H1)
    as (_ & _ & _ & _ & _ & Hw1).
  assert (Hw2 : (sess_ts s' = sess_ts s1 /\ sess_warnings s' = sess_warnings s1)
                \/ (validation_point nl <> None /\ sess_ts s' = 0
                    /\ exists err, sess_warnings s' = sess_warnings s1 ++ [(true, 0, err)])).
  { unfold add_objective in H2. destruct (nl_obj_instr nl) as [oi |].
    - apply call_and_check_inv in H2 as (_ & _ & Hw). exact Hw.
    - injection H2 as <-. left. auto. }
  destruct Hw1 as [(T1 & W1) | (X1 & T1 & (w & ws & W1))];
    destruct Hw2 as [(T2 & W2) | (X2 & T2 & (err & W2))].
  - left. split; congruence.
  - right. split; [exact T2 |]. split; [| exact (V X2)].
    exists (true, 0, err), []. congruence.
  - right. split; [congruence |]. split; [| exact (V X1)].
    exists w, ws. congruence.
  - right. split; [exact T2 |]. split; [| exact (V X2)].
    exists w, (ws ++ [(true, 0, err)]). rewrite W2, W1, <- app_assoc. reflexivity.
Qed.

Lemma test_status_only_falls_witness :
  let nl := {| nl_instr := Some (OneConstraint [op VAR; 0%float; op NUM; 3%float;
                                                op ADD; 0%float]);
               nl_cl := Some [0%float]; nl_cu := Some [9%float];
               nl_obj_instr := None;
               nl_nlcon_val := Some [4%float]; nl_obj_val := None;
               nl_xval := Some [2%float] |} in
  let s := Session (Problem 1 []) 1 [] in
  let isFP := fun e => PrimFloat.ltb 0.5%float e in
  let s' := Session (Problem 1 [NonlinearCons false 0 (ESum [(1%float, EVar 0)] 3%float)
                                  0%float 9%float None])
              0 [(false, 0, 1%float)] in
  (check_nl nl = None
   /\ nonlinear_section libm_unused isFP 1e20%float s nl = Ok s')
  /\ ((sess_ts s' = sess_ts s /\ sess_warnings s' = sess_warnings s)
      \/ (sess_ts s' = 0
          /\ (exists w ws, sess_warnings s' = sess_warnings s ++ w :: ws)
          /\ nl_xval nl <> None
          /\ (nl_nlcon_val nl <> None \/ nl_obj_val nl <> None))).
Proof.
  intros nl s isFP s'.
  assert (Hck : check_nl nl = None) by reflexivity.
  assert (H : nonlinear_section libm_unused isFP 1e20%float s nl = Ok s') by reflexivity.
  exact (conj (conj Hck H)
           (test_status_only_falls libm_unused isFP 1e20%float s s' nl Hck H)).
Defined.

(** X11: expected values for the objective alone. With the fields [xval]
    and [obj_val] but without [nlcon_val], the pointer [conval] is never
    set; the check of the first constraint reads it all the same. The
    section then stops in the first call, or reads a pointer that was never
    initialised: it never returns. *)
Theorem constraint_checked_without_expected_values
    (L : libm) (isFP : float -> bool) (inf : float) (s : session) (nl : nl_struct)
    (ins : list float) (rest : list (list float)) (cl cu : list float) (lo hi : float) :
  check_nl nl = None ->
  nl_nlcon_val nl = None -> nl_obj_val nl <> None -> nl_xval nl <> None ->
  constraint_streams nl = ins :: rest ->
  nl_cl nl = Some cl -> nl_cu nl = Some cu ->
  cl !! 0%nat = Some lo -> cu !! 0%nat = Some hi ->
  nonlinear_section L isFP inf s nl
  = match addNonlinearCon L (sess_problem s) ins
            (if PrimFloat.is_infinity lo then (- inf)%float else lo)
            (if PrimFloat.is_infinity hi then inf else hi) (nl_xval nl) 0 false with
    | Ok _ => Fail UB_Uninitialised
    | Fail e => Fail e
    end.
Proof.
  intros Hck Hn Ho Hx Hs Hcl Hcu Hlo Hhi.
  unfold nonlinear_section, add_constraints.
  assert (Hv : validation_point nl = nl_xval nl).
  { unfold validation_point. rewrite Hn. destruct (nl_obj_val nl); [reflexivity | contradiction]. }
  unfold constraint_streams in Hs.
  destruct (nl_instr nl) as [f |] eqn:Hf; [| discriminate Hs].
  destruct (check_nl_bounds nl f Hck Hf) as (cl' & cu' & Hcl' & Hcu' & Hlen & _).
  rewrite Hcl in Hcl'. injection Hcl' as <-. rewrite Hcu in Hcu'. injection Hcu' as <-.
  rewrite Hcl, Hcu, (clamp_bounds_map inf cl cu Hlen). cbn [bind].
  pose proof (fun a : list float => arr_get_lookup a 0) as E0. cbn [Z.of_nat] in E0.
  assert (C : forall (ins0 : list float),
              (lo' <- arr_get (map (fun x => if PrimFloat.is_infinity x then (- inf)%float else x) cl) 0 ;;
               hi' <- arr_get (map (fun x => if PrimFloat.is_infinity x then inf else x) cu) 0 ;;
               call_and_check L isFP s ins0 lo' hi' (validation_point nl)
                 (read_expected (nl_nlcon_val nl) 0) 0 false)
              = match addNonlinearCon L (sess_problem s) ins0
                        (if PrimFloat.is_infinity lo then (- inf)%float else lo)
                        (if PrimFloat.is_infinity hi then inf else hi) (nl_xval nl) 0 false with
                | Ok _ => Fail UB_Uninitialised
                | Fail e => Fail e
                end).
  { intros ins0. rewrite !E0, !lookup_map, Hlo, Hhi. cbn [option_map bind].
    unfold call_and_check. rewrite Hv, Hn.
    destruct (addNonlinearCon L (sess_problem s) ins0 _ _ (nl_xval nl) 0 false)
      as [[p' cval] | e]; [| reflexivity].
    cbn [bind]. destruct (nl_xval nl); [reflexivity | contradiction]. }
  destruct f as [ins0 | cells].
  - injection Hs as <- _. rewrite C.
    destruct (addNonlinearCon L (sess_problem s) ins0 _ _ (nl_xval nl) 0 false);
      reflexivity.
  - subst cells. cbn [add_cells].
    specialize (C ins).
    destruct (arr_get (map (fun x => if PrimFloat.is_infinity x then (- inf)%float else x) cl) 0)
      as [lo' | e]; cbn [bind] in C |- *;
      [| rewrite <- C; reflexivity].
    destruct (arr_get (map (fun x => if PrimFloat.is_infinity x then inf else x) cu) 0)
      as [hi' | e]; cbn [bind] in C |- *;
      [| rewrite <- C; reflexivity].
    rewrite C.
    destruct (addNonlinearCon L (sess_problem s) ins _ _ (nl_xval nl) 0 false);
      reflexivity.
Qed.

Lemma constraint_checked_without_expected_values_witness :
  let nl := {| nl_instr := Some (OneConstraint [op VAR; 0%float; op NUM; 3%float;
                                                op ADD; 0%float]);
               nl_cl := Some [0%float]; nl_cu := Some [9%float];
               nl_obj_instr := Some [op VAR; 0%float];
               nl_nlcon_val := None; nl_obj_val := Some [2%float];
               nl_xval := Some [2%float] |} in
  let s := Session (Problem 1 []) 1 [] in
  (check_nl nl = None
   /\ nl_nlcon_val nl = None /\ nl_obj_val nl <> None /\ nl_xval nl <> None
   /\ constraint_streams nl = [[op VAR; 0%float; op NUM; 3%float; op ADD; 0%float]]
   /\ nl_cl nl = Some [0%float] /\ nl_cu nl = Some [9%float]
   /\ [0%float] !! 0%nat = Some 0%float /\ [9%float] !! 0%nat = Some 9%float)
  /\ nonlinear_section libm_unused (fun _ => false) 1e20%float s nl
     = Fail UB_Uninitialised.
Proof.
  intros nl s.
  assert (H1 : check_nl nl = None) by reflexivity.
  assert (H2 : nl_nlcon_val nl = None) by reflexivity.
  assert (H3 : nl_obj_val nl <> None) by discriminate.
  assert (H4 : nl_xval nl <> None) by discriminate.
  assert (H5 : constraint_streams nl
               = [[op VAR; 0%float; op NUM; 3%float; op ADD; 0%float]]) by reflexivity.
  assert (H6 : nl_cl nl = Some [0%float]) by reflexivity.
  assert (H7 : nl_cu nl = Some [9%float]) by reflexivity.
  assert (H8 : [0%float] !! 0%nat = Some 0%float) by reflexivity.
  assert (H9 : [9%float] !! 0%nat = Some 9%float) by reflexivity.
  split; [exact (conj H1 (conj H2 (conj H3 (conj H4 (conj H5 (conj H6 (conj H7 (conj H8 H9)))))))) |].
  exact (constraint_checked_without_expected_values libm_unused (fun _ => false) 1e20%float
           s nl _ [] _ _ _ _ H1 H2 H3 H4 H5 H6 H7 H8 H9).
Defined.

(** ** The debug trace *)

Lemma arr_get_defined {A : Type} (a : list A) (i : Z) :
  is_ok (arr_get a i) = true <-> 0 <= i < Z.of_nat (length a).
Proof.
  unfold arr_get. destruct (i <? 0) eqn:Hi.
  - apply Z.ltb_lt in Hi. split; [discriminate | lia].
  - apply Z.ltb_ge in Hi. destruct (a !! Z.to_nat i) as [x |] eqn:Hl.
    + apply lookup_lt_Some in Hl. split; [lia | reflexivity].
    + apply lookup_ge_None in Hl. split; [discriminate | lia].
Qed.

(** X12: the table of [debugPrintState] has a name for EXIT, for EMPTY and
    READ, and for the states NUM to TAN; printing any other state or
    register reads outside the table. The states MIN, MAX, ABS and SIGN have
    no name: a build with DEBUG leaves the table when it prints the state
    ABS, a function the main loop accepts. *)
Theorem debug_table_bounds (state a0 a1 : Z) :
  (is_ok (debugPrintState state a0 a1) = true
   <-> (state = EXIT \/ -3 <= state <= TAN) /\ -3 <= a0 <= TAN /\ -3 <= a1 <= TAN)
  /\ debugPrintState MIN a0 a1 = Fail UB_OutOfBounds
  /\ debugPrintState MAX a0 a1 = Fail UB_OutOfBounds
  /\ debugPrintState ABS a0 a1 = Fail UB_OutOfBounds
  /\ debugPrintState SIGN a0 a1 = Fail UB_OutOfBounds
  /\ opcode_ok ABS = true.
Proof.
  assert (D : forall k, is_ok (arr_get strs k) = true <-> -3 <= k - 3 <= TAN).
  { intros k. rewrite arr_get_defined. unfold strs, TAN. cbn [length]. lia. }
  split; [| repeat split; reflexivity].
  unfold debugPrintState.
  assert (E : is_ok (arr_get strs ((if state =? 99 then -3 else state) + 3)) = true
              <-> state = EXIT \/ -3 <= state <= TAN).
  { rewrite D. unfold EXIT, TAN. destruct (state =? 99) eqn:E9.
    - apply Z.eqb_eq in E9. lia.
    - apply Z.eqb_neq in E9. lia. }
  pose proof (D (a0 + 3)) as E0. pose proof (D (a1 + 3)) as E1.
  replace (a0 + 3 - 3) with a0 in E0 by lia. replace (a1 + 3 - 3) with a1 in E1 by lia.
  destruct (arr_get strs ((if state =? 99 then -3 else state) + 3)) as [s | e];
    destruct (arr_get strs (a0 + 3)) as [x | e0];
    destruct (arr_get strs (a1 + 3)) as [y | e1];
    cbn [bind is_ok] in *; split;
    first [ intros _; split; [apply E; reflexivity | split; [apply E0 | apply E1]; reflexivity]
          | intros H; discriminate H
          | intros (H & H0 & H1);
            first [ apply E in H; discriminate H | apply E0 in H0; discriminate H0
                  | apply E1 in H1; discriminate H1 ]
          | reflexivity ].
Qed.

(** ** The pre-scan of complete pairs *)

(** X13: on a stream of complete (opcode, slot) pairs the two loops of the
    pre-scan return the number of pairs whose opcode is VAR, the number of
    pairs whose opcode is above EXP, and the slots of the VAR pairs cast to
    [int], in the order of the stream; only these slots are cast, and the
    pre-scan stops only if one of these casts is not defined. Whatever the
    stream, [varind] has [no_var] entries. *)
Theorem prescan_of_complete_pairs (ins : list float) :
  Nat.even (length ins) = true ->
  prescan ins
  = (ks <- var_indices (pairs ins) ;;
     Ok (Z.of_nat (count_vars (pairs ins)), Z.of_nat (count_ops (pairs ins)), ks))
  /\ (forall s no_var no_ops varind,
        prescan s = Ok (no_var, no_ops, varind) ->
        Z.of_nat (length varind) = no_var /\ 0 <= no_ops).
Proof.
  intros Hev. split.
  - rewrite <- (flatten_pairs ins Hev) at 1. apply prescan_pairs.
  - intros s no_var no_ops varind. apply prescan_length.
Qed.

Lemma prescan_of_complete_pairs_witness :
  let ins := [op VAR; 2%float; op NUM; nan; op ADD; infinity; op VAR; 0%float;
              op MUL; 0%float] in
  Nat.even (length ins) = true
  /\ prescan ins = Ok (2, 2, [2; 0]).
Proof.
  intros ins.
  assert (Hev : Nat.even (length ins) = true) by reflexivity.
  destruct (prescan_of_complete_pairs ins Hev) as [H _].
  exact (conj Hev H).
Defined.

(** ** Streams that begin out of order *)

(** When the pre-scan and the creation of the variable expressions return
    and no short-circuit is taken, the build phase is the main loop over the
    whole array. *)
Lemma build_runs (nvars : Z) (ins : list float) (no_var no_ops : Z)
    (varind : list Z) (expvars : list expr) :
  prescan ins = Ok (no_var, no_ops, varind) ->
  create_expvars nvars varind = Ok expvars ->
  (length ins = 2%nat ->
   exists a, arr_get ins 0 = Ok a /\ deq a NUM = false /\ deq a VAR = false) ->
  build nvars ins
  = run expvars (Z.of_nat (length ins)) (length ins) 0
      (initial ins (replicate (Z.to_nat (Z.max no_ops 1)) None)).
Proof.
  intros Hp He Hs. unfold build. rewrite Hp. cbn [bind]. rewrite He. cbn [bind].
  unfold constant_shortcut, variable_shortcut.
  destruct (Z.of_nat (length ins) =? 2) eqn:E2.
  - assert (E : length ins = 2%nat) by (apply Z.eqb_eq in E2; lia).
    destruct (Hs E) as (a & Ha & HN & HV).
    rewrite Ha. cbn [bind]. rewrite HN. cbn [bind fst snd]. rewrite E2, HV.
    cbn [bind fst snd]. rewrite Nat2Z.id. reflexivity.
  - cbn [bind fst snd]. rewrite E2. cbn [bind fst snd]. rewrite Nat2Z.id. reflexivity.
Qed.

Lemma operator_not_operand (k : Z) :
  is_binary k || is_unary k = true -> deq (op k) NUM = false /\ deq (op k) VAR = false.
Proof.
  intros H. apply orb_true_iff in H as [H | H].
  - destruct (is_binary_cases _ H) as [-> | [-> | [-> | [-> | ->]]]]; split; reflexivity.
  - destruct (is_unary_cases _ H) as [-> | [-> | [-> | [-> | [-> | [-> | ->]]]]]];
      split; reflexivity.
Qed.

(** X14: three ways in which a stream begins out of order, whatever follows.
    When the pre-scan and the creation of the variable expressions return,
    a stream whose first opcode is a binary operator stops with "operator
    doesn't have two operands", a stream whose first opcode is a unary
    function stops with "function doesn't have an operand", and a stream
    that begins with a constant followed by two more operands (NUM or VAR)
    stops with "Error in order of instructions.": a constant cannot wait,
    so [3 - 2 * x] cannot be written with the constant first. *)
Theorem streams_that_begin_out_of_order
    (nvars : Z) (ins : list float) (no_var no_ops : Z) (varind : list Z)
    (expvars : list expr) :
  prescan ins = Ok (no_var, no_ops, varind) ->
  create_expvars nvars varind = Ok expvars ->
  (forall k s rest, ins = op k :: s :: rest -> is_binary k = true ->
     build nvars ins = Fail ErrTwoOperands)
  /\ (forall k s rest, ins = op k :: s :: rest -> is_unary k = true ->
        build nvars ins = Fail ErrNoOperand)
  /\ (forall c a s1 b s2 rest,
        ins = op NUM :: c :: op a :: s1 :: op b :: s2 :: rest ->
        a = NUM \/ a = VAR -> b = NUM \/ b = VAR ->
        build nvars ins = Fail ErrOrder).
Proof.
  intros Hp He. split; [| split].
  - intros k s rest -> Hk.
    rewrite (build_runs _ _ _ _ _ _ Hp He).
    + cbn [length]. generalize (Z.of_nat (S (S (length rest)))). intros n.
      generalize (replicate (Z.to_nat (Z.max no_ops 1)) (@None expr)). intros ex.
      destruct (is_binary_cases _ Hk) as [-> | [-> | [-> | [-> | ->]]]]; reflexivity.
    + intros _. exists (op k). split; [reflexivity |].
      apply operator_not_operand. rewrite Hk. reflexivity.
  - intros k s rest -> Hk.
    rewrite (build_runs _ _ _ _ _ _ Hp He).
    + cbn [length]. generalize (Z.of_nat (S (S (length rest)))). intros n.
      generalize (replicate (Z.to_nat (Z.max no_ops 1)) (@None expr)). intros ex.
      destruct (is_unary_cases _ Hk) as [-> | [-> | [-> | [-> | [-> | [-> | ->]]]]]];
        reflexivity.
    + intros _. exists (op k). split; [reflexivity |].
      apply operator_not_operand. rewrite Hk. apply orb_true_r.
  - intros c a s1 b s2 rest -> Ha Hb.
    rewrite (build_runs _ _ _ _ _ _ Hp He).
    + cbn [length]. generalize (Z.of_nat (S (S (S (S (S (S (length rest)))))))). intros n.
      generalize (replicate (Z.to_nat (Z.max no_ops 1)) (@None expr)). intros ex.
      destruct Ha as [-> | ->], Hb as [-> | ->]; reflexivity.
    + cbn [length]. intros H. discriminate H.
Qed.

Lemma streams_that_begin_out_of_order_witness :
  let ins := [op NUM; 3%float; op VAR; 1%float; op NUM; 2%float; op MUL; 0%float;
              op SUB; 0%float] in
  (prescan ins = Ok (1, 2, [1]) /\ create_expvars 2 [1] = Ok [EVar 1])
  /\ build 2 ins = Fail ErrOrder.
Proof.
  intros ins.
  assert (Hp : prescan ins = Ok (1, 2, [1])) by reflexivity.
  assert (He : create_expvars 2 [1] = Ok [EVar 1]) by reflexivity.
  destruct (streams_that_begin_out_of_order 2 ins 1 2 [1] [EVar 1] Hp He) as (_ & _ & H).
  exact (conj (conj Hp He)
           (H 3%float VAR 1%float NUM 2%float [op MUL; 0%float; op SUB; 0%float]
              eq_refl (or_intror eq_refl) (or_introl eq_refl))).
Defined.

(** ** A second build of the same array

    The build phase leaves its flip marks in the array of the caller. The
    lemmas below replay the main loop on the array as the first run left
    it. *)

Lemma set_instr_same (m : machine) : set_instr (instr m) m = m.
Proof. destruct m. reflexivity. Qed.

(** Case analysis on every test of a run that does not read the array. *)
Ltac replay_cases :=
  unfold bind, fail_if, with_instr;
  repeat match goal with
         | |- context [match ?c with _ => _ end] =>
             lazymatch c with
             | context [match _ with _ => _ end] => fail
             | _ => destruct c eqn:?
             end
         end;
  try reflexivity; try congruence.

Lemma save_expression_replay (F : list float) (m : machine) :
  save_expression (set_instr F m) = with_instr F (save_expression m).
Proof.
  unfold save_expression.
  destruct m as [st a0 a1 ins vc en vi se el pel vl pvl pl ppl nm ex]. machine_simpl.
  replay_cases.
Qed.

Lemma save_variable_replay (F : list float) (v : result Z) (m : machine) :
  save_variable v (set_instr F m) = with_instr F (save_variable v m).
Proof.
  unfold save_variable.
  destruct m as [st a0 a1 ins vc en vi se el pel vl pvl pl ppl nm ex]. machine_simpl.
  replay_cases.
Qed.

Lemma store_node_replay (F : list float) (node : expr) (m : machine) :
  store_node node (set_instr F m) = with_instr F (store_node node m).
Proof.
  unfold store_node.
  destruct m as [st a0 a1 ins vc en vi se el pel vl pvl pl ppl nm ex]. machine_simpl.
  replay_cases.
Qed.

Lemma next_operator_replay (F : list float) (no_instr i : Z) (m : machine) :
  next_operator no_instr i (set_instr F m) = set_instr F (next_operator no_instr i m).
Proof.
  unfold next_operator. destruct (i =? no_instr - 1), m; reflexivity.
Qed.

Lemma with_instr_bind (F : list float) (c : result machine)
    (k k' : machine -> result machine) :
  (forall m, k' (set_instr F m) = with_instr F (k m)) ->
  bind (with_instr F c) k' = with_instr F (bind c k).
Proof. intros H. destruct c as [m | e]; cbn; [apply H | reflexivity]. Qed.

Lemma set_args_replay (F : list float) (a0 a1 : Z) (m : machine) :
  set_args a0 a1 (set_instr F m) = set_instr F (set_args a0 a1 m).
Proof. destruct m. reflexivity. Qed.

(** The cases NUM and VAR read the array at [i], [i - 3] and [i - 5]. *)
Lemma step_NUM_replay (F : list float) (i : Z) (m : machine) :
  arr_get F i = arr_get (instr m) i ->
  step_NUM i (set_instr F m) = with_instr F (step_NUM i m).
Proof.
  intros Hi. unfold step_NUM.
  replace (instr (set_instr F m)) with F by (destruct m; reflexivity).
  rewrite Hi. destruct (arr_get (instr m) i) as [x |]; [| reflexivity]. cbn [bind].
  assert (E : set_state READ (set_num x (set_instr F m))
              = set_instr F (set_state READ (set_num x m))) by (destruct m; reflexivity).
  rewrite E. clear E Hi. generalize (set_state READ (set_num x m)). clear m. intros m.
  replace (args0 (set_instr F m)) with (args0 m) by (destruct m; reflexivity).
  replace (args1 (set_instr F m)) with (args1 m) by (destruct m; reflexivity).
  replace (varcnt (set_instr F m)) with (varcnt m) by (destruct m; reflexivity).
  destruct (args0 m =? EMPTY); [rewrite set_args_replay; reflexivity |].
  destruct (args1 m =? EMPTY); [rewrite set_args_replay; reflexivity |].
  destruct (args0 m =? EXP).
  { rewrite save_expression_replay. apply with_instr_bind. intros m1.
    replace (args1 (set_instr F m1)) with (args1 m1) by (destruct m1; reflexivity).
    rewrite set_args_replay. reflexivity. }
  destruct (args0 m =? VAR); [| reflexivity].
  rewrite save_variable_replay. apply with_instr_bind. intros m1.
  replace (args1 (set_instr F m1)) with (args1 m1) by (destruct m1; reflexivity).
  rewrite set_args_replay. reflexivity.
Qed.

Lemma step_VAR_replay (F : list float) (i : Z) (m : machine) :
  arr_get F (i - 3) = arr_get (instr m) (i - 3) ->
  arr_get F (i - 5) = arr_get (instr m) (i - 5) ->
  step_VAR i (set_instr F m) = with_instr F (step_VAR i m).
Proof.
  intros H3 H5. unfold step_VAR.
  assert (E : set_state READ (set_varcnt (varcnt (set_instr F m) + 1) (set_instr F m))
              = set_instr F (set_state READ (set_varcnt (varcnt m + 1) m)))
    by (destruct m; reflexivity).
  rewrite E. clear E.
  assert (E3 : arr_get F (i - 3)
               = arr_get (instr (set_state READ (set_varcnt (varcnt m + 1) m))) (i - 3))
    by (destruct m; exact H3).
  assert (E5 : arr_get F (i - 5)
               = arr_get (instr (set_state READ (set_varcnt (varcnt m + 1) m))) (i - 5))
    by (destruct m; exact H5).
  revert E3 E5. generalize (set_state READ (set_varcnt (varcnt m + 1) m)).
  clear m H3 H5. intros m E3 E5.
  replace (args0 (set_instr F m)) with (args0 m) by (destruct m; reflexivity).
  replace (args1 (set_instr F m)) with (args1 m) by (destruct m; reflexivity).
  replace (varcnt (set_instr F m)) with (varcnt m) by (destruct m; reflexivity).
  destruct (args0 m =? EMPTY); [rewrite set_args_replay; reflexivity |].
  destruct (args1 m =? EMPTY); [rewrite set_args_replay; reflexivity |].
  destruct (args0 m =? EXP).
  { rewrite save_expression_replay. apply with_instr_bind. intros m1.
    replace (args1 (set_instr F m1)) with (args1 m1) by (destruct m1; reflexivity).
    rewrite set_args_replay. reflexivity. }
  destruct (args0 m =? VAR); [| reflexivity].
  assert (EL : last_two_are_vars i (set_instr F m) = last_two_are_vars i m).
  { unfold last_two_are_vars.
    replace (instr (set_instr F m)) with F by (destruct m; reflexivity).
    rewrite E3, E5. reflexivity. }
  rewrite EL, save_variable_replay. apply with_instr_bind. intros m1.
  replace (args1 (set_instr F m1)) with (args1 m1) by (destruct m1; reflexivity).
  rewrite set_args_replay. reflexivity.
Qed.

(** A waiting operand is taken again: the mark is already there. *)
Lemma take_waiting_replay (F : list float) (i : Z) (m m1 : machine) :
  take_waiting i m = Ok m1 ->
  length F = length (instr m) ->
  arr_get F i = arr_get (instr m1) i ->
  take_waiting i (set_instr F m) = Ok (set_instr F m1).
Proof.
  intros H Hl Hi. unfold take_waiting in *.
  destruct m as [st a0 a1 ins vc en vi se el pel vl pvl pl ppl nm ex]. machine_simpl.
  destruct ((a1 =? EMPTY) && (ppl >=? 0)); [| injection H as <-; reflexivity].
  destruct (arr_get pl ppl) as [top |]; [| discriminate H]. cbn [bind] in *.
  destruct (top =? VAR).
  - destruct (pvl <? 0); [discriminate H |]. cbn [fail_if bind] in *.
    destruct (arr_get vl pvl) as [v |]; [| discriminate H]. cbn [bind] in *.
    destruct ((v =? EMPTY) || (v <? 0)); [discriminate H |]. cbn [fail_if bind] in *.
    destruct (arr_set ins i (double_of_int 1)) as [ins1 |] eqn:Es; [| discriminate H].
    cbn [bind] in H. injection H as <-. machine_simpl.
    apply arr_set_value in Es as [-> Hr].
    assert (Hone : F !! Z.to_nat i = Some (double_of_int 1)).
    { unfold arr_get in Hi.
      replace (i <? 0) with false in Hi by (symmetry; apply Z.ltb_ge; lia).
      rewrite list_lookup_insert_eq in Hi by lia.
      destruct (F !! Z.to_nat i) as [x |]; [injection Hi as ->; reflexivity | discriminate Hi]. }
    unfold arr_set.
    replace ((0 <=? i) && (i <? Z.of_nat (length F))) with true
      by (symmetry; apply andb_true_iff; split; [apply Z.leb_le | apply Z.ltb_lt]; lia).
    cbn [bind]. rewrite (list_insert_id _ _ _ Hone). reflexivity.
  - destruct (top =? EXP); [| discriminate H].
    destruct (pel <? 0); [discriminate H |]. cbn [fail_if bind] in *.
    injection H as <-. reflexivity.
Qed.

Lemma flipped_replay (F : list float) (i : Z) (m : machine) :
  arr_get F i = arr_get (instr m) i -> flipped i (set_instr F m) = flipped i m.
Proof.
  intros H. unfold flipped.
  replace (instr (set_instr F m)) with F by (destruct m; reflexivity).
  rewrite H. reflexivity.
Qed.

Lemma expression_replay (F : list float) (m : machine) (k : Z) :
  expression (set_instr F m) k = expression m k.
Proof. unfold expression. destruct m. reflexivity. Qed.

Ltac same_registers F m :=
  replace (state (set_instr F m)) with (state m) by (destruct m; reflexivity);
  replace (args0 (set_instr F m)) with (args0 m) by (destruct m; reflexivity);
  replace (args1 (set_instr F m)) with (args1 m) by (destruct m; reflexivity);
  replace (vari (set_instr F m)) with (vari m) by (destruct m; reflexivity);
  replace (num (set_instr F m)) with (num m) by (destruct m; reflexivity);
  replace (expno (set_instr F m)) with (expno m) by (destruct m; reflexivity);
  replace (savexp (set_instr F m)) with (savexp m) by (destruct m; reflexivity);
  replace (varcnt (set_instr F m)) with (varcnt m) by (destruct m; reflexivity).

Lemma nodes_replay (expvars : list expr) (F : list float) (i : Z) (m : machine) :
  arr_get F i = arr_get (instr m) i ->
  node_NUM_VAR expvars (set_instr F m) = node_NUM_VAR expvars m
  /\ node_VAR_NUM expvars (set_instr F m) = node_VAR_NUM expvars m
  /\ node_VAR_VAR expvars (set_instr F m) = node_VAR_VAR expvars m
  /\ node_EXP_NUM i (set_instr F m) = node_EXP_NUM i m
  /\ node_EXP_VAR expvars i (set_instr F m) = node_EXP_VAR expvars i m
  /\ node_EXP_EXP i (set_instr F m) = node_EXP_EXP i m.
Proof.
  intros H.
  unfold node_NUM_VAR, node_VAR_NUM, node_VAR_VAR, node_EXP_NUM, node_EXP_VAR,
    node_EXP_EXP.
  rewrite !expression_replay, !(flipped_replay F i m H).
  same_registers F m. repeat split; reflexivity.
Qed.

Lemma dispatch_binary_replay (expvars : list expr) (F : list float) (i : Z)
    (m : machine) :
  arr_get F i = arr_get (instr m) i ->
  dispatch_binary expvars i (set_instr F m)
  = with_instr F (dispatch_binary expvars i m).
Proof.
  intros H. unfold dispatch_binary.
  destruct (nodes_replay expvars F i m H) as (N1 & N2 & N3 & N4 & N5 & _).
  rewrite N1, N2, N3, N4, N5.
  replace (args0 (set_instr F m)) with (args0 m) by (destruct m; reflexivity).
  replace (args1 (set_instr F m)) with (args1 m) by (destruct m; reflexivity).
  replace (savexplst (set_instr F m)) with (savexplst m) by (destruct m; reflexivity).
  replace (psavexplst (set_instr F m)) with (psavexplst m) by (destruct m; reflexivity).
  assert (S : forall c : result expr,
             (node <- c ;; store_node node (set_instr F m))
             = with_instr F (node <- c ;; store_node node m)).
  { intros [node | e]; cbn [bind]; [apply store_node_replay | reflexivity]. }
  repeat match goal with
         | |- (if ?c then _ else _) = _ => destruct c; [apply S |]
         end.
  destruct ((args0 m =? EXP) && (args1 m =? EXP)); [| reflexivity].
  destruct (arr_get (savexplst m) (psavexplst m)) as [sv |]; [| reflexivity].
  cbn [bind].
  destruct ((sv =? EMPTY) || (sv <? 0)); [reflexivity |]. cbn [fail_if bind].
  assert (E : set_savexp sv (set_instr F m) = set_instr F (set_savexp sv m))
    by (destruct m; reflexivity).
  rewrite E.
  assert (H' : arr_get F i = arr_get (instr (set_savexp sv m)) i) by (destruct m; exact H).
  destruct (nodes_replay expvars F i (set_savexp sv m) H') as (_ & _ & _ & _ & _ & N6).
  rewrite N6. destruct (node_EXP_EXP i (set_savexp sv m)) as [node |]; [| reflexivity].
  cbn [bind]. rewrite store_node_replay.
  destruct (store_node node (set_savexp sv m)) as [m1 |]; [| reflexivity].
  cbn [bind with_instr]. destruct m1. reflexivity.
Qed.

Lemma step_binary_replay (expvars : list expr) (no_instr : Z) (F : list float)
    (i : Z) (m m1 : machine) :
  step_binary expvars no_instr i m = Ok m1 ->
  length F = length (instr m) ->
  arr_get F i = arr_get (instr m1) i ->
  step_binary expvars no_instr i (set_instr F m) = Ok (set_instr F m1).
Proof.
  intros H Hl Hi. unfold step_binary in *.
  apply bind_inv in H as (m2 & Htw & H).
  apply bind_inv in H as (u & Hu & H).
  apply bind_inv in H as (m3 & Hd & H). injection H as <-.
  rewrite next_operator_instr, (dispatch_binary_instr _ _ _ _ Hd) in Hi.
  assert (E : set_vari (varcnt (set_instr F m)) (set_instr F m)
              = set_instr F (set_vari (varcnt m) m)) by (destruct m; reflexivity).
  rewrite E.
  rewrite (take_waiting_replay F i _ m2 Htw); [| destruct m; exact Hl | exact Hi].
  cbn [bind].
  replace (args0 (set_instr F m2)) with (args0 m2) by (destruct m2; reflexivity).
  replace (args1 (set_instr F m2)) with (args1 m2) by (destruct m2; reflexivity).
  rewrite Hu. cbn [bind].
  rewrite (dispatch_binary_replay expvars F i m2 Hi), Hd. cbn [with_instr bind].
  rewrite next_operator_replay. reflexivity.
Qed.

Lemma step_unary_replay (expvars : list expr) (no_instr : Z) (F : list float)
    (i : Z) (m : machine) :
  step_unary expvars no_instr i (set_instr F m)
  = with_instr F (step_unary expvars no_instr i m).
Proof.
  unfold step_unary.
  assert (E : set_vari (varcnt (set_instr F m)) (set_instr F m)
              = set_instr F (set_vari (varcnt m) m)) by (destruct m; reflexivity).
  rewrite E. clear E. generalize (set_vari (varcnt m) m). clear m. intros m.
  same_registers F m.
  destruct (args0 m =? EMPTY); [reflexivity |]. cbn [fail_if bind].
  assert (P1 : (if (args0 m =? EXP) && (args1 m =? VAR)
                then m0 <- save_expression (set_instr F m) ;; Ok (set_args VAR EMPTY m0)
                else Ok (set_instr F m))
               = with_instr F (if (args0 m =? EXP) && (args1 m =? VAR)
                               then m0 <- save_expression m ;; Ok (set_args VAR EMPTY m0)
                               else Ok m)).
  { destruct ((args0 m =? EXP) && (args1 m =? VAR)); [| reflexivity].
    rewrite save_expression_replay. apply with_instr_bind. intros m1.
    rewrite set_args_replay. reflexivity. }
  rewrite P1. apply with_instr_bind. clear m P1. intros m.
  same_registers F m.
  assert (P2 : (if (args0 m =? VAR) && (args1 m =? VAR)
                then save_variable (Ok (varcnt m - 1)) (set_instr F m)
                else Ok (set_instr F m))
               = with_instr F (if (args0 m =? VAR) && (args1 m =? VAR)
                               then save_variable (Ok (varcnt m - 1)) m
                               else Ok m)).
  { destruct ((args0 m =? VAR) && (args1 m =? VAR)); [| reflexivity].
    apply save_variable_replay. }
  rewrite P2. apply with_instr_bind. clear m P2. intros m.
  same_registers F m. rewrite expression_replay.
  assert (P3 : forall c : result expr,
             (node <- c ;; store_node node (set_instr F m))
             = with_instr F (node <- c ;; store_node node m)).
  { intros [node | e]; cbn [bind]; [apply store_node_replay | reflexivity]. }
  assert (P4 : (if args0 m =? VAR
                then fail_if (vari m <? 0) ErrNegativeVarIndex ;;;
                     (node <- node_unary ErrFcnVarNotImplemented (state m)
                                (expvar expvars (vari m)) ;;
                      store_node node (set_instr F m))
                else if args0 m =? EXP
                     then node <- node_unary ErrFcnExpNotImplemented (state m)
                                    (expression m (expno m - 1)) ;;
                          store_node node (set_instr F m)
                     else Fail ErrUnknownArgument)
               = with_instr F
                   (if args0 m =? VAR
                    then fail_if (vari m <? 0) ErrNegativeVarIndex ;;;
                         (node <- node_unary ErrFcnVarNotImplemented (state m)
                                    (expvar expvars (vari m)) ;;
                          store_node node m)
                    else if args0 m =? EXP
                         then node <- node_unary ErrFcnExpNotImplemented (state m)
                                        (expression m (expno m - 1)) ;;
                              store_node node m
                         else Fail ErrUnknownArgument)).
  { destruct (args0 m =? VAR).
    - destruct (vari m <? 0); [reflexivity |]. cbn [fail_if bind]. apply P3.
    - destruct (args0 m =? EXP); [apply P3 | reflexivity]. }
  rewrite P4. apply with_instr_bind. intros m1.
  rewrite next_operator_replay. reflexivity.
Qed.

(** One iteration, replayed on an array that agrees with the first run on
    what the iteration reads and on what it leaves at [i]. *)
Lemma step_replay (expvars : list expr) (no_instr : Z) (F : list float) (i : Z)
    (m m1 : machine) :
  step expvars no_instr i m = Ok m1 ->
  length F = length (instr m) ->
  (forall p, p < i -> arr_get F p = arr_get (instr m) p) ->
  arr_get F i = arr_get (instr m1) i ->
  step expvars no_instr i (set_instr F m) = Ok (set_instr F m1).
Proof.
  intros H Hl Hp Hi. pose proof (step_instr _ _ _ _ _ H) as Hins.
  unfold step in *.
  replace (state (set_instr F m)) with (state m) by (destruct m; reflexivity).
  destruct (state m =? READ) eqn:SR.
  { apply Z.eqb_eq in SR.
    destruct Hins as [E | (Hb & _)]; [| rewrite SR in Hb; discriminate Hb].
    rewrite E in Hi.
    replace (instr (set_instr F m)) with F by (destruct m; reflexivity).
    rewrite Hi. apply bind_inv in H as (x & Hx & H). apply bind_inv in H as (k & Hk & H).
    injection H as <-. rewrite Hx. cbn [bind]. rewrite Hk. cbn [bind].
    destruct m. reflexivity. }
  destruct (state m =? NUM) eqn:SN.
  { apply Z.eqb_eq in SN.
    destruct Hins as [E | (Hb & _)]; [| rewrite SN in Hb; discriminate Hb].
    rewrite E in Hi. rewrite (step_NUM_replay F i m Hi), H. reflexivity. }
  destruct (state m =? VAR) eqn:SV.
  { assert (H3 : i - 3 < i) by lia. assert (H5 : i - 5 < i) by lia.
    rewrite (step_VAR_replay F i m (Hp _ H3) (Hp _ H5)), H. reflexivity. }
  destruct (is_binary (state m)); [exact (step_binary_replay _ _ F i m m1 H Hl Hi) |].
  destruct (is_unary (state m)); [rewrite step_unary_replay, H; reflexivity |].
  destruct ((state m =? MIN) || (state m =? MAX)); [discriminate H |].
  destruct (state m =? TAN); [discriminate H |].
  destruct (state m =? SIGN); [discriminate H |].
  destruct (state m =? EXIT); [| discriminate H].
  injection H as <-. reflexivity.
Qed.

(** An iteration writes the array at its own position only. *)
Lemma step_instr_before (expvars : list expr) (no_instr i : Z) (m m1 : machine) :
  step expvars no_instr i m = Ok m1 -> 0 <= i ->
  length (instr m1) = length (instr m)
  /\ forall p, p <> i -> arr_get (instr m1) p = arr_get (instr m) p.
Proof.
  intros H Hi. destruct (step_instr _ _ _ _ _ H) as [E | (_ & _ & _ & _ & E)]; rewrite E.
  - split; reflexivity.
  - split; [apply length_insert |]. intros p Hp. apply arr_get_insert_ne; [exact Hi | lia].
Qed.

Lemma run_instr_before (expvars : list expr) (no_instr : Z) (n : nat) (i : Z)
    (m mf : machine) :
  run expvars no_instr n i m = Ok mf -> 0 <= i ->
  length (instr mf) = length (instr m)
  /\ forall p, p < i -> arr_get (instr mf) p = arr_get (instr m) p.
Proof.
  revert i m. induction n as [| n IH]; intros i m H Hi; cbn [run] in H.
  - injection H as <-. split; reflexivity.
  - apply bind_inv in H as (m1 & H1 & H).
    destruct (step_instr_before _ _ _ _ _ H1 Hi) as [L1 P1].
    assert (Hi1 : 0 <= i + 1) by lia.
    destruct (IH (i + 1) m1 H Hi1) as [L2 P2].
    split; [congruence |]. intros p Hp. rewrite P2 by lia. apply P1. lia.
Qed.

(** The main loop, replayed on the array it has left: the same machine. *)
Lemma run_replay (expvars : list expr) (no_instr : Z) (n : nat) (i : Z)
    (m mf : machine) :
  run expvars no_instr n i m = Ok mf -> 0 <= i ->
  run expvars no_instr n i (set_instr (instr mf) m) = Ok mf.
Proof.
  revert i m. induction n as [| n IH]; intros i m H Hi; cbn [run] in H |- *.
  - injection H as <-. rewrite set_instr_same. reflexivity.
  - apply bind_inv in H as (m1 & H1 & H).
    destruct (step_instr_before _ _ _ _ _ H1 Hi) as [L1 P1].
    assert (Hi1 : 0 <= i + 1) by lia.
    destruct (run_instr_before _ _ _ _ _ _ H Hi1) as [L2 P2].
    rewrite (step_replay expvars no_instr (instr mf) i m m1 H1).
    + cbn [bind]. apply IH; [exact H | lia].
    + congruence.
    + intros p Hp. rewrite P2 by lia. apply P1. lia.
    + apply P2. lia.
Qed.

(** The pre-scan reads the opcodes and the slots of the VAR opcodes, and
    nothing else. *)
Lemma prescan_folds_marks (ins : list float) :
  forall F : list float,
    length F = length ins ->
    (forall p : nat,
        F !! p = ins !! p
        \/ (Nat.odd p = true
            /\ exists o, ins !! (p - 1)%nat = Some o /\ deq o VAR = false)) ->
    (forall nv no, fold_left count_step F (READ, nv, no)
                   = fold_left count_step ins (READ, nv, no))
    /\ (forall j v, fold_left index_step F (Ok (READ, j, v))
                    = fold_left index_step ins (Ok (READ, j, v))).
Proof.
  revert ins. fix IH 1. intros [| o [| s ins']] F Hl Hp.
  - destruct F; [split; reflexivity | discriminate Hl].
  - destruct F as [| o' [| s' F']]; try discriminate Hl.
    destruct (Hp 0%nat) as [E | [E _]]; [| discriminate E].
    injection E as ->. split; reflexivity.
  - destruct F as [| o' [| s' F']]; try discriminate Hl.
    destruct (Hp 0%nat) as [E | [E _]]; [| discriminate E].
    injection E as ->.
    assert (Hs : s' = s \/ deq o VAR = false).
    { destruct (Hp 1%nat) as [E | (_ & o1 & E & Hd)].
      - injection E as ->. left. reflexivity.
      - injection E as <-. right. exact Hd. }
    assert (Ht : forall p : nat,
               F' !! p = ins' !! p
               \/ (Nat.odd p = true
                   /\ exists o1, ins' !! (p - 1)%nat = Some o1 /\ deq o1 VAR = false)).
    { intros p. destruct (Hp (S (S p))) as [E | (Ho & o1 & E & Hd)].
      - left. exact E.
      - right. split; [exact Ho |]. exists o1. split; [| exact Hd].
        destruct p as [| p]; [discriminate Ho |].
        replace (S p - 1)%nat with p by lia.
        replace (S (S (S p)) - 1)%nat with (S (S p)) in E by lia. exact E. }
    destruct (IH ins' F' ltac:(cbn [length] in Hl; lia) Ht) as [IHc IHi].
    split.
    + intros nv no. cbn [fold_left].
      rewrite !count_step_READ, !count_step_OTHER. apply IHc.
    + intros j v. cbn [fold_left]. rewrite !index_step_READ.
      destruct (deq o VAR) eqn:Ho.
      * destruct Hs as [-> | N]; [| discriminate N].
        rewrite index_step_VAR.
        destruct (cast_int s) as [k |]; cbn [bind]; [| rewrite !index_step_fail; reflexivity].
        destruct (arr_set v j k) as [v1 |]; cbn [bind];
          [apply IHi | rewrite !index_step_fail; reflexivity].
      * rewrite !index_step_OTHER. apply IHi.
Qed.

Lemma prescan_marks (ins F : list float) :
  length F = length ins ->
  (forall p : nat,
      F !! p = ins !! p
      \/ (Nat.odd p = true
          /\ exists o, ins !! (p - 1)%nat = Some o /\ deq o VAR = false)) ->
  prescan F = prescan ins.
Proof.
  intros Hl Hp. destruct (prescan_folds_marks ins F Hl Hp) as [Hc Hi].
  unfold prescan, count_instr, index_instr. rewrite Hc.
  destruct (fold_left count_step ins (READ, 0, 0)) as [[st nv] no].
  rewrite Hi. reflexivity.
Qed.

Lemma arr_get_same_lookup {A : Type} (a b : list A) (p : nat) :
  arr_get a (Z.of_nat p) = arr_get b (Z.of_nat p) -> a !! p = b !! p.
Proof.
  rewrite !arr_get_lookup.
  destruct (a !! p) as [x |], (b !! p) as [y |]; congruence.
Qed.

(** A slot that the main loop has changed holds a 1. *)
Lemma run_marks_are_ones (expvars : list expr) (no_instr : Z) (n : nat) :
  forall (i : Z) (m mf : machine),
    run expvars no_instr n i m = Ok mf -> 0 <= i ->
    forall p, arr_get (instr mf) p = arr_get (instr m) p
              \/ arr_get (instr mf) p = Ok 1%float.
Proof.
  induction n as [| n IHn]; intros i m mf H Hi p; cbn [run] in H.
  - injection H as <-. left. reflexivity.
  - apply bind_inv in H as (m1 & H1 & H).
    assert (Hi1 : 0 <= i + 1) by lia.
    destruct (IHn (i + 1) m1 mf H Hi1 p) as [E | E]; [| right; exact E].
    rewrite E.
    destruct (step_instr _ _ _ _ _ H1) as [E1 | (_ & _ & _ & _ & E1)]; rewrite E1.
    + left. reflexivity.
    + destruct (Z.eq_dec p i) as [-> | Hne].
      * destruct (decide (Z.to_nat i < length (instr m))%nat) as [Hin | Hout].
        -- right. unfold arr_get.
           replace (i <? 0) with false by (symmetry; apply Z.ltb_ge; lia).
           rewrite list_lookup_insert_eq by exact Hin. reflexivity.
        -- left. rewrite list_insert_ge by lia. reflexivity.
      * left. apply arr_get_insert_ne; [exact Hi | lia].
Qed.

(** X15: a second build of the same array. For a stream of (opcode, slot)
    pairs whose opcodes are enumerators from NUM to SIGN, the array that a
    build phase has left in the memory of the caller, flip marks included,
    builds the very same machine again: the marks sit in slots of binary
    operators, which the pre-scan does not read, and every iteration finds
    at its own position what the first run left there. The root of the
    second compilation is the root of the first. *)
Theorem second_build_is_the_same (nvars : Z) (cs : list (Z * float)) (m : machine) :
  Forall (fun c => NUM <= fst c <= SIGN) cs ->
  build nvars (encode cs) = Ok m ->
  build nvars (instr m) = Ok m
  /\ compile nvars (instr m) = compile nvars (encode cs)
  /\ (forall p, arr_get (instr m) p = arr_get (encode cs) p
                \/ exists q c, p = 2 * Z.of_nat q + 1 /\ cs !! q = Some c
                               /\ is_binary (fst c) = true
                               /\ arr_get (instr m) p = Ok 1%float).
Proof.
  intros Hr Hb.
  assert (G : build nvars (instr m) = Ok m
              /\ (forall p, arr_get (instr m) p = arr_get (encode cs) p
                            \/ exists q c, p = 2 * Z.of_nat q + 1 /\ cs !! q = Some c
                                           /\ is_binary (fst c) = true
                                           /\ arr_get (instr m) p = Ok 1%float)).
  2:{ destruct G as [G1 G2]. split; [exact G1 |]. split; [| exact G2].
      unfold compile. rewrite G1, Hb. reflexivity. }
  pose proof Hb as Hb0. unfold build in Hb.
  destruct (prescan (encode cs)) as [[[no_var no_ops] varind] |] eqn:Hp;
    [| discriminate Hb].
  cbn [bind] in Hb.
  destruct (create_expvars nvars varind) as [expvars |] eqn:He; [| discriminate Hb].
  cbn [bind] in Hb.
  apply bind_inv in Hb as (b & Hcs & Hb). apply bind_inv in Hb as (c & Hvs & Hb).
  set (ex := replicate (Z.to_nat (Z.max no_ops 1)) (@None expr)) in *.
  (* a short-circuit leaves the array as it is *)
  assert (Short : snd c = 0 -> instr m = encode cs).
  { intros E0. rewrite E0 in Hb. cbn [Z.to_nat run] in Hb. injection Hb as <-.
    reflexivity. }
  destruct (Z.eq_dec (snd c) 0) as [E0 | N0].
  { rewrite (Short E0). split; [exact Hb0 | intros p; left; reflexivity]. }
  (* otherwise the main loop runs over the whole array *)
  assert (Hc : b = (ex, Z.of_nat (length (encode cs))) /\ c = b).
  { unfold constant_shortcut in Hcs. unfold variable_shortcut in Hvs.
    destruct (Z.of_nat (length (encode cs)) =? 2) eqn:E2.
    - apply bind_inv in Hcs as (a & Ha & Hcs). destruct (deq a NUM).
      + apply bind_inv in Hcs as (c0 & _ & Hcs). apply bind_inv in Hcs as (ex' & _ & Hcs).
        injection Hcs as <-. cbn [fst snd] in Hvs.
        change (0 =? 2) with false in Hvs. injection Hvs as <-. contradiction N0.
        reflexivity.
      + injection Hcs as <-. cbn [fst snd] in Hvs. rewrite E2 in Hvs.
        apply bind_inv in Hvs as (a' & Ha' & Hvs). destruct (deq a' VAR).
        * apply bind_inv in Hvs as (v & _ & Hvs). apply bind_inv in Hvs as (ex' & _ & Hvs).
          injection Hvs as <-. contradiction N0. reflexivity.
        * injection Hvs as <-. split; reflexivity.
    - injection Hcs as <-. cbn [fst snd] in Hvs. rewrite E2 in Hvs.
      injection Hvs as <-. split; reflexivity. }
  destruct Hc as [-> ->]. cbn [fst snd] in Hb. rewrite Nat2Z.id in Hb.
  rewrite length_encode in Hb.
  destruct (run_pairs expvars (Z.of_nat (2 * length cs)) cs 0
              (initial (encode cs) ex) m) as (_ & _ & Hm).
  { lia. }
  { reflexivity. }
  { exact Hr. }
  { intros q c Hq. rewrite Z.add_0_l. exact (encode_lookup _ _ _ Hq). }
  { lia. }
  { apply unwritten_initial. }
  { exact Hb. }
  change (instr (initial (encode cs) ex)) with (encode cs) in Hm.
  assert (Hi0 : 0 <= 0) by lia.
  destruct (run_instr_before _ _ _ _ _ _ Hb Hi0) as [Hlen _].
  change (instr (initial (encode cs) ex)) with (encode cs) in Hlen.
  (* a mark is a 1 *)
  assert (Hone : forall p, arr_get (instr m) p = arr_get (encode cs) p
                           \/ arr_get (instr m) p = Ok 1%float).
  { intros p. exact (run_marks_are_ones _ _ _ _ _ _ Hb Hi0 p). }
  split.
  - unfold build.
    assert (Hps : prescan (instr m) = prescan (encode cs)).
    { apply prescan_marks; [exact Hlen |]. intros p.
      destruct (Hm (Z.of_nat p)) as [E | (q & c & Ep & Eq & Ebin)].
      - left. apply arr_get_same_lookup. exact E.
      - right. split; [rewrite Nat.odd_spec; exists q; lia |].
        exists (op (fst c)). split.
        + pose proof (encode_lookup _ _ _ Eq) as El. rewrite Z.add_0_l in Ep.
          replace (2 * Z.of_nat q) with (Z.of_nat (p - 1)) in El by lia.
          rewrite arr_get_lookup in El.
          destruct (encode cs !! (p - 1)%nat) as [x |]; [congruence | discriminate El].
        + apply operator_not_operand. rewrite Ebin. reflexivity. }
    rewrite Hps, Hp. cbn [bind]. rewrite He. cbn [bind].
    fold ex. rewrite Hlen.
    assert (Hfirst : arr_get (instr m) 0 = arr_get (encode cs) 0).
    { destruct (Hm 0) as [E | (q & c & Ep & _)]; [exact E | lia]. }
    unfold constant_shortcut, variable_shortcut in *. rewrite Hfirst.
    cbn [bind] in Hcs, Hvs |- *.
    destruct (Z.of_nat (length (encode cs)) =? 2) eqn:E2.
    + destruct (arr_get (encode cs) 0) as [a |]; [| discriminate Hcs]. cbn [bind] in *.
      destruct (deq a NUM).
      { apply bind_inv in Hcs as (c0 & _ & Hcs). apply bind_inv in Hcs as (ex' & _ & Hcs).
        apply Z.eqb_eq in E2. rewrite E2 in Hcs. discriminate Hcs. }
      cbn [bind fst snd] in *. rewrite E2 in *. cbn [bind] in *.
      destruct (deq a VAR).
      { apply bind_inv in Hvs as (v & _ & Hvs). apply bind_inv in Hvs as (ex' & _ & Hvs).
        apply Z.eqb_eq in E2. rewrite E2 in Hvs. discriminate Hvs. }
      cbn [bind fst snd]. rewrite Nat2Z.id, length_encode.
      change (initial (instr m) ex) with (set_instr (instr m) (initial (encode cs) ex)).
      apply run_replay; [exact Hb | lia].
    + cbn [bind fst snd]. rewrite E2. cbn [bind fst snd].
      rewrite Nat2Z.id, length_encode.
      change (initial (instr m) ex) with (set_instr (instr m) (initial (encode cs) ex)).
      apply run_replay; [exact Hb | lia].
  - intros p. destruct (Hm p) as [E | (q & c & Ep & Eq & Ebin)]; [left; exact E |].
    destruct (Hone p) as [E | E]; [left; exact E | right].
    exists q, c. rewrite Z.add_0_l in Ep. auto.
Qed.

Lemma second_build_is_the_same_witness :
  let cs := [(VAR, 0%float); (VAR, 1%float); (NUM, 2%float); (MUL, 0%float);
             (SUB, 0%float)] in
  exists m,
    build 2 (encode cs) = Ok m
    /\ instr m = [op VAR; 0%float; op VAR; 1%float; op NUM; 2%float; op MUL; 0%float;
                  op SUB; 1%float]
    /\ build 2 (instr m) = Ok m
    /\ compile 2 (instr m) = compile 2 (encode cs).
Proof.
  intros cs.
  assert (Hr : Forall (fun c => NUM <= fst c <= SIGN) cs).
  { unfold cs. repeat (constructor; [vm_compute; split; discriminate |]).
    constructor. }
  eexists. split; [vm_compute; reflexivity |].
  split; [reflexivity |].
  match goal with
  | |- build _ (instr ?M) = _ /\ _ =>
      assert (Hb : build 2 (encode cs) = Ok M) by (vm_compute; reflexivity);
      destruct (second_build_is_the_same 2 cs M Hr Hb) as (A & B & _);
      exact (conj A B)
  end.
Defined.
